(** * Numbas JME runtime: tokeniser, scopes, evaluator, rewrite rules and
    variable resolution, embedded from
    [editor/static/js/numbas/numbas-runtime.js].

    Conventions of the embedding.
    - A JavaScript string is a [string] whose characters are the code units
      below 256.
    - A JavaScript number is a [number]: rationals stand for the finite
      doubles, the named constants are kept symbolic.
    - An object that the source uses as a dictionary is read as a finite
      map or an association list of its own properties; the names of the
      properties that every object inherits are outside the model.
    - A JavaScript exception is the [Err] branch of [result]; [Fuel] is the
      only outcome that has no counterpart in the source: it marks a run
      that was cut off by the step bound of a recursive definition. *)

From Stdlib Require Import ZArith QArith Qround Ascii String List Lia Bool Sorted.
From stdpp Require Import base option list gmap strings.

#[local] Set Warnings "-register-all,-clear-no-such-hyp".

Local Open Scope string_scope.
Local Open Scope list_scope.
Local Open Scope Z_scope.

(** ** Errors and results *)

Inductive errarg :=
| AString (s : string)
| AStrings (l : list string)
| ANumber (q : Q).

(** [Error originalMessage args cause] is [new Numbas.Error(message,args)];
    [cause] is the caught error whose message is embedded in [args.message]
    when an error is re-thrown.  [TypeError] is the host's error for reading
    a property of [undefined]. *)
Inductive error :=
| Error (originalMessage : string) (args : list (string * errarg))
        (cause : option error)
| TypeError.

Inductive result (A : Type) :=
| OK (a : A)
| Err (e : error)
| Fuel.
Arguments OK {A} a.
Arguments Err {A} e.
Arguments Fuel {A}.

Definition rbind {A B} (f : A -> result B) (m : result A) : result B :=
  match m with
  | OK a => f a
  | Err e => Err e
  | Fuel => Fuel
  end.

#[global] Instance result_bind : MBind result := @rbind.
#[global] Instance result_ret : MRet result := @OK.

Definition throw {A} (msg : string) (args : list (string * errarg)) : result A :=
  Err (Error msg args None).

(** [try ... catch(e) { handler }] *)
Definition try_catch {A} (m : result A) (handler : error -> result A) : result A :=
  match m with
  | Err e => handler e
  | r => r
  end.

(** A loop over an array that stops at the first exception is [mapM]; the
    next is the same for a body that also reads the loop index. *)
Definition mapM_indexed {A B} (f : nat -> A -> result B)
  : nat -> list A -> result (list B) :=
  fix go (i : nat) (l : list A) : result (list B) :=
    match l with
    | [] => OK []
    | x :: l' => y ← f i x; ys ← go (S i) l'; OK (y :: ys)
    end.

(** ** Numbers *)

Inductive number :=
| Rat (q : Q)
| ConstE
| ConstPi
| ConstI
| Infinity.

(** [math.eq] on the modelled numbers *)
Definition math_eq (a b : number) : bool :=
  match a, b with
  | Rat p, Rat q => Qeq_bool p q
  | ConstE, ConstE | ConstPi, ConstPi | ConstI, ConstI
  | Infinity, Infinity => true
  | _, _ => false
  end.

(** ** Tokens ([Numbas.jme.types]) *)

Inductive token :=
| TNum (value : number)
| TString (value : string) (safe : bool) (latex : bool)
| TBool (value : bool)
| TName (name : string) (annotation : option (list string))
        (unboundName : bool)
| TList (vars : nat) (value : option (list token))
| TDict (value : option (list (string * token)))
| TRange (value : list Q)
| TOp (name : string) (postfix : bool) (prefix : bool)
| TFunc (name : string) (annotation : option (list string))
| TPunc (kind : string)
| TKeyPair (key : string)
| TOther (type : string).

(** [tok.type] *)
Definition type (t : token) : string :=
  match t with
  | TNum _ => "number"
  | TString _ _ _ => "string"
  | TBool _ => "boolean"
  | TName _ _ _ => "name"
  | TList _ _ => "list"
  | TDict _ => "dict"
  | TRange _ => "range"
  | TOp _ _ _ => "op"
  | TFunc _ _ => "function"
  | TPunc kind => kind
  | TKeyPair _ => "keypair"
  | TOther ty => ty
  end.

(** [new TList(value)] for an array [value] *)
Definition TList_of (value : list token) : token :=
  TList (length value) (Some value).

(** [tok.name], defined on names, operators and functions *)
Definition tok_name (t : token) : option string :=
  match t with
  | TName n _ _ | TOp n _ _ | TFunc n _ => Some n
  | _ => None
  end.

Definition isOp (t : token) (op : string) : bool :=
  match t with TOp n _ _ => String.eqb n op | _ => false end.
Definition isName (t : token) (name : string) : bool :=
  match t with TName n _ _ => String.eqb n name | _ => false end.
Definition isFunction (t : token) (name : string) : bool :=
  match t with TFunc n _ => String.eqb n name | _ => false end.

(** ** Syntax trees

    A node is [{tok, args}]; [args] is absent on leaves.  [bound] is the
    flag [tok.bound] read by [substituteTree]. *)
Inductive tree :=
| Tree (tok : token) (bound : bool) (args : option (list tree)).

Definition tree_tok (t : tree) : token := let 'Tree k _ _ := t in k.
Definition tree_bound (t : tree) : bool := let 'Tree _ b _ := t in b.
Definition tree_args (t : tree) : option (list tree) := let 'Tree _ _ a := t in a.

Definition leaf (k : token) : tree := Tree k false None.
Definition node (k : token) (args : list tree) : tree := Tree k false (Some args).

(** ** Character classes and [toLowerCase] *)

Definition code (c : ascii) : nat := nat_of_ascii c.

Definition is_digit (c : ascii) : bool :=
  (48 <=? code c)%nat && (code c <=? 57)%nat.
Definition is_upper (c : ascii) : bool :=
  (65 <=? code c)%nat && (code c <=? 90)%nat.
Definition is_lower (c : ascii) : bool :=
  (97 <=? code c)%nat && (code c <=? 122)%nat.
Definition is_alpha (c : ascii) : bool := is_upper c || is_lower c.

(** Upper-case letters among the code units below 256: A-Z and the
    Latin-1 capitals (U+00C0-U+00DE without the multiplication sign). *)
Definition has_lower_form (c : ascii) : bool :=
  is_upper c
  || ((192 <=? code c)%nat && (code c <=? 222)%nat && negb (code c =? 215)%nat).

Definition lower_char (c : ascii) : ascii :=
  if has_lower_form c then ascii_of_nat (code c + 32) else c.

Fixpoint toLowerCase (s : string) : string :=
  match s with
  | EmptyString => EmptyString
  | String c s' => String (lower_char c) (toLowerCase s')
  end.

(** * Tokeniser ([jme.tokenise]) *)

Module Tokeniser.

Definition chars := list ascii.

Fixpoint span {A} (f : A -> bool) (l : list A) : list A * list A :=
  match l with
  | [] => ([], [])
  | x :: l' =>
      if f x then let '(a, b) := span f l' in (x :: a, b) else ([], l)
  end.

Fixpoint starts_with (p s : chars) : bool :=
  match p, s with
  | [], _ => true
  | c :: p', d :: s' => Ascii.eqb c d && starts_with p' s'
  | _ :: _, [] => false
  end.

(** prefix test under the [i] flag of a regular expression; [p] is given
    in lower case *)
Fixpoint starts_with_ci (p s : chars) : bool :=
  match p, s with
  | [], _ => true
  | c :: p', d :: s' => Ascii.eqb c (lower_char d) && starts_with_ci p' s'
  | _ :: _, [] => false
  end.

Definition lit (s : string) : chars := list_ascii_of_string s.
Definition str (l : chars) : string := string_of_list_ascii l.

(** [jme.re.re_whitespace]: a white-space character of [\s], or the six
    characters of the entity for a non-breaking space. *)
Definition is_space (c : ascii) : bool :=
  bool_decide (code c ∈ [9; 10; 11; 12; 13; 32; 160]%nat).

Definition nbsp : chars := lit "&nbsp;".

(** [^ws+] of [re_strip_whitespace].  [skip] counts the characters of an
    entity still to be dropped, which keeps the recursion structural. *)
Fixpoint strip_leading (skip : nat) (s : chars) : chars :=
  match s with
  | [] => []
  | c :: s' =>
      match skip with
      | S k => strip_leading k s'
      | O =>
          if is_space c then strip_leading 0 s'
          else if starts_with nbsp s then strip_leading 5 s'
          else s
      end
  end.

(** [ws+$] of [re_strip_whitespace], read from the end of the text *)
Fixpoint strip_trailing_rev (skip : nat) (r : chars) : chars :=
  match r with
  | [] => []
  | c :: r' =>
      match skip with
      | S k => strip_trailing_rev k r'
      | O =>
          if is_space c then strip_trailing_rev 0 r'
          else if starts_with (rev nbsp) r then strip_trailing_rev 5 r'
          else r
      end
  end.

Definition strip_trailing (s : chars) : chars :=
  rev (strip_trailing_rev 0 (rev s)).

(** [expr.replace(jme.re.re_strip_whitespace,'')] *)
Definition strip_whitespace (s : chars) : chars :=
  strip_trailing (strip_leading 0 s).

(** A line terminator, which [.] does not match *)
Definition is_line_terminator (c : ascii) : bool :=
  (code c =? 10)%nat || (code c =? 13)%nat.

(** [re_comment]: length of the match *)
Definition match_comment (s : chars) : option nat :=
  match s with
  | "/"%char :: "/"%char :: rest =>
      let '(body, after) := span (fun c => negb (is_line_terminator c)) rest in
      match after with
      | [] => Some (2 + length body)%nat
      | c :: _ =>
          if (code c =? 10)%nat then Some (3 + length body)%nat else None
      end
  | _ => None
  end.

(** the inner [while] of the loop body: drop leading comments *)
Fixpoint skip_comments (fuel : nat) (expr : chars) : chars :=
  match fuel with
  | O => expr
  | S f =>
      match match_comment expr with
      | Some n => skip_comments f (strip_whitespace (drop n expr))
      | None => expr
      end
  end.

(** [re_number]: the matched text *)
Definition match_number (s : chars) : option chars :=
  let '(int, rest) := span is_digit s in
  match int with
  | [] => None
  | _ =>
      match rest with
      | "."%char :: rest' =>
          let '(frac, _) := span is_digit rest' in
          match frac with
          | [] => Some int
          | _ => Some (int ++ "."%char :: frac)
          end
      | _ => Some int
      end
  end.

Definition digit_value (c : ascii) : Z := Z.of_nat (code c - 48).

Definition digits_value (l : chars) : Z :=
  fold_left (fun acc c => 10 * acc + digit_value c) l 0.

(** [parseFloat] on a text matched by [re_number] *)
Definition parseFloat (l : chars) : Q :=
  let '(int, rest) := span is_digit l in
  match rest with
  | "."%char :: frac =>
      Qmake (digits_value int * 10 ^ Z.of_nat (length frac) + digits_value frac)
            (Pos.pow 10 (Pos.of_nat (length frac)))
  | _ => inject_Z (digits_value int)
  end.

(** a character of [[a-zA-Z_0-9']] *)
Definition is_ident_follow (c : ascii) : bool :=
  is_alpha c || is_digit c || Ascii.eqb c "_" || Ascii.eqb c "'".

Definition not_followed_by (f : ascii -> bool) (s : chars) : bool :=
  match s with
  | [] => true
  | c :: _ => negb (f c)
  end.

(** [re_bool]: the matched text *)
Definition match_bool (s : chars) : option chars :=
  if starts_with_ci (lit "true") s && not_followed_by is_ident_follow (drop 4 s)
  then Some (take 4 s)
  else if starts_with_ci (lit "false") s
          && not_followed_by is_ident_follow (drop 5 s)
  then Some (take 5 s)
  else None.

(** [util.parseBool] on a string *)
Definition parseBool (s : chars) : bool :=
  let b := toLowerCase (str s) in
  String.eqb b "true" || String.eqb b "yes".

Definition op_symbols : list string :=
  [".."; "#"; "<="; ">="; "<>"; "&&"; "||";
   "|"; "*"; "+"; "-"; "/"; "^"; "<"; ">"; "="; "!"; "&"; ";"].

Definition op_words : list string :=
  ["not"; "and"; "or"; "xor"; "implies"; "isa"; "except"; "in"; "divides"].

(** a word operator must be followed by a character outside
    [[a-zA-Z0-9_']] or by the end of the text *)
Definition match_op_word (s : chars) (w : string) : bool :=
  starts_with_ci (lit w) s
  && not_followed_by is_ident_follow (drop (String.length w) s).

(** [re_op]: the text kept in [result[0]] (for a word operator its second
    group, without the character that follows it) *)
Definition match_op (s : chars) : option chars :=
  match List.find (fun p => starts_with (lit p) s) op_symbols with
  | Some p => Some (lit p)
  | None =>
      match List.find (match_op_word s) op_words with
      | Some w => Some (take (String.length w) s)
      | None => None
      end
  end.

Definition opSynonyms (t : string) : string :=
  if String.eqb t "&" then "and"
  else if String.eqb t "&&" then "and"
  else if String.eqb t "divides" then "|"
  else if String.eqb t "||" then "or"
  else t.

Definition prefixForm (t : string) : option string :=
  if String.eqb t "+" then Some "+u"
  else if String.eqb t "-" then Some "-u"
  else if String.eqb t "!" then Some "not"
  else None.

Definition postfixForm (t : string) : option string :=
  if String.eqb t "!" then Some "fact" else None.

(** [[a-zA-Z]+:] repeated, as many times as possible: the pieces without
    their colons, and the rest of the text *)
Fixpoint annotations (fuel : nat) (s : chars) : list chars * chars :=
  match fuel with
  | O => ([], s)
  | S f =>
      let '(letters, rest) := span is_alpha s in
      match letters, rest with
      | _ :: _, ":"%char :: rest' =>
          let '(ps, r) := annotations f rest' in (letters :: ps, r)
      | _, _ => ([], s)
      end
  end.

Definition is_ident_start (c : ascii) : bool := is_alpha c || Ascii.eqb c "_".
Definition is_ident_char (c : ascii) : bool :=
  is_alpha c || is_digit c || Ascii.eqb c "_".

(** [[a-zA-Z_][a-zA-Z0-9_]*'*] *)
Definition match_identifier (s : chars) : option chars :=
  match s with
  | c :: s' =>
      if is_ident_start c then
        let '(body, rest) := span is_ident_char s' in
        let '(primes, _) := span (Ascii.eqb "'") rest in
        Some (c :: body ++ primes)
      else None
  | [] => None
  end.

(** the second group of [re_name]: an identifier with an optional dollar
    sign in front, or one or two question marks *)
Definition match_ident (s : chars) : option chars :=
  match s with
  | "$"%char :: s' => option_map (cons "$"%char) (match_identifier s')
  | "?"%char :: "?"%char :: _ => Some (lit "??")
  | "?"%char :: _ => Some (lit "?")
  | _ => match_identifier s
  end.

Record name_match := {
  nm_length : nat;             (* length of result[0] *)
  nm_annotation : list chars;  (* the pieces of result[1] *)
  nm_name : chars              (* result[2] *)
}.

Definition pieces_length (ps : list chars) : nat :=
  fold_right (fun p n => (length p + 1 + n)%nat) 0%nat ps.

(** [re_name].  The annotation group is greedy; when no name follows the
    last piece, the regular expression gives that piece back and reads it
    as the name. *)
Definition match_name (s : chars) : option name_match :=
  let '(open, s1) :=
    match s with
    | "{"%char :: s' => (1%nat, s')
    | _ => (0%nat, s)
    end in
  let '(ps, rest) := annotations (length s1) s1 in
  let close (r : chars) : nat :=
    match r with "}"%char :: _ => 1%nat | _ => 0%nat end in
  match match_ident rest with
  | Some n =>
      Some {| nm_length := (open + pieces_length ps + length n
                            + close (drop (length n) rest))%nat;
              nm_annotation := ps; nm_name := n |}
  | None =>
      match last ps with
      | Some p =>
          let ps' := removelast ps in
          Some {| nm_length := (open + pieces_length ps' + length p)%nat;
                  nm_annotation := ps'; nm_name := p |}
      | None => None
      end
  end.

(** [lname in jme.constants] and the number stored there *)
Definition constants (lname : string) : option number :=
  if String.eqb lname "e" then Some ConstE
  else if String.eqb lname "pi" then Some ConstPi
  else if String.eqb lname "i" then Some ConstI
  else if String.eqb lname "infinity" then Some Infinity
  else if String.eqb lname "infty" then Some Infinity
  else None.

(** [re_punctuation] *)
Definition match_punctuation (s : chars) : option chars :=
  match s with
  | c :: _ =>
      if bool_decide (c ∈ ["("; ")"; ","; "["; "]"]%char) then Some [c] else None
  | [] => None
  end.

(** the double quote *)
Definition dq : ascii := "034"%char.

(** the alternatives of the first group of [re_string], in order *)
Definition string_delimiters : list chars :=
  [[dq; dq; dq]; lit "'''"; lit "'"; [dq]].

(** the second group of [re_string] after the opening delimiter [d]: the
    shortest run of units (a character other than U+0001 and the backslash,
    or a backslash and a character that is no line terminator) that is
    followed by [d] again.  [skip] is set while the second character of an
    escape is read. *)
Fixpoint string_body (d : chars) (skip : bool) (s : chars) : option chars :=
  match s with
  | [] => None
  | c :: s' =>
      if skip then
        if is_line_terminator c then None
        else option_map (cons c) (string_body d false s')
      else if starts_with d s then Some []
      else if Ascii.eqb c "\" then option_map (cons c) (string_body d true s')
      else if (code c =? 1)%nat then None
      else option_map (cons c) (string_body d false s')
  end.

(** [re_string]: the length of the match and the text between the
    delimiters; the first delimiter that leads to a match is taken *)
Fixpoint match_string_with (ds : list chars) (s : chars) : option (nat * chars) :=
  match ds with
  | [] => None
  | d :: ds' =>
      if starts_with d s then
        match string_body d false (drop (length d) s) with
        | Some body => Some ((2 * length d + length body)%nat, body)
        | None => match_string_with ds' s
        end
      else match_string_with ds' s
  end.

Definition match_string (s : chars) : option (nat * chars) :=
  match_string_with string_delimiters s.

(** the loop that decodes backslash escapes in a string literal; [esc] is
    set while the character after a backslash is read *)
Fixpoint unescape (esc : bool) (s : chars) : chars :=
  match s with
  | [] => []
  | c :: s' =>
      if esc then
        (if Ascii.eqb c "n" then ["010"%char]
         else if Ascii.eqb c "{" || Ascii.eqb c "}" then ["\"%char; c]
         else [c]) ++ unescape false s'
      else if Ascii.eqb c "\" then unescape true s'
      else c :: unescape false s'
  end.

(** [tokens.length>0 && ] [tokens[tokens.length-1].type] is one of [tys] *)
Definition prev_is (tokens : list token) (tys : list string) : bool :=
  match last tokens with
  | Some t => bool_decide (type t ∈ tys)
  | None => false
  end.

Definition tok_postfix (t : token) : bool :=
  match t with TOp _ postfix _ => postfix | _ => false end.

(** the test that an operator stands where an operand is expected *)
Definition operand_expected (tokens : list token) : bool :=
  match last tokens with
  | None => true
  | Some nt =>
      bool_decide (type nt ∈ ["("; ","; "["])
      || (String.eqb (type nt) "op" && negb (tok_postfix nt))
      || String.eqb (type nt) "keypair"
  end.

(** [new TOp('*')] *)
Definition times : token := TOp "*" false false.

Definition push_times_after (tys : list string) (tokens : list token) : list token :=
  if prev_is tokens tys then tokens ++ [times] else tokens.

(** One turn of the outer [while] loop.  [None] is the [break]; otherwise
    the rest of the text and the token list after [tokens.push(token)]. *)
Definition tokenise_step (oexpr : string) (expr : chars) (tokens : list token)
  : result (option (chars * list token)) :=
  let expr := strip_whitespace expr in
  let expr := skip_comments (length expr) expr in
  match match_number expr with
  | Some r0 =>
      let token := TNum (Rat (parseFloat r0)) in
      let tokens := push_times_after [")"; "name"] tokens in
      OK (Some (drop (length r0) expr, tokens ++ [token]))
  | None =>
  match match_bool expr with
  | Some r0 =>
      OK (Some (drop (length r0) expr, tokens ++ [TBool (parseBool r0)]))
  | None =>
  match match_op expr with
  | Some r0 =>
      let t := opSynonyms (str r0) in
      let token :=
        if operand_expected tokens then
          match prefixForm t with
          | Some t' => TOp t' false true
          | None => TOp t false false
          end
        else
          match postfixForm t with
          | Some t' => TOp t' true false
          | None => TOp t false false
          end in
      OK (Some (drop (length r0) expr, tokens ++ [token]))
  | None =>
  match match_name expr with
  | Some m =>
      let name := str (nm_name m) in
      let token :=
        match nm_annotation m with
        | [] =>
            match constants (toLowerCase name) with
            | Some n => TNum n
            | None => TName name None false
            end
        | ps => TName name (Some (map str ps)) false
        end in
      let tokens := push_times_after ["number"; "name"; ")"] tokens in
      OK (Some (drop (nm_length m) expr, tokens ++ [token]))
  | None =>
  match match_punctuation expr with
  | Some r0 =>
      let tokens :=
        if String.eqb (str r0) "(" then push_times_after ["number"; ")"] tokens
        else tokens in
      OK (Some (drop (length r0) expr, tokens ++ [TPunc (str r0)]))
  | None =>
  match match_string expr with
  | Some (n, body) =>
      OK (Some (drop n expr, tokens ++ [TString (str (unescape false body)) false false]))
  | None =>
  match expr with
  | ":"%char :: rest =>
      match last tokens with
      | None => Err TypeError
      | Some (TString key _ _) => OK (Some (rest, removelast tokens ++ [TKeyPair key]))
      | Some t =>
          throw "jme.tokenise.keypair key not a string" [("type", AString (type t))]
      end
  | _ :: _ => throw "jme.tokenise.invalid" [("expression", AString oexpr)]
  | [] => OK None
  end end end end end end end.

(** The outer loop [while(expr.length)]; every turn removes at least one
    character, so [length expr] turns are enough (see [tokenise_total]). *)
Fixpoint tokenise_loop (fuel : nat) (oexpr : string) (expr : chars)
    (tokens : list token) : result (list token) :=
  match expr with
  | [] => OK tokens
  | _ :: _ =>
      match fuel with
      | O => Fuel
      | S f =>
          r ← tokenise_step oexpr expr tokens;
          match r with
          | None => OK tokens
          | Some (expr', tokens') => tokenise_loop f oexpr expr' tokens'
          end
      end
  end.

Definition tokenise (expr : string) : result (list token) :=
  match expr with
  | EmptyString => OK []
  | _ =>
      let e := strip_whitespace (lit expr) in
      tokenise_loop (length e) expr e []
  end.

End Tokeniser.

(** * Function records and scopes ([jme.funcObj], [jme.Scope]) *)

(** The evaluation procedure of a function record.  [Native f] stands for
    the default procedure around a primitive [fn], and for any other that
    uses nothing but the evaluated tokens of the argument array.
    [Scoped key] stands for a procedure that evaluates trees in the scope it
    is given, as the lazy operations do; its code is looked up under [key]
    in the table the evaluator is run with. *)
Inductive procedure :=
| Native (f : list token -> result token)
| Scoped (key : string).

Record funcObj := {
  fo_id : Z;
  fo_name : string;
  fo_intype : list string;
  fo_typecheck : list token -> bool;
  fo_evaluate : procedure
}.

(** The default [typecheck] of a function record.  A slot ["*t"] takes all
    the arguments that are left, which must have type [t]; any other slot
    takes one. *)
Definition slot_accepts (ntype : string) (v : token) : bool :=
  String.eqb (type v) ntype || String.eqb ntype "?"
  || String.eqb (type v) "?".

Fixpoint typecheck (intype : list string) (variables : list token) : bool :=
  match intype with
  | [] => match variables with [] => true | _ :: _ => false end
  | slot :: intype' =>
      match slot with
      | String "*"%char ntype =>
          forallb (slot_accepts ntype) variables && typecheck intype' []
      | _ =>
          match variables with
          | [] => false
          | v :: variables' =>
              slot_accepts slot v && typecheck intype' variables'
          end
      end
  end.

(** [new funcObj(name,intype,outcons,fn,options)], given the identifier
    that [funcObjAcc++] hands out *)
Definition new_funcObj (id : Z) (name : string) (intype : list string)
    (custom_typecheck : option (list token -> bool)) (evaluate : procedure)
  : funcObj :=
  {| fo_id := id;
     fo_name := toLowerCase name;
     fo_intype := intype;
     fo_typecheck := default (typecheck intype) custom_typecheck;
     fo_evaluate := evaluate |}.

(** A scope whose variables hold values of type [V].  The ruleset
    dictionary is left out: none of the modelled functions reads it. *)
Inductive ScopeOf (V : Type) := mkScope {
  variables : gmap string V;
  functions : gmap string (list funcObj);
  resolved_functions : gmap string (list funcObj);  (* _resolved_functions *)
  deleted_variables : gset string;                  (* deleted.variables *)
  parent : option (ScopeOf V)
}.
Arguments mkScope {V}.
Arguments variables {V}.
Arguments functions {V}.
Arguments resolved_functions {V}.
Arguments deleted_variables {V}.
Arguments parent {V}.

(** The dictionary [extras] given to the constructor.  Its variables are
    listed in the order in which [for(var x in extras.variables)] visits
    them. *)
Record extras (V : Type) := {
  ex_variables : option (list (string * V));
  ex_functions : option (gmap string (list funcObj))
}.
Arguments ex_variables {V}.
Arguments ex_functions {V}.

(** [fnSort = util.sortBy('id')] as a test for "comes before or is equal" *)
Definition fn_le (a b : funcObj) : bool := (fo_id a <=? fo_id b)%Z.

(** [out.sort(sortfn)], as a stable insertion sort *)
Fixpoint insert_sorted (x : funcObj) (l : list funcObj) : list funcObj :=
  match l with
  | [] => [x]
  | y :: l' => if fn_le x y then x :: l else y :: insert_sorted x l'
  end.

Definition sort_by_id (l : list funcObj) : list funcObj :=
  fold_right insert_sorted [] l.

(** the loop of [merge] that removes a record whose identifier is that of
    the record before it *)
Fixpoint remove_repeats (l : list funcObj) : list funcObj :=
  match l with
  | [] => []
  | x :: l' =>
      x :: match remove_repeats l' with
           | [] => []
           | y :: r => if (fo_id x =? fo_id y)%Z then r else y :: r
           end
  end.

(** [this.merge(arr,fnSort)] *)
Definition merge (this arr : list funcObj) : list funcObj :=
  match this with
  | [] => arr
  | _ :: _ => remove_repeats (sort_by_id (this ++ arr))
  end.

Section Scope.
Context {V : Type}.
Local Abbreviation Scope := (ScopeOf V).

(** [new Scope()] *)
Definition empty_scope : Scope :=
  {| variables := ∅; functions := ∅; resolved_functions := ∅;
     deleted_variables := ∅; parent := None |}.

Definition set_variables (s : Scope) (vs : gmap string V) : Scope :=
  {| variables := vs; functions := functions s;
     resolved_functions := resolved_functions s;
     deleted_variables := deleted_variables s; parent := parent s |}.

Definition set_functions (s : Scope) (fs : gmap string (list funcObj)) : Scope :=
  {| variables := variables s; functions := fs;
     resolved_functions := resolved_functions s;
     deleted_variables := deleted_variables s; parent := parent s |}.

Definition set_resolved_functions (s : Scope)
    (rs : gmap string (list funcObj)) : Scope :=
  {| variables := variables s; functions := functions s;
     resolved_functions := rs;
     deleted_variables := deleted_variables s; parent := parent s |}.

(** [Scope.prototype.setVariable] *)
Definition setVariable (s : Scope) (name : string) (value : V) : Scope :=
  set_variables s (<[toLowerCase name := value]> (variables s)).

(** [scope.variables[name] = value], the assignment that several callers
    write out themselves *)
Definition write_variable (s : Scope) (name : string) (value : V) : Scope :=
  set_variables s (<[name := value]> (variables s)).

(** [Scope.prototype.deleteVariable] *)
Definition deleteVariable (s : Scope) (name : string) : Scope :=
  {| variables := variables s; functions := functions s;
     resolved_functions := resolved_functions s;
     deleted_variables := {[name]} ∪ deleted_variables s; parent := parent s |}.

Definition no_extras : extras V :=
  {| ex_variables := None; ex_functions := None |}.

(** [new Scope([parent, extras])], and [new Scope(extras)] when there is no
    parent *)
Definition new_Scope (parent : option Scope) (ex : extras V) : Scope :=
  let this :=
    {| variables := ∅; functions := ∅; resolved_functions := ∅;
       deleted_variables := ∅; parent := parent |} in
  let this :=
    match ex_variables ex with
    | Some vs => fold_left (fun s '(x, v) => setVariable s x v) vs this
    | None => this
    end in
  match ex_functions ex with
  | Some fs => set_functions this fs
  | None => this
  end.

(** [Scope.prototype.addFunction] *)
Definition addFunction (s : Scope) (fn : funcObj) : Scope :=
  match functions s !! fo_name fn with
  | None => set_functions s (<[fo_name fn := [fn]]> (functions s))
  | Some fns =>
      set_resolved_functions
        (set_functions s (<[fo_name fn := fns ++ [fn]]> (functions s)))
        (delete (fo_name fn) (resolved_functions s))
  end.

(** [Scope.prototype.resolve('variables',name)], which is [getVariable] *)
Fixpoint getVariable (s : Scope) (name : string) : option V :=
  if bool_decide (name ∈ deleted_variables s) then None
  else
    match variables s !! name with
    | Some v => Some v
    | None =>
        match parent s with
        | Some p => getVariable p name
        | None => None
        end
    end.

(** the [while(scope)] loop of [getFunction] *)
Fixpoint collect_functions (s : Scope) (name : string) (o : list funcObj)
  : list funcObj :=
  let o :=
    match functions s !! name with
    | Some fns => merge o fns
    | None => o
    end in
  match parent s with
  | Some p => collect_functions p name o
  | None => o
  end.

(** [Scope.prototype.getFunction]: the list of definitions, and the scope
    with the list remembered in [_resolved_functions] *)
Definition getFunction (s : Scope) (name : string) : list funcObj * Scope :=
  match resolved_functions s !! name with
  | Some o => (o, s)
  | None =>
      let o := collect_functions s name [] in
      (o, set_resolved_functions s (<[name := o]> (resolved_functions s)))
  end.

End Scope.

(** What a variable of a scope holds when trees are values: an evaluated
    token, or a syntax tree (an object with a [tok] property). *)
Inductive val :=
| VTok (t : token)
| VTree (t : tree).

Abbreviation Scope := (ScopeOf val).

(** [jme.lazyOps] after every [push] of the file *)
Definition lazyOps : list string :=
  ["if"; "switch"; "repeat"; "map"; "let"; "isa"; "satisfy"; "filter";
   "isset"; "dict"; "safe"; "assert"; "try"; "canonical_compare"; "apply"].

(** Plain values of the host language, as [jme.wrapValue] receives them *)
Inductive jsvalue :=
| JNumber (n : number)
| JString (s : string)
| JBoolean (b : bool)
| JArray (l : list jsvalue)
| JNull
| JObject (fields : list (string * jsvalue))
| JToken (t : token).

(** [jme.wrapValue(v)] without a type hint *)
Fixpoint wrapValue (v : jsvalue) : token :=
  match v with
  | JNumber n => TNum n
  | JString s => TString s true false
  | JBoolean b => TBool b
  | JArray l => TList_of (map wrapValue l)
  | JNull => TString "" false false
  | JObject fields =>
      TDict (Some (map (fun '(k, x) => (k, wrapValue x)) fields))
  | JToken t => t
  end.

(** * Substitution and evaluation on syntax trees
    ([jme.substituteTree], [Scope.prototype.evaluate]) *)

Definition is_call (k : token) : bool :=
  String.eqb (type k) "function" || String.eqb (type k) "op".

(** [tree.tok.name in substituteTreeOps], and what the entry does to the
    argument array of the copied node *)
Definition substituteTreeOps (name : string)
    (sub : tree -> result tree) (args : list tree)
  : option (result (list tree)) :=
  let at2 :=
    match args with
    | a0 :: a1 :: a2 :: rest => a2' ← sub a2; OK (a0 :: a1 :: a2' :: rest)
    | _ => Err TypeError
    end in
  if String.eqb name "isset" then Some (OK args)
  else if String.eqb name "map" then Some at2
  else if String.eqb name "filter" then Some at2
  else if String.eqb name "let" then
    Some (mapM_indexed
            (fun i a =>
               if Nat.odd i && (S i <? length args)%nat then sub a else OK a)
            0%nat args)
  else if String.eqb name "apply" then Some (OK args)
  else None.

(** [jme.substituteTree(tree,scope,allowUnbound)].  The result is a new
    node around new argument arrays; only a bound node, a leaf that is no
    name, and the value of a variable are handed back as they are.  (On a
    [map] or [filter] node with fewer than three arguments the source
    stores [null] in the third slot and fails when the node is used; the
    model fails at once.) *)
Fixpoint substituteTree (t : tree) (scope : Scope) (allowUnbound : bool)
  : result tree :=
  let 'Tree k bound args := t in
  if bound then OK t
  else
    match args with
    | None =>
        match k with
        | TName name _ _ =>
            let name := toLowerCase name in
            match getVariable scope name with
            | None =>
                if allowUnbound then OK (leaf (TName name None false))
                else throw "jme.substituteTree.undefined variable"
                           [("name", AString name)]
            | Some (VTree v) => OK v
            | Some (VTok v) => OK (leaf v)
            end
        | _ => OK t
        end
    | Some args =>
        let sub := fun a => substituteTree a scope allowUnbound in
        let custom :=
          match tok_name k with
          | Some name => if is_call k then substituteTreeOps name sub args else None
          | None => None
          end in
        match custom with
        | Some r => args' ← r; OK (node k args')
        | None => args' ← mapM sub args; OK (node k args')
        end
    end.

(** [value.contains('{')] *)
Fixpoint contains_brace (s : string) : bool :=
  match s with
  | EmptyString => false
  | String c s' => Ascii.eqb c "{" || contains_brace s'
  end.

(** [value[key] = v] on the object that becomes a dictionary *)
Fixpoint dict_set (d : list (string * token)) (key : string) (v : token)
  : list (string * token) :=
  match d with
  | [] => [(key, v)]
  | (k, x) :: d' =>
      if String.eqb k key then (k, v) :: d' else (k, x) :: dict_set d' key v
  end.

Definition tok_unboundName (v : token) : option string :=
  match v with
  | TName name _ true => Some name
  | _ => None
  end.

(** the errors of [evaluate] when no definition is called *)
Definition not_defined {V} (scope : ScopeOf V) (k : token) (op : string)
  : result token :=
  if String.eqb (type k) "function" then
    let possibleOp := match op with String _ r => r | EmptyString => EmptyString end in
    if (1 <? String.length op)%nat
       && negb (bool_decide (fst (getFunction scope possibleOp) = []))
    then throw "jme.typecheck.function maybe implicit multiplication"
               [("name", AString op); ("possibleOp", AString possibleOp)]
    else throw "jme.typecheck.function not defined"
               [("op", AString op); ("suggestion", AString op)]
  else throw "jme.typecheck.op not defined" [("op", AString op)].

Definition no_right_type (args : list token) (op : string) : result token :=
  match list_find (fun v => is_Some (tok_unboundName v)) args with
  | Some (_, TName name _ _) =>
      throw "jme.typecheck.no right type unbound name" [("name", AString name)]
  | _ => throw "jme.typecheck.no right type definition" [("op", AString op)]
  end.

Section Evaluate.

(** The code of the [Scoped] procedures: given the key of the record, the
    evaluator to call back, the argument array and the scope. *)
Variable scoped :
  string -> (Scope -> tree -> result token) -> list val -> Scope -> result token.

(** [jme.contentsubvars]: the expansion of brace-delimited expressions in a
    string, which belongs to the text-substitution utilities. *)
Variable contentsubvars : string -> Scope -> result string.

(** the tokens of an argument array that holds nothing else *)
Definition tokens_of (args : list val) : option (list token) :=
  mapM (M := option)
       (fun v => match v with VTok t => Some t | VTree _ => None end) args.

(** [fn.evaluate(args,scope)] *)
Definition call (ev : Scope -> tree -> result token) (fn : funcObj)
    (args : list val) (scope : Scope) : result token :=
  match fo_evaluate fn with
  | Native f =>
      match tokens_of args with
      | Some vs => f vs
      | None => Err TypeError
      end
  | Scoped key => scoped key ev args scope
  end.

(** the choice of a definition among those of the name [op], and its
    call, once the arguments are evaluated *)
Definition dispatch (ev : Scope -> tree -> result token) (scope : Scope)
    (k : token) (op : string) (vs : list token) : result token :=
  let fns := fst (getFunction scope op) in
  match fns with
  | [] => not_defined scope k op
  | _ :: _ =>
      match List.find (fun fn => fo_typecheck fn vs) fns with
      | Some matchedFunction => call ev matchedFunction (map VTok vs) scope
      | None => no_right_type vs op
      end
  end.

(** The body of [Scope.prototype.evaluate] for a tree, from the call of
    [substituteTree] on.  The step bound [fuel] limits the depth of the
    calls of [jme.evaluate]. *)
Fixpoint evaluate (fuel : nat) (scope : Scope) (t : tree) : result token :=
  match fuel with
  | O => Fuel
  | S fuel =>
      t ← substituteTree t scope true;
      let 'Tree k _ args := t in
      match k with
      | TNum _ | TBool _ | TRange _ => OK k
      | TList _ None =>
          match args with
          | Some args =>
              value ← mapM (evaluate fuel scope) args;
              OK (TList_of value)
          | None => Err TypeError
          end
      | TList _ (Some _) => OK k
      | TDict None =>
          match args with
          | Some args =>
              value ← foldM_dict fuel scope args [];
              OK (TDict (Some value))
          | None => Err TypeError
          end
      | TDict (Some _) => OK k
      | TString value safe latex =>
          if negb safe && contains_brace value then
            value ← contentsubvars value scope;
            OK (TString value false latex)
          else OK k
      | TName name _ _ =>
          match getVariable scope (toLowerCase name) with
          | Some (VTok v) => OK v
          | Some (VTree _) => Err TypeError
          | None => OK (TName name None true)
          end
      | TOp name _ _ | TFunc name _ =>
          let op := toLowerCase name in
          if bool_decide (op ∈ lazyOps) then
            match args, fst (getFunction scope op) with
            | Some args, fn :: _ =>
                call (evaluate fuel) fn (map VTree args) scope
            | _, _ => Err TypeError
            end
          else
            match args with
            | None => Err TypeError
            | Some args =>
                vs ← mapM (evaluate fuel scope) args;
                dispatch (evaluate fuel) scope k op vs
            end
      | _ => OK k
      end
  end
with foldM_dict (fuel : nat) (scope : Scope) (args : list tree)
    (value : list (string * token)) : result (list (string * token)) :=
  match fuel with
  | O => Fuel
  | S fuel =>
      match args with
      | [] => OK value
      | Tree (TKeyPair key) _ (Some (a :: _)) :: args' =>
          v ← evaluate fuel scope a;
          foldM_dict fuel scope args' (dict_set value key v)
      | _ :: _ => Err TypeError
      end
  end.

(** The scope in which [Scope.prototype.evaluate(expr,variables)] works: a
    child of [this] that holds the wrapped [variables], when these are
    given. *)
Definition evaluate_scope (this : Scope)
    (vars : option (list (string * jsvalue))) : Scope :=
  match vars with
  | None => this
  | Some vars =>
      fold_left (fun s '(name, v) => write_variable s name (VTok (wrapValue v)))
                vars (new_Scope (Some this) no_extras)
  end.

(** [Scope.prototype.evaluate(expr,variables)] for a tree [expr] *)
Definition Scope_evaluate (fuel : nat) (this : Scope) (expr : tree)
    (vars : option (list (string * jsvalue))) : result token :=
  evaluate fuel (evaluate_scope this vars) expr.

End Evaluate.

(** * Pattern matching and rules ([jme.rules]) *)

(** The dictionary of matched subtrees.  The names are kept in the order
    in which they were first set, which is the order of [for(name in m)]. *)
Definition captures := list (string * tree).

(** [m[name] = t] *)
Fixpoint obj_set {A} (m : list (string * A)) (name : string) (t : A)
  : list (string * A) :=
  match m with
  | [] => [(name, t)]
  | (k, x) :: m' =>
      if String.eqb k name then (k, t) :: m' else (k, x) :: obj_set m' name t
  end.

Fixpoint obj_get {A} (m : list (string * A)) (name : string) : option A :=
  match m with
  | [] => None
  | (k, x) :: m' => if String.eqb k name then Some x else obj_get m' name
  end.

(** [for(var x in m) d[x] = m[x]] *)
Definition obj_assign {A} (d m : list (string * A)) : list (string * A) :=
  fold_left (fun d '(k, x) => obj_set d k x) m d.

(** [jme.commutative[name]] *)
Definition commutative (name : string) : bool :=
  bool_decide (name ∈ ["*"; "+"; "and"; "="]).

Definition endTermNames (name : string) : bool :=
  bool_decide (name ∈ ["??"; "m_nothing"; "m_number"]).

(** [/^m_(?:all|pm|not|commute)$/.test(name)] *)
Definition is_wrapper_name (name : string) : bool :=
  bool_decide (name ∈ ["m_all"; "m_pm"; "m_not"; "m_commute"]).

(** [isEndTerm] *)
Fixpoint isEndTerm (term : tree) : result bool :=
  let 'Tree k _ args := term in
  let wrapper :=
    match k with
    | TFunc name _ => is_wrapper_name name
    | _ => isOp k ";"
    end in
  if wrapper then
    match args with
    | Some (a :: _) => isEndTerm a
    | _ => Err TypeError
    end
  else if isFunction k "m_any" then
    match args with
    | Some args =>
        (fix any (l : list tree) : result bool :=
           match l with
           | [] => OK false
           | a :: l' => b ← isEndTerm a; if b : bool then OK true else any l'
           end) args
    | None => Err TypeError
    end
  else
    OK (match k with TName name _ _ => endTermNames name | _ => false end).

(** The result of [getCommutingTerms]: the terms, and for each of them the
    names set on it. *)
Record commuting_terms := {
  terms : list tree;
  termnames : list (list string)
}.

(** [arg.args[1].tok.name], which is [undefined] on a token without a name *)
Definition name_or_undefined (t : tree) : string :=
  default "undefined" (tok_name (tree_tok t)).

(** the characters of a name, each as a string: what indexing a string
    where a list of names is expected gives *)
Fixpoint characters (s : string) : list string :=
  match s with
  | EmptyString => []
  | String c s' => String c EmptyString :: characters s'
  end.

(** the loop [while(jme.isOp(arg.tok,';'))] of [getCommutingTerms]: the
    argument without the names set on it, and the names *)
Fixpoint strip_names (arg : tree) (argnames : list string)
  : result (tree * list string) :=
  if isOp (tree_tok arg) ";" then
    match tree_args arg with
    | Some (a0 :: a1 :: _) =>
        strip_names a0 (argnames ++ [name_or_undefined a1])
    | _ => Err TypeError
    end
  else OK (arg, argnames).

(** [getCommutingTerms(tree,op,names)].  [fuel] bounds the depth of the
    recursion, which follows the nesting of [tree]. *)
Fixpoint getCommutingTerms (fuel : nat) (t : tree) (op : string)
    (names : list string) : result commuting_terms :=
  match fuel with
  | O => Fuel
  | S fuel =>
      t ← (if String.eqb op "+" && isOp (tree_tok t) "-" then
             match tree_args t with
             | Some (a0 :: a1 :: _) =>
                 OK (node (TOp "+" false false)
                          [a0; node (TOp "-u" false false) [a1]])
             | _ => Err TypeError
             end
           else OK t);
      match tree_args t, tok_name (tree_tok t) with
      | Some args, Some name =>
          if negb (String.eqb name op) then
            OK {| terms := [t]; termnames := map characters names |}
          else
            (fix loop (args : list tree) (ts : list tree) (tn : list (list string))
                 (rest : list tree) (restnames : list (list string))
               : result commuting_terms :=
               match args with
               | [] => OK {| terms := ts ++ rest; termnames := tn ++ restnames |}
               | arg :: args' =>
                   '(arg, argnames) ← strip_names arg names;
                   if isOp (tree_tok arg) op
                      || (String.eqb op "+" && isOp (tree_tok arg) "-")
                   then
                     sub ← getCommutingTerms fuel arg op argnames;
                     loop args' (ts ++ terms sub) (tn ++ termnames sub)
                          rest restnames
                   else
                     e ← isEndTerm arg;
                     if isName (tree_tok arg) "?" || e
                     then loop args' ts tn (rest ++ [arg]) (restnames ++ [argnames])
                     else loop args' (ts ++ [arg]) (tn ++ [argnames]) rest restnames
               end) args [] [] [] []
      | _, _ => OK {| terms := [t]; termnames := map characters names |}
      end
  end.

(** [namedTerms[name].push(t)] *)
Definition push_named (namedTerms : list (string * list tree)) (name : string)
    (t : tree) : list (string * list tree) :=
  obj_set namedTerms name (default [] (obj_get namedTerms name) ++ [t]).

(** the loop that turns the terms collected under a name into one tree *)
Definition rebuild (commutingOp : string) (ts : list tree) : option tree :=
  match ts with
  | [] => None
  | sub :: ts' =>
      Some (fold_left (fun sub t => node (TOp commutingOp false false) [sub; t])
                      ts' sub)
  end.

(** [wantedType] of [m_type]: [tok.name || tok.value], when that is a
    string *)
Definition wantedType (k : token) : option string :=
  match k with
  | TName name _ _ | TOp name _ _ | TFunc name _ => Some name
  | TString value _ _ => Some value
  | _ => None
  end.

(** the loop of [matchTree] that rejects a match in which a pattern term
    that is no end term was not used *)
Fixpoint all_used (ruleTerms : list tree) (matched : list bool) : result bool :=
  match ruleTerms with
  | [] => OK true
  | term :: ruleTerms' =>
      e ← isEndTerm term;
      if negb e && negb (default false (head matched)) then OK false
      else all_used ruleTerms' (tail matched)
  end.

(** The loop of the positional branch of [matchTree], from index [i] on;
    [d] is the dictionary so far. *)
Fixpoint positional_from (rec : tree -> tree -> result (option captures))
    (eargs : list tree) (i : nat) (rargs : list tree) (d : captures)
  : result (option captures) :=
  match rargs with
  | [] => OK (Some d)
  | r :: rargs' =>
      match eargs !! i with
      | None => OK None
      | Some e =>
          m ← rec r e;
          match m with
          | None => OK None
          | Some m => positional_from rec eargs (S i) rargs' (obj_assign d m)
          end
      end
  end.

(** The branch of [matchTree] that compares the two nodes position by
    position: the kind and the name of the tokens, then each argument of
    the pattern with the argument of the expression at the same index.
    [rec] is [matchTree] with the same [doCommute]. *)
Definition positional (rec : tree -> tree -> result (option captures))
    (ruleTree exprTree : tree) : result (option captures) :=
  let ruleTok := tree_tok ruleTree in
  let exprTok := tree_tok exprTree in
    if negb (String.eqb (type ruleTok) (type exprTok))
       || negb (bool_decide (tok_name ruleTok = tok_name exprTok))
    then OK None
    else
      match tree_args ruleTree, tree_args exprTree with
      | Some rargs, Some eargs =>
          positional_from rec eargs 0%nat rargs []
      | Some [], None => OK (Some [])
      | _, _ => Err TypeError
      end.

(** State of the loop over the terms of the expression in the commuting
    case: which pattern terms are taken, and the trees collected under each
    name. *)
Record commute_state := {
  matchedRules : list bool;
  namedTerms : list (string * list tree)
}.

(** The branch of [matchTree] for a commutative operation [commutingOp]
    when [doCommute] is set.  [rec] is [matchTree] with the same
    [doCommute]; [fuel] is what [getCommutingTerms] may use. *)
Definition commuting (fuel : nat)
    (rec : tree -> tree -> result (option captures))
    (ruleTree exprTree : tree) (commutingOp : string)
  : result (option captures) :=
    ruleTerms ← getCommutingTerms fuel ruleTree commutingOp [];
    exprTerms ← getCommutingTerms fuel exprTree commutingOp [];
    let try_rule (exprTerm : tree) (st : commute_state) :=
      (fix inner (j : nat) (rts : list tree) : result (option commute_state) :=
         match rts with
         | [] => OK None
         | ruleTerm :: rts' =>
             m ← rec ruleTerm exprTerm;
             match m with
             | Some m =>
                 if negb (default false (matchedRules st !! j))
                    || bool_decide (tok_name (tree_tok ruleTerm) = Some "m_all")
                 then
                   let named :=
                     fold_left (fun nt '(name, t) => push_named nt name t)
                               m (namedTerms st) in
                   let named :=
                     fold_left (fun nt name => push_named nt name exprTerm)
                               (default [] (termnames ruleTerms !! j)) named in
                   OK (Some {| matchedRules := <[j := true]> (matchedRules st);
                               namedTerms := named |})
                 else inner (S j) rts'
             | None => inner (S j) rts'
             end
         end) 0%nat (terms ruleTerms) in
    let outer :=
      fix outer (ets : list tree) (st : commute_state)
        : result (option commute_state) :=
        match ets with
        | [] => OK (Some st)
        | exprTerm :: ets' =>
            r ← try_rule exprTerm st;
            match r with
            | Some st' => outer ets' st'
            | None => OK None
            end
        end in
    r ← outer (terms exprTerms)
              {| matchedRules := replicate (length (terms ruleTerms)) false;
                 namedTerms := [] |};
    match r with
    | None => OK None
    | Some st =>
        ok ← all_used (terms ruleTerms) (matchedRules st);
        if ok : bool then
          OK (Some (omap (fun '(name, ts) =>
                            option_map (pair name) (rebuild commutingOp ts))
                         (namedTerms st)))
        else OK None
    end.

Section Matching.

(** [jme.findvars]: the names of the free variables of a tree.  It reads
    string tokens with the parser, which is not part of this model; the
    matcher uses it for [m_uses] only. *)
Variable findvars : tree -> list string.

(** the first alternative of [l] that matches *)
Definition first_match {A B} (f : A -> result (option B))
  : list A -> result (option B) :=
  fix go (l : list A) : result (option B) :=
    match l with
    | [] => OK None
    | a :: l' =>
        m ← f a;
        match m with
        | Some _ => OK m
        | None => go l'
        end
    end.

(** [matchTree(ruleTree,exprTree,doCommute)]: [None] is [false], [Some m]
    the dictionary [m].  [fuel] bounds the depth of the recursion. *)
Fixpoint matchTree (fuel : nat) (ruleTree exprTree : tree) (doCommute : bool)
  : result (option captures) :=
  match fuel with
  | O => Fuel
  | S fuel =>
  let ruleTok := tree_tok ruleTree in
  let exprTok := tree_tok exprTree in
  let rargs := tree_args ruleTree in
  let first_arg (k : tree -> result (option captures)) :=
    match rargs with
    | Some (p :: _) => k p
    | _ => Err TypeError
    end in
  if isOp ruleTok ";" then
    match rargs with
    | Some (p :: n :: _) =>
        match tree_tok n with
        | TName name _ _ =>
            m ← matchTree fuel p exprTree doCommute;
            OK (option_map (fun m => obj_set m name exprTree) m)
        | _ => throw "jme.matchTree.group name not a name" []
        end
    | _ => Err TypeError
    end
  else
  let positional (_ : unit) : result (option captures) :=
    positional (fun r e => matchTree fuel r e doCommute) ruleTree exprTree in
  let commuting (commutingOp : string) : result (option captures) :=
    commuting fuel (fun r e => matchTree fuel r e doCommute)
              ruleTree exprTree commutingOp in
  match ruleTok with
  | TName name _ _ =>
      if String.eqb name "?" || String.eqb name "??" then OK (Some [])
      else if String.eqb name "m_number" then
        OK (if String.eqb (type exprTok) "number" then Some [] else None)
      else if String.eqb name "m_nothing" then OK None
      else if negb (String.eqb (type exprTok) "name") then OK None
      else
        OK (if bool_decide (toLowerCase <$> Some name
                            = toLowerCase <$> tok_name exprTok)
            then Some [] else None)
  | TFunc name _ =>
      let generic (_ : unit) :=
        if negb (String.eqb (type exprTok) "function") then OK None
        else if doCommute && commutative name then commuting name
        else positional tt in
      if String.eqb name "m_any" then
        match rargs with
        | Some alts => first_match (fun a => matchTree fuel a exprTree doCommute) alts
        | None => Err TypeError
        end
      else if String.eqb name "m_all" then
        first_arg (fun p => matchTree fuel p exprTree doCommute)
      else if String.eqb name "m_pm" then
        first_arg (fun p =>
          if isOp exprTok "-u" then
            matchTree fuel (node (TOp "-u" false false) [p]) exprTree doCommute
          else matchTree fuel p exprTree doCommute)
      else if String.eqb name "m_not" then
        first_arg (fun p =>
          m ← matchTree fuel p exprTree doCommute;
          OK (match m with Some _ => None | None => Some [] end))
      else if String.eqb name "m_and" then
        match rargs with
        | Some ps =>
            (fix all (ps : list tree) (d : captures) : result (option captures) :=
               match ps with
               | [] => OK (Some d)
               | p :: ps' =>
                   m ← matchTree fuel p exprTree doCommute;
                   match m with
                   | Some m => all ps' (obj_assign d m)
                   | None => OK None
                   end
               end) ps []
        | None => Err TypeError
        end
      else if String.eqb name "m_uses" then
        match rargs with
        | Some ns =>
            let vars := findvars exprTree in
            OK (if forallb (fun n => match tok_name (tree_tok n) with
                                     | Some x => bool_decide (x ∈ vars)
                                     | None => false
                                     end) ns
                then Some [] else None)
        | None => Err TypeError
        end
      else if String.eqb name "m_commute" then
        first_arg (fun p => matchTree fuel p exprTree true)
      else if String.eqb name "m_type" then
        first_arg (fun p =>
          OK (if bool_decide (wantedType (tree_tok p) = Some (type exprTok))
              then Some [] else None))
      else generic tt
  | TOp name _ _ =>
      if doCommute && commutative name then commuting name else positional tt
  | _ =>
      if negb (String.eqb (type ruleTok) (type exprTok)) then OK None
      else
        match ruleTok, exprTok with
        | TNum a, TNum b => OK (if math_eq a b then Some [] else None)
        | TString a _ _, TString b _ _ =>
            OK (if String.eqb a b then Some [] else None)
        | TBool a, TBool b => OK (if Bool.eqb a b then Some [] else None)
        | TRange _, _ => OK None
        | _, _ => OK (Some [])
        end
  end
  end.

End Matching.

(** * Rules and simplification ([Rule], [jme.display.simplifyTree]) *)

(** [s == false] for a string [s]: the text, without the white space
    around it, is empty or a numeric literal whose digits are all zero. *)
Definition is_js_space (c : ascii) : bool :=
  bool_decide (code c ∈ [9; 10; 11; 12; 13; 32; 160]%nat).

Definition all_zero (l : list ascii) : bool := forallb (Ascii.eqb "0") l.

Definition zero_radix_literal (l : list ascii) : bool :=
  match l with
  | "0"%char :: r :: ds =>
      bool_decide (r ∈ ["x"; "X"; "b"; "B"; "o"; "O"]%char)
      && negb (bool_decide (ds = [])) && all_zero ds
  | _ => false
  end.

Definition exponent_ok (l : list ascii) : bool :=
  match l with
  | [] => true
  | e :: l' =>
      (Ascii.eqb e "e" || Ascii.eqb e "E")
      && (let ds := match l' with
                    | s :: ds =>
                        if Ascii.eqb s "+" || Ascii.eqb s "-" then ds else l'
                    | [] => []
                    end in
          negb (bool_decide (ds = [])) && forallb is_digit ds)
  end.

Definition zero_decimal_literal (l : list ascii) : bool :=
  let l := match l with
           | s :: l' => if Ascii.eqb s "+" || Ascii.eqb s "-" then l' else l
           | [] => []
           end in
  let '(int, rest) := Tokeniser.span is_digit l in
  let '(frac, rest) :=
    match rest with
    | "."%char :: rest' => Tokeniser.span is_digit rest'
    | _ => ([], rest)
    end in
  negb (bool_decide (int ++ frac = []))
  && all_zero int && all_zero frac && exponent_ok rest.

Definition string_eq_false (s : string) : bool :=
  let l := list_ascii_of_string s in
  let l := rev (Tokeniser.span is_js_space
                  (rev (snd (Tokeniser.span is_js_space l)))).2 in
  bool_decide (l = []) || zero_radix_literal l || zero_decimal_literal l.

(** [tok.value==false], the test of [matchConditions] on the value of a
    condition.  (For the token types gathered in [TOther] the test is
    taken to fail.) *)
Definition value_eq_false (t : token) : bool :=
  match t with
  | TBool b => negb b
  | TNum (Rat q) => Qeq_bool q 0
  | TNum _ => false
  | TString s _ _ | TName s _ _ => string_eq_false s
  | TList _ (Some []) => true
  | TRange [] => true
  | TRange [q] => Qeq_bool q 0
  | _ => false
  end.

(** the truth value of [tok.value] in a conditional *)
Definition value_truthy (t : token) : bool :=
  match t with
  | TBool b => b
  | TNum (Rat q) => negb (Qeq_bool q 0)
  | TNum _ => true
  | TString s _ _ | TName s _ _ => negb (String.eqb s "")
  | TList _ (Some _) => true
  | TDict (Some _) => true
  | TRange _ => true
  | _ => false
  end.

(** A rule after compilation: the pattern, the result and the conditions
    as syntax trees.  The three source strings are left out. *)
Record Rule := {
  rule_tree : tree;
  rule_result : tree;
  rule_conditions : list tree
}.

Record Ruleset := {
  rules : list Rule;
  flags : gmap string bool
}.

(** [new jme.Scope([{variables: match}])] *)
Definition match_scope (m : captures) : Scope :=
  new_Scope None
    {| ex_variables := Some (map (fun '(name, t) => (name, VTree t)) m);
       ex_functions := None |}.

Section Rules.

Variable findvars : tree -> list string.

(** [jme.evaluate(tree,scope)], with the step bound of the evaluator
    fixed *)
Variable jme_evaluate : Scope -> tree -> result token.

(** [jme.display.treeToJME], which belongs to the rendering of trees *)
Variable treeToJME : tree -> string.

(** the step bound with which the matcher is run *)
Variable match_fuel : nat.

(** [Rule.prototype.matchConditions] *)
Fixpoint matchConditions (conditions : list tree) (m : captures)
    (scope : Scope) : result bool :=
  match conditions with
  | [] => OK true
  | c :: conditions' =>
      c ← substituteTree c (match_scope m) false;
      match jme_evaluate scope c with
      | OK r =>
          if value_eq_false r then OK false
          else matchConditions conditions' m scope
      | Err _ => OK false
      | Fuel => Fuel
      end
  end.

(** [Rule.prototype.match] *)
Definition Rule_match (r : Rule) (exprTree : tree) (scope : Scope)
  : result (option captures) :=
  m ← matchTree findvars match_fuel (rule_tree r) exprTree false;
  match m with
  | None => OK None
  | Some m =>
      ok ← matchConditions (rule_conditions r) m scope;
      OK (if ok : bool then Some m else None)
  end.

(** the loop [for(var i=0;i<rules.length;i++)] of [simplifyTree]: the
    first rule that matches, with its match *)
Fixpoint first_rule (rs : list Rule) (exprTree : tree) (scope : Scope)
  : result (option (Rule * captures)) :=
  match rs with
  | [] => OK None
  | r :: rs' =>
      m ← Rule_match r exprTree scope;
      match m with
      | Some m => OK (Some (r, m))
      | None => first_rule rs' exprTree scope
      end
  end.

Definition is_eval_call (t : tree) : bool := isFunction (tree_tok t) "eval".

(** The [while(applied)] loop of [simplifyTree], in a scope whose own
    variables have been removed.  A call of [simplifyTree] on an argument
    is this loop again with [depth] and [seen] reset.  [fuel] bounds the
    turns of the loop and the depth of the calls together. *)
Fixpoint simplify_loop (fuel : nat) (rs : list Rule) (scope : Scope)
    (exprTree : tree) (depth : nat) (seen : list string) : result tree :=
  match fuel with
  | O => Fuel
  | S fuel =>
      if is_eval_call exprTree then
        match tree_args exprTree with
        | Some (a :: _) =>
            k ← jme_evaluate scope a;
            simplify_loop fuel rs scope (leaf k) depth seen
        | _ => Err TypeError
        end
      else
        exprTree ←
          match exprTree with
          | Tree k b (Some args) =>
              args ← mapM (fun a => simplify_loop fuel rs
                                      (set_variables scope ∅) a 0%nat []) args;
              OK (Tree k b (Some args))
          | Tree _ _ None => OK exprTree
          end;
        applied ← first_rule rs exprTree scope;
        match applied with
        | None => OK exprTree
        | Some (r, m) =>
            exprTree ← substituteTree (rule_result r) (match_scope m) false;
            let depth := S depth in
            if (100 <? depth)%nat then
              let str := treeToJME exprTree in
              if bool_decide (str ∈ seen) then
                throw "jme.display.simplifyTree.stuck in a loop"
                      [("expr", AString str)]
              else simplify_loop fuel rs scope exprTree depth (seen ++ [str])
            else simplify_loop fuel rs scope exprTree depth seen
        end
  end.

(** [jme.display.simplifyTree(exprTree,ruleset,scope)] *)
Definition simplifyTree (fuel : nat) (exprTree : tree) (ruleset : Ruleset)
    (scope : Scope) : result tree :=
  simplify_loop fuel (rules ruleset) (set_variables scope ∅) exprTree 0%nat [].

End Rules.

(** * Dependency-ordered evaluation of variables ([jme.variables]) *)

(** An entry of the dictionary [todo]: the tree of the definition, which
    may be missing, and the names of the variables it uses. *)
Record definition := {
  def_tree : option tree;
  def_vars : list string
}.

Section Variables.

Variable findvars : tree -> list string.
Variable jme_evaluate : Scope -> tree -> result token.

Definition circular_reference (name : string) (path : list string) : error :=
  Error "jme.variables.circular reference"
        [("name", AString name); ("path", AStrings path)] None.

(** the [catch] around the computation of a dependency [x] *)
Definition rethrow_dependency {A} (x : string) (e : error) : result A :=
  match e with
  | Error msg _ _ =>
      if String.eqb msg "jme.variables.circular reference"
         || String.eqb msg "jme.variables.variable not defined"
      then Err e
      else Err (Error "jme.variables.error computing dependency"
                      [("name", AString x)] (Some e))
  | TypeError =>
      Err (Error "jme.variables.error computing dependency"
                 [("name", AString x)] (Some e))
  end.

(** the loop over [v.vars] of [computeVariable], with the procedure
    [computeFn] that computes a dependency *)
Definition dependencies
    (computeFn : string -> Scope -> list string -> result (option val * Scope))
    (name : string) (path : list string) : list string -> Scope -> result Scope :=
  fix dependencies (vars : list string) (scope : Scope) : result Scope :=
    match vars with
    | [] => OK scope
    | x :: vars' =>
        match variables scope !! x with
        | Some _ => dependencies vars' scope
        | None =>
            let newpath := name :: path in
            match computeFn x scope newpath with
            | OK (_, scope) => dependencies vars' scope
            | Err e => rethrow_dependency x e
            | Fuel => Fuel
            end
        end
    end.

(** [jme.variables.computeVariable(name,todo,scope,path)], with itself as
    the procedure [computeFn].  The scope is the object that the source
    updates in place; the result carries it along.  [fuel] bounds the depth
    of the calls; [S (length todo)] is always enough (see
    [computeVariable_not_Fuel]). *)
Fixpoint computeVariable (fuel : nat) (name : string)
    (todo : list (string * definition)) (scope : Scope) (path : list string)
  : result (option val * Scope) :=
  match fuel with
  | O => Fuel
  | S fuel =>
      match getVariable scope name with
      | Some _ => OK (variables scope !! name, scope)
      | None =>
          if bool_decide (name ∈ path) then Err (circular_reference name path)
          else
            match obj_get todo name with
            | None =>
                throw "jme.variables.variable not defined" [("name", AString name)]
            | Some v =>
                scope ←
                  dependencies
                    (fun x sc p => computeVariable fuel x todo sc p)
                    name path (def_vars v) scope;
                match def_tree v with
                | None =>
                    throw "jme.variables.empty definition" [("name", AString name)]
                | Some t =>
                    match jme_evaluate scope t with
                    | OK k =>
                        OK (Some (VTok k), write_variable scope name (VTok k))
                    | Err e =>
                        Err (Error "jme.variables.error evaluating variable"
                                   [("name", AString name)] (Some e))
                    | Fuel => Fuel
                    end
                end
            end
      end
  end.

(** the loop [for(var x in todo)] of [makeVariables] *)
Fixpoint compute_all (fuel : nat) (names : list string)
    (todo : list (string * definition)) (scope : Scope) : result Scope :=
  match names with
  | [] => OK scope
  | x :: names' =>
      '(_, scope) ← computeVariable fuel x todo scope [];
      compute_all fuel names' todo scope
  end.

(** [jme.variables.makeVariables(todo,scope,condition)]: the scope with
    the computed variables, and whether the condition was satisfied *)
Definition makeVariables (fuel : nat) (todo : list (string * definition))
    (scope : Scope) (condition : option tree) : result (Scope * bool) :=
  '(scope, conditionSatisfied) ←
    match condition with
    | Some c =>
        scope ← compute_all fuel (findvars c) todo scope;
        k ← jme_evaluate scope c;
        OK (scope, value_truthy k)
    | None => OK (scope, true)
    end;
  if conditionSatisfied : bool then
    scope ← compute_all fuel (map fst todo) todo scope;
    OK (scope, true)
  else OK (scope, false).

End Variables.

(** * The built-in [listval] on a list and a number *)

(** [util.wrapListIndex(n,size)] *)
Definition wrapListIndex (n : number) (size : nat) : number :=
  match n with
  | Rat q =>
      if Qlt_le_dec q 0 then Rat (q + inject_Z (Z.of_nat size)) else n
  | _ => n
  end.

(** [index in value] and [value[index]] for an array [value]: the index
    must be a whole number that is a position of the array *)
Definition array_get {A} (index : number) (value : list A) : option A :=
  match index with
  | Rat q =>
      let i := Qfloor q in
      if Qeq_bool q (inject_Z i) && (0 <=? i)%Z then value !! Z.to_nat i
      else None
  | _ => None
  end.

Definition number_arg (n : number) : errarg :=
  match n with
  | Rat q => ANumber q
  | ConstE => AString "e"
  | ConstPi => AString "pi"
  | ConstI => AString "i"
  | Infinity => AString "Infinity"
  end.

(** the [evaluate] procedure of [newBuiltin('listval',[TList,TNum],...)] *)
Definition listval (args : list token) : result token :=
  match args with
  | list :: TNum n :: _ =>
      let vars := match list with TList vars _ => vars | _ => 0%nat end in
      let index := wrapListIndex n vars in
      match list with
      | TList _ value =>
          match value with
          | Some value =>
              match array_get index value with
              | Some v => OK v
              | None =>
                  throw "jme.func.listval.invalid index"
                        [("index", number_arg index);
                         ("size", ANumber (inject_Z (Z.of_nat (length value))))]
              end
          | None => Err TypeError
          end
      | TName name _ _ =>
          throw "jme.variables.variable not defined" [("name", AString name)]
      | _ => throw "jme.func.listval.not a list" []
      end
  | _ => Err TypeError
  end.

(** the function record that [newBuiltin] makes of it *)
Definition listval_list_number (id : Z) : funcObj :=
  new_funcObj id "listval" ["list"; "number"] None (Native listval).

(** * Substitution and evaluation with the identity of objects

    The two functions [jme.substituteTree] and [Scope.prototype.evaluate]
    once more, this time on a store of objects, so that it can be told
    which node and which argument array an assignment
    [tree.args[i] = ...] changes. *)

Module Store.

Abbreviation loc := nat.

(** What an element of an argument array or a variable of a scope holds:
    a token, or a reference to a node. *)
Inductive ref :=
| RTok (t : token)
| RNode (l : loc).

(** The objects of the store: a node [{tok, args}] whose [args], when
    present, refers to an array, and an array. *)
Inductive object :=
| ONode (tok : token) (bound : bool) (args : option loc)
| OArray (elems : list ref).

(** The store: the objects in the order of their creation; a location is
    a position in this list. *)
Abbreviation heap := (list object).

(** creation of an object *)
Definition alloc (o : object) (h : heap) : loc * heap := (length h, h ++ [o]).

Abbreviation Scope := (ScopeOf ref).

(** [a[i] = r] for the array at [a] *)
Definition array_write (a : loc) (i : nat) (r : ref) (h : heap) : heap :=
  match h !! a with
  | Some (OArray elems) => <[a := OArray (<[i := r]> elems)]> h
  | _ => h
  end.

Definition array_read (a : loc) (h : heap) : option (list ref) :=
  match h !! a with
  | Some (OArray elems) => Some elems
  | _ => None
  end.

(** the positions of the argument array in which [substituteTree]
    substitutes: those the entry of [substituteTreeOps] names, or all *)
Definition substituted_positions (k : token) (n : nat) : list nat :=
  let name := default "" (tok_name k) in
  if negb (is_call k) then seq 0 n
  else if String.eqb name "isset" || String.eqb name "apply" then []
  else if String.eqb name "map" || String.eqb name "filter" then [2%nat]
  else if String.eqb name "let" then
    filter (fun i => Nat.odd i && (S i <? n)%nat = true) (seq 0 n)
  else seq 0 n.

(** the loop of [substituteTree] over the positions [ps] of the copy [a']
    of the argument array; [sub] is [substituteTree] itself *)
Definition substitute_args (sub : loc -> heap -> result loc * heap) (a' : loc)
  : list nat -> heap -> result unit * heap :=
  fix loop (ps : list nat) (h : heap) : result unit * heap :=
    match ps with
    | [] => (OK tt, h)
    | i :: ps' =>
        match array_read a' h with
        | Some elems =>
            match elems !! i with
            | Some (RNode c) =>
                let '(r, h) := sub c h in
                match r with
                | OK c' => loop ps' (array_write a' i (RNode c') h)
                | Err e => (Err e, h)
                | Fuel => (Fuel, h)
                end
            | _ => (Err TypeError, h)
            end
        | None => (Err TypeError, h)
        end
    end.

(** The arguments in the array at [a], evaluated from left to right by
    [ev], from position [i] on and [n] of them.  With [store] set, each
    result is stored in the array:
    [tree.args[i] = jme.evaluate(tree.args[i],scope)]. *)
Definition evaluated (ev : loc -> heap -> result token * heap) (store : bool)
    (a : loc) : nat -> nat -> heap -> result (list token) * heap :=
  fix loop (i : nat) (n : nat) (h : heap) : result (list token) * heap :=
    match n with
    | O => (OK [], h)
    | S n' =>
        match array_read a h with
        | Some elems =>
            match elems !! i with
            | Some (RNode c) =>
                let '(r, h) := ev c h in
                match r with
                | OK v =>
                    let h := if store then array_write a i (RTok v) h else h in
                    let '(r, h) := loop (S i) n' h in
                    (vs ← r; OK (v :: vs), h)
                | Err e => (Err e, h)
                | Fuel => (Fuel, h)
                end
            | _ => (Err TypeError, h)
            end
        | None => (Err TypeError, h)
        end
    end.

(** the loop over the key pairs of a dictionary that has no value yet *)
Definition entries (ev : loc -> heap -> result token * heap)
  : list ref -> list (string * token) -> heap -> result token * heap :=
  fix entries (kps : list ref) (value : list (string * token)) (h : heap)
    : result token * heap :=
    match kps with
    | [] => (OK (TDict (Some value)), h)
    | RNode kp :: kps' =>
        match h !! kp with
        | Some (ONode (TKeyPair key) _ (Some ka)) =>
            match array_read ka h with
            | Some (RNode c :: _) =>
                let '(r, h) := ev c h in
                match r with
                | OK v => entries kps' (dict_set value key v) h
                | Err e => (Err e, h)
                | Fuel => (Fuel, h)
                end
            | _ => (Err TypeError, h)
            end
        | _ => (Err TypeError, h)
        end
    | RTok _ :: _ => (Err TypeError, h)
    end.

Section Evaluate.

(** the code of the [Scoped] procedures, on the store *)
Variable scoped :
  string -> (Scope -> loc -> heap -> result token * heap) ->
  list ref -> Scope -> heap -> result token * heap.

Variable contentsubvars : string -> Scope -> result string.

(** [jme.substituteTree(tree,scope,allowUnbound)] for the node at [l] *)
Fixpoint substituteTree (fuel : nat) (scope : Scope) (allowUnbound : bool)
    (l : loc) (h : heap) : result loc * heap :=
  match fuel with
  | O => (Fuel, h)
  | S fuel =>
      match h !! l with
      | Some (ONode k bound args) =>
          if bound then (OK l, h)
          else
            match args with
            | None =>
                match k with
                | TName name _ _ =>
                    let name := toLowerCase name in
                    match getVariable scope name with
                    | None =>
                        if allowUnbound then
                          let '(l', h) := alloc (ONode (TName name None false) false None) h in
                          (OK l', h)
                        else (throw "jme.substituteTree.undefined variable"
                                    [("name", AString name)], h)
                    | Some (RNode v) => (OK v, h)
                    | Some (RTok v) =>
                        let '(l', h) := alloc (ONode v false None) h in
                        (OK l', h)
                    end
                | _ => (OK l, h)
                end
            | Some a =>
                match array_read a h with
                | Some elems =>
                    (* tree = {tok: tree.tok, args: tree.args.slice()} *)
                    let '(a', h) := alloc (OArray elems) h in
                    let '(l', h) := alloc (ONode k false (Some a')) h in
                    let '(r, h) :=
                      substitute_args (substituteTree fuel scope allowUnbound) a'
                        (substituted_positions k (length elems)) h in
                    match r with
                    | OK _ => (OK l', h)
                    | Err e => (Err e, h)
                    | Fuel => (Fuel, h)
                    end
                | None => (Err TypeError, h)
                end
            end
      | _ => (Err TypeError, h)
      end
  end.

(** the tokens of an array that holds nothing else *)
Definition tokens_of (elems : list ref) : option (list token) :=
  mapM (M := option)
       (fun r => match r with RTok t => Some t | RNode _ => None end) elems.

(** [fn.evaluate(args,scope)] *)
Definition call (ev : Scope -> loc -> heap -> result token * heap)
    (fn : funcObj) (args : list ref) (scope : Scope) (h : heap)
  : result token * heap :=
  match fo_evaluate fn with
  | Native f =>
      match tokens_of args with
      | Some vs => (f vs, h)
      | None => (Err TypeError, h)
      end
  | Scoped key => scoped key ev args scope h
  end.

(** The body of [Scope.prototype.evaluate] for the node at [l], from the
    call of [substituteTree] on. *)
Fixpoint evaluate (fuel : nat) (scope : Scope) (l : loc) (h : heap)
  : result token * heap :=
  match fuel with
  | O => (Fuel, h)
  | S fuel =>
      let '(r, h) := substituteTree (S fuel) scope true l h in
      match r with
      | Err e => (Err e, h)
      | Fuel => (Fuel, h)
      | OK l =>
          match h !! l with
          | Some (ONode k _ args) =>
              let evaluated (store : bool) (a : loc) (n : nat) :=
                evaluated (evaluate fuel scope) store a 0%nat n h in
              let arity (a : loc) : nat :=
                length (default [] (array_read a h)) in
              match k with
              | TNum _ | TBool _ | TRange _ => (OK k, h)
              | TList _ None =>
                  match args with
                  | Some a =>
                      let '(r, h) := evaluated false a (arity a) in
                      (value ← r; OK (TList_of value), h)
                  | None => (Err TypeError, h)
                  end
              | TList _ (Some _) => (OK k, h)
              | TDict None =>
                  match args with
                  | Some a =>
                      entries (evaluate fuel scope) (default [] (array_read a h)) [] h
                  | None => (Err TypeError, h)
                  end
              | TDict (Some _) => (OK k, h)
              | TString value safe latex =>
                  if negb safe && contains_brace value then
                    (value ← contentsubvars value scope;
                     OK (TString value false latex), h)
                  else (OK k, h)
              | TName name _ _ =>
                  match getVariable scope (toLowerCase name) with
                  | Some (RTok v) => (OK v, h)
                  | Some (RNode _) => (Err TypeError, h)
                  | None => (OK (TName name None true), h)
                  end
              | TOp name _ _ | TFunc name _ =>
                  let op := toLowerCase name in
                  if bool_decide (op ∈ lazyOps) then
                    match args, fst (getFunction scope op) with
                    | Some a, fn :: _ =>
                        call (evaluate fuel) fn (default [] (array_read a h)) scope h
                    | _, _ => (Err TypeError, h)
                    end
                  else
                    match args with
                    | None => (Err TypeError, h)
                    | Some a =>
                        (* tree.args[i] = jme.evaluate(tree.args[i],scope) *)
                        let '(r, h) := evaluated true a (arity a) in
                        match r with
                        | Err e => (Err e, h)
                        | Fuel => (Fuel, h)
                        | OK vs =>
                            let fns := fst (getFunction scope op) in
                            match fns with
                            | [] => (not_defined scope k op, h)
                            | _ :: _ =>
                                match List.find (fun fn => fo_typecheck fn vs) fns with
                                | Some matchedFunction =>
                                    call (evaluate fuel) matchedFunction
                                         (default [] (array_read a h)) scope h
                                | None => (no_right_type vs op, h)
                                end
                            end
                        end
                    end
              | _ => (OK k, h)
              end
          | _ => (Err TypeError, h)
          end
      end
  end.

End Evaluate.

(** ** Properties of stores, and the stores of the examples *)

(** no node of the store has a token marked [bound] *)
Definition no_bound (h : heap) : Prop :=
  forall l k b args, h !! l = Some (ONode k b args) -> b = false.

(** the variables that the scope and its ancestors give are tokens *)
Definition tokens_only (scope : Scope) : Prop :=
  forall x v, getVariable scope x = Some v -> exists t, v = RTok t.

(** [h'] has every object of [h] as it is in [h], but for the one at [a]
    when [a] is given; it may have more objects. *)
Definition unchanged_but (a : option loc) (h h' : heap) : Prop :=
  (length h <= length h')%nat
  /\ no_bound h'
  /\ forall l, (l < length h)%nat -> Some l <> a -> h' !! l = h !! l.

Abbreviation extends := (unchanged_but None).

(** a new array or a new node that is not [bound] *)
Definition fresh_object (o : object) : Prop :=
  match o with ONode _ b _ => b = false | OArray _ => True end.

(** The node that [substituteTree] returns: one without arguments, or one
    whose argument array was made during the call. *)
Definition returned_node (h h' : heap) (l' : loc) : Prop :=
  exists k args,
    h' !! l' = Some (ONode k false args)
    /\ forall a, args = Some a -> (length h <= a)%nat.

(** the two numbers, the argument array and the node of the sum, at the
    locations 0 to 3 *)
Definition one_plus_two : heap :=
  [ONode (TNum (Rat 1)) false None;
   ONode (TNum (Rat 2)) false None;
   OArray [RNode 0%nat; RNode 1%nat];
   ONode (TOp "+" false false) false (Some 2%nat)].

(** the sum of two rational numbers, as a primitive *)
Definition add (args : list token) : result token :=
  match args with
  | [TNum (Rat a); TNum (Rat b)] => OK (TNum (Rat (Qred (a + b))))
  | _ => Err TypeError
  end.

(** a scope with the addition of two numbers *)
Definition arithmetic : Scope :=
  addFunction empty_scope (new_funcObj 1 "+" ["number"; "number"] None (Native add)).

(** no procedure that works on trees, and strings without braces *)
Definition no_scoped (key : string)
    (ev : Scope -> loc -> heap -> result token * heap)
    (args : list ref) (scope : Scope) (h : heap) : result token * heap :=
  (Err TypeError, h).

Definition no_contentsubvars (s : string) (scope : Scope) : result string :=
  OK s.

(** the store after the evaluation of the node at 3: the copy of the
    argument array, which holds the two results, and the copy of the node *)
Definition one_plus_two_evaluated : heap :=
  one_plus_two
  ++ [OArray [RTok (TNum (Rat 1)); RTok (TNum (Rat 2))];
      ONode (TOp "+" false false) false (Some 4%nat)].

(** the store of the sum with the name [t], at location 4 *)
Definition name_of_the_sum : heap :=
  one_plus_two ++ [ONode (TName "t" None false) false None].

(** the scope in which the variable [t] holds the node of the sum *)
Definition sum_in_scope : Scope :=
  write_variable arithmetic "t" (RNode 3%nat).

End Store.

(** * Properties and examples

    The vocabulary of the statements that follow, and the trees, scopes
    and stores of the examples. *)

(** ** Function records along a scope chain *)

Definition id_le (a b : funcObj) : Prop := (fo_id a <= fo_id b)%Z.
Definition id_lt (a b : funcObj) : Prop := (fo_id a < fo_id b)%Z.

(** in increasing order of identifiers, and without a repeated one *)
Definition increasing (l : list funcObj) : Prop := StronglySorted id_lt l.

(** [r] is drawn from [l] and has a record for every identifier of [l] *)
Definition covers (r l : list funcObj) : Prop :=
  (forall f, f ∈ r -> f ∈ l)
  /\ (forall g, g ∈ l -> exists f, f ∈ r /\ fo_id f = fo_id g).

(** the lists stored under [name] along the chain of a scope, that of the
    scope itself first *)
Fixpoint chain_lists {V} (s : ScopeOf V) (name : string) : list (list funcObj) :=
  match functions s !! name with Some l => [l] | None => [] end
  ++ match parent s with Some p => chain_lists p name | None => [] end.

(** the lists of [ls] from the first one on that holds a record *)
Fixpoint from_first_record (ls : list (list funcObj)) : list (list funcObj) :=
  match ls with
  | [] :: ls' => from_first_record ls'
  | _ => ls
  end.

(** identifiers name records *)
Definition unique_ids (l : list funcObj) : Prop :=
  forall f g, f ∈ l -> g ∈ l -> fo_id f = fo_id g -> f = g.

(** ** Neighbouring tokens *)

(** The pairs of neighbouring tokens that the three tests of [tokenise]
    separate by a multiplication sign: a number after [)] or a name; a name
    after a number, a name or [)]; a left parenthesis after a number or
    [)]. *)
Definition implicit_pair (a b : token) : bool :=
  (String.eqb (type b) "number" && bool_decide (type a ∈ [")"; "name"]))
  || (String.eqb (type b) "name" && bool_decide (type a ∈ ["number"; "name"; ")"]))
  || (String.eqb (type b) "(" && bool_decide (type a ∈ ["number"; ")"])).

(** The pairs named by the specification: a number, name or [)] followed by
    a number, a name or [(]. *)
Definition specified_pair (a b : token) : bool :=
  bool_decide (type a ∈ ["number"; "name"; ")"])
  && bool_decide (type b ∈ ["number"; "name"; "("]).

(** No two neighbours of [l] form a pair of [P]. *)
Definition separated (P : token -> token -> bool) (l : list token) : Prop :=
  forall i a b, l !! i = Some a -> l !! S i = Some b -> P a b = false.

(** ** Indexing *)

(** the index that [listval] looks up: the given one, or the given one
    plus the length when it is negative *)
Definition wrapped (i : Z) (n : nat) : Z := if (i <? 0)%Z then i + Z.of_nat n else i.

(** the call [listval(l,i)], which is what [l[i]] is read as *)
Definition listval_call (l : list token) (i : Z) : tree :=
  node (TFunc "listval" None) [leaf (TList_of l); leaf (TNum (Rat (inject_Z i)))].

(** ** Calls *)

(** the name of an operator or function token *)
Definition call_name (k : token) : option string :=
  match k with
  | TOp name _ _ | TFunc name _ => Some name
  | _ => None
  end.

(** Two records of [f] that accept one argument of any type:
    [first_made] has the smaller identifier, [second_made] is the first to
    be added to the scope [two_definitions]. *)
Definition first_made : funcObj :=
  new_funcObj 2 "f" ["?"] None (Native (fun _ => OK (TNum (Rat (inject_Z 2))))).
Definition second_made : funcObj :=
  new_funcObj 5 "f" ["?"] None (Native (fun _ => OK (TNum (Rat (inject_Z 5))))).

Definition two_definitions : Scope :=
  addFunction (addFunction empty_scope second_made) first_made.

(** the call [f(1)] *)
Definition f_of_one : tree :=
  node (TFunc "f" None) [leaf (TNum (Rat (inject_Z 1)))].

(** no procedure that works on trees, and strings without braces *)
Definition no_scoped (key : string) (ev : Scope -> tree -> result token)
    (args : list val) (scope : Scope) : result token :=
  Err TypeError.
Definition no_contentsubvars (s : string) (scope : Scope) : result string :=
  OK s.

(** the evaluator with no scoped procedure and a step bound of 5 *)
Definition small_evaluate : Scope -> tree -> result token :=
  evaluate no_scoped no_contentsubvars 5.

(** Two records of [f], for a number and for a string.  [inner] is a scope
    inside the scope of [number_only]; [inner_resolved] is [inner] after
    [getFunction] has been asked for [f]; [inner_extended] is that scope
    after [string_only] has been added to it. *)
Definition number_only : funcObj :=
  new_funcObj 2 "f" ["number"] None (Native (fun _ => OK (TNum (Rat (inject_Z 2))))).
Definition string_only : funcObj :=
  new_funcObj 5 "f" ["string"] None (Native (fun _ => OK (TNum (Rat (inject_Z 5))))).

Definition inner : Scope :=
  new_Scope (Some (addFunction empty_scope number_only)) no_extras.
Definition inner_resolved : Scope := snd (getFunction inner "f").
Definition inner_extended : Scope := addFunction inner_resolved string_only.

(** the call [f("s")] *)
Definition f_of_text : tree :=
  node (TFunc "f" None) [leaf (TString "s" false false)].

(** ** Patterns *)

(** Trees used in the examples *)
Definition binary (op : string) (a b : tree) : tree :=
  node (TOp op false false) [a; b].
Definition variable (x : string) : tree := leaf (TName x None false).
Definition numeral (n : Z) : tree := leaf (TNum (Rat (inject_Z n))).

(** [findvars] is read by [m_uses] only; the examples do not use it. *)
Definition no_findvars : tree -> list string := fun _ => [].

(** the pattern [? + m_number] *)
Definition anything_plus_number : tree :=
  binary "+" (variable "?") (variable "m_number").

(** ** Rules *)

(** A condition holds for a match: with the matched subtrees put in, it
    evaluates to a value that is not loosely equal to [false]. *)
Definition condition_holds (jme_evaluate : Scope -> tree -> result token)
    (m : captures) (scope : Scope) (c : tree) : Prop :=
  exists c' v,
    substituteTree c (match_scope m) false = OK c'
    /\ jme_evaluate scope c' = OK v
    /\ value_eq_false v = false.

(** No rule of [rs] matches any node of the tree, and no node is a call of
    [eval]. *)
Inductive normal (findvars : tree -> list string)
    (jme_evaluate : Scope -> tree -> result token) (match_fuel : nat)
    (rs : list Rule) (scope : Scope) : tree -> Prop :=
| normal_node k b args :
    isFunction k "eval" = false ->
    (forall l, args = Some l -> Forall (normal findvars jme_evaluate match_fuel rs scope) l) ->
    Forall (fun r => Rule_match findvars jme_evaluate match_fuel r
                       (Tree k b args) scope = OK None) rs ->
    normal findvars jme_evaluate match_fuel rs scope (Tree k b args).

(** A rule that takes any expression, on the condition ["0"] *)
Definition zero_string_rule : Rule :=
  {| rule_tree := variable "?";
     rule_result := variable "?";
     rule_conditions := [leaf (TString "0" false false)] |}.

(** A rule whose condition calls a function that is not defined *)
Definition failing_condition_rule : Rule :=
  {| rule_tree := variable "?";
     rule_result := variable "?";
     rule_conditions := [node (TFunc "nosuchfunction" None) []] |}.

(** The rule [?;x + 0 -> x] *)
Definition plus_zero_rule : Rule :=
  {| rule_tree :=
       binary "+" (binary ";" (variable "?") (variable "x")) (numeral 0);
     rule_result := variable "x";
     rule_conditions := [] |}.

(** the ruleset of that rule alone, and a rendering that is never read *)
Definition plus_zero_ruleset : Ruleset :=
  {| rules := [plus_zero_rule]; flags := ∅ |}.

Definition no_treeToJME : tree -> string := fun _ => "".

(** ** Variables *)

(** [n] is wanted by the first name of [p], which is wanted by the second,
    and so on: [p] lists the variables that are being computed, the latest
    first. *)
Fixpoint in_progress (todo : list (string * definition)) (n : string)
    (p : list string) : Prop :=
  match p with
  | [] => True
  | x :: p' =>
      (exists v, obj_get todo x = Some v /\ n ∈ def_vars v)
      /\ in_progress todo x p'
  end.

(** no name of [cycle] has a value in the scope *)
Definition unbound_in (cycle : string -> Prop) (scope : Scope) : Prop :=
  forall x, cycle x -> getVariable scope x = None /\ variables scope !! x = None.

(** [e] is the circular-reference error for a name on a path of names in
    progress that ends with [path] *)
Definition reports (todo : list (string * definition)) (path : list string)
    (e : error) : Prop :=
  exists n p,
    e = circular_reference n p /\ n ∈ p /\ in_progress todo n p
    /\ path `suffix_of` p.

(** a definition with the tree [t], which uses the names [vars] *)
Definition uses (t : tree) (vars : list string) : definition :=
  {| def_tree := Some t; def_vars := vars |}.

(** [{a: b, b: a}] *)
Definition a_and_b : list (string * definition) :=
  [("a", uses (variable "b") ["b"]); ("b", uses (variable "a") ["a"])].

(** an evaluation that returns [0] for every tree *)
Definition always_zero : Scope -> tree -> result token :=
  fun _ _ => OK (TNum (Rat 0)).

(** the names of the cycle of [a_and_b] *)
Definition a_or_b (x : string) : Prop := x = "a" \/ x = "b".

(** the names of the variables of the scope itself are in lower case *)
Definition folded {V} (scope : ScopeOf V) : Prop :=
  forall x, is_Some (variables scope !! x) -> toLowerCase x = x.

(** [{A: 1, a: 2}] *)
Definition upper_and_lower : list (string * definition) :=
  [("A", uses (numeral 1) []); ("a", uses (numeral 2) [])].

(** the scope in which [scope.evaluate(expr,{X: 1, x: 2})] works *)
Definition given_X_and_x : Scope :=
  evaluate_scope empty_scope
    (Some [("X", JNumber (Rat 1)); ("x", JNumber (Rat 2))]).


(** * More of [jme.Scope]: [collect], [allVariables], [allFunctions],
      [flatten] *)

Section ScopeCollect.
Context {V : Type}.

(** The body of the inner loop of [collect]:
    [if(!deleted[name]) out[name] = out[name] || scope[collection][name]].
    A stored value is an object, so [out[name]] is kept when it is there. *)
Definition collect_name (deleted : gset string) (name : string) (v : V)
    (out : gmap string V) : gmap string V :=
  if bool_decide (name ∈ deleted) then out
  else
    match out !! name with
    | Some _ => out
    | None => <[name := v]> out
    end.

(** The [while(scope)] loop of [Scope.prototype.collect] for the collection
    [variables], from the scope [s] on, with the names [deleted] and the
    dictionary [out] gathered so far. *)
Fixpoint collect_loop (s : ScopeOf V) (deleted : gset string)
    (out : gmap string V) : gmap string V :=
  let deleted := deleted_variables s ∪ deleted in
  let out := map_fold (collect_name deleted) out (variables s) in
  match parent s with
  | Some p => collect_loop p deleted out
  | None => out
  end.

(** [Scope.prototype.allVariables] *)
Definition allVariables (s : ScopeOf V) : gmap string V := collect_loop s ∅ ∅.

(** [Scope.prototype.flatten], on the variables *)
Definition flatten (s : ScopeOf V) : ScopeOf V := set_variables s (allVariables s).

(** [add(name,fns)] of [allFunctions] *)
Definition allFunctions_add (name : string) (fns : list funcObj)
    (out : gmap string (list funcObj)) : gmap string (list funcObj) :=
  <[name := merge (default [] (out !! name)) fns]> out.

(** The [while(scope)] loop of [Scope.prototype.allFunctions].  [scope] is
    the variable of the loop, [None] when it holds no scope; the body does
    not assign to it. *)
Fixpoint allFunctions_loop (fuel : nat) (scope : option (ScopeOf V))
    (out : gmap string (list funcObj)) : result (gmap string (list funcObj)) :=
  match fuel with
  | O => Fuel
  | S fuel =>
      match scope with
      | None => OK out
      | Some s =>
          allFunctions_loop fuel scope
            (map_fold allFunctions_add out (functions s))
      end
  end.

(** [Scope.prototype.allFunctions] *)
Definition allFunctions (fuel : nat) (s : ScopeOf V)
  : result (gmap string (list funcObj)) :=
  allFunctions_loop fuel (Some s) ∅.

(** A call of one of the methods that change a scope *)
Inductive update :=
| SetVariable (name : string) (value : V)
| WriteVariable (name : string) (value : V)
| AddFunction (fn : funcObj)
| DeleteVariable (name : string).

Definition apply_update (s : ScopeOf V) (u : update) : ScopeOf V :=
  match u with
  | SetVariable name value => setVariable s name value
  | WriteVariable name value => write_variable s name value
  | AddFunction fn => addFunction s fn
  | DeleteVariable name => deleteVariable s name
  end.

(** the last value given for [name] in [vs], names compared in lower case *)
Definition last_given (vs : list (string * V)) (name : string) : option V :=
  snd <$> last (filter (fun p => toLowerCase (fst p) = name) vs).

End ScopeCollect.

(** * Signatures of function records *)

(** a slot of a signature that begins with the star *)
Definition starred (slot : string) : bool :=
  match slot with
  | String "*"%char _ => true
  | _ => false
  end.

(** slot by slot, the argument has the type of the slot, or one of the two
    is the type [?] *)
Definition accepted_by (intype : list string) (variables : list token) : Prop :=
  Forall2 (fun slot v => slot_accepts slot v = true) intype variables.

(** * More of the matcher: [matchAllTree] *)

Section MatchAll.
Variable findvars : tree -> list string.

(** [jme.rules.matchAllTree(ruleTree,exprTree,doCommute)]: the matches of
    the pattern at the node and then in each of its arguments.  [fuel] is
    the step bound of every call of [matchTree]. *)
Fixpoint matchAllTree (fuel : nat) (ruleTree exprTree : tree)
    (doCommute : bool) : result (list captures) :=
  m ← matchTree findvars fuel ruleTree exprTree doCommute;
  let matches := match m with Some m => [m] | None => [] end in
  let 'Tree _ _ args := exprTree in
  match args with
  | Some args =>
      (fix forEach (args : list tree) (matches : list captures)
         : result (list captures) :=
         match args with
         | [] => OK matches
         | arg :: args' =>
             submatches ← matchAllTree fuel ruleTree arg doCommute;
             forEach args' (matches ++ submatches)
         end) args matches
  | None => OK matches
  end.

End MatchAll.

(** the nodes of a tree, each before its arguments, the arguments from
    left to right *)
Fixpoint preorder (t : tree) : list tree :=
  let 'Tree _ _ args := t in
  t :: match args with
       | Some args => flat_map preorder args
       | None => []
       end.

(** [t] is [e] or a node below [e] *)
Inductive subtree (t : tree) : tree -> Prop :=
| subtree_here : subtree t t
| subtree_below k b args a :
    a ∈ args -> subtree t a -> subtree t (Tree k b (Some args)).

(** no node of the pattern is a call of [m_commute] *)
Fixpoint positional_only (t : tree) : bool :=
  let 'Tree k _ args := t in
  negb (isFunction k "m_commute")
  && match args with
     | Some args => forallb positional_only args
     | None => true
     end.

(** every tree that the match holds is a node of [e] *)
Definition captured_from (m : captures) (e : tree) : Prop :=
  forall name t, (name, t) ∈ m -> subtree t e.

(** * Scopes before and after the computation of variables *)

(** [x] has a value in the scope: one that [getVariable] finds, or a
    variable of the scope itself *)
Definition has_value (s : Scope) (x : string) : Prop :=
  is_Some (getVariable s x) \/ is_Some (variables s !! x).

(** [s'] is [s] with more variables: what [getVariable] found in [s] it
    finds in [s'], a variable of [s] itself is one of [s'], and the deleted
    names, the parent and the functions are the same *)
Definition keeps (s s' : Scope) : Prop :=
  (forall y v, getVariable s y = Some v -> getVariable s' y = Some v)
  /\ (forall y, is_Some (variables s !! y) -> is_Some (variables s' !! y))
  /\ deleted_variables s' = deleted_variables s
  /\ parent s' = parent s
  /\ functions s' = functions s.

(** [{a: b, b: 1}], and the scope after both are computed by an evaluation
    that returns [0] for every tree *)
Definition a_needs_b : list (string * definition) :=
  [("a", uses (variable "b") ["b"]); ("b", uses (numeral 1) [])].

Definition a_and_b_computed : Scope :=
  write_variable (write_variable empty_scope "b" (VTok (TNum (Rat 0))))
                 "a" (VTok (TNum (Rat 0))).

(** The errors with which the computation of the variable [name] can end:
    a circular reference or a variable without a definition, found at any
    depth and passed on as it is; no tree in the definition of [name]; an
    error [cause] raised by the evaluation of its tree; and an error
    [cause] with which the computation of [x], a variable that the
    definition of [name] uses, ended. *)
Inductive fails (todo : list (string * definition)) : string -> error -> Prop :=
| fails_circular name n p :
    fails todo name
      (Error "jme.variables.circular reference"
             [("name", AString n); ("path", AStrings p)] None)
| fails_undefined name n :
    fails todo name
      (Error "jme.variables.variable not defined" [("name", AString n)] None)
| fails_empty name :
    fails todo name
      (Error "jme.variables.empty definition" [("name", AString name)] None)
| fails_evaluating name cause :
    fails todo name
      (Error "jme.variables.error evaluating variable"
             [("name", AString name)] (Some cause))
| fails_dependency name v x cause :
    obj_get todo name = Some v -> x ∈ def_vars v -> fails todo x cause ->
    fails todo name
      (Error "jme.variables.error computing dependency"
             [("name", AString x)] (Some cause)).

(** [{a: b, b: }]: the definition of [b] has no tree *)
Definition a_needs_empty_b : list (string * definition) :=
  [("a", uses (variable "b") ["b"]);
   ("b", {| def_tree := None; def_vars := [] |})].

(** * Trees by height *)

(** the number of nodes on the longest way from the root to a leaf *)
Fixpoint height (t : tree) : nat :=
  let 'Tree _ _ args := t in
  S (match args with
     | Some args => foldr (fun a n => Nat.max (height a) n) 0%nat args
     | None => 0%nat
     end).

(** * Texts and errors of the tokeniser *)

(** a character that stands for itself between double quotes: not the
    double quote, not the backslash, not U+0001 *)
Definition plain_char (c : ascii) : bool :=
  negb (Ascii.eqb c Tokeniser.dq) && negb (Ascii.eqb c "\")
  && negb (code c =? 1)%nat.

(** the text between double quotes *)
Definition quoted (s : list ascii) : string :=
  Tokeniser.str (Tokeniser.dq :: s ++ [Tokeniser.dq]).

(** the errors of [tokenise] on the text [s]: the text is not an
    expression; a colon stands first; a colon follows a token that is no
    string *)
Inductive tokenise_error (s : string) : error -> Prop :=
| invalid_expression :
    tokenise_error s (Error "jme.tokenise.invalid" [("expression", AString s)] None)
| colon_first : tokenise_error s TypeError
| key_not_a_string ty :
    tokenise_error s (Error "jme.tokenise.keypair key not a string"
                            [("type", AString ty)] None).

(** * Scopes of evaluated values *)

(** every variable that the scope resolves holds a token, and not a name:
    the state of a scope whose variables were computed by evaluation *)
Definition holds_values (scope : Scope) : Prop :=
  forall x v, getVariable scope x = Some v ->
    exists k, v = VTok k /\ (forall n a u, k <> TName n a u).

(** another [substituteTree] returns the tree that the first returned *)
Definition settled_by_substitution (scope : Scope) (allowUnbound : bool)
    (a : tree) : Prop :=
  forall a', substituteTree a scope allowUnbound = OK a' ->
             substituteTree a' scope allowUnbound = OK a'.

(** * Equality of tokens and the list utilities built on it
    ([util.eq], [util.contains], [util.distinct], [util.except]) *)

Module Util.

(** the keys of [util.equalityTests] *)
Definition equalityTests : list string :=
  ["number"; "vector"; "matrix"; "list"; "set"; "range"; "name"; "string";
   "boolean"; "dict"].

(** [x==y] for two entries of a range that may be missing *)
Definition entry_eq (x y : option Q) : bool :=
  match x, y with
  | Some p, Some q => Qeq_bool p q
  | None, None => true
  | _, _ => false
  end.

Section Eq.

(** The tests of the types gathered in [TOther] - vectors, matrices and
    sets - which belong to [vectormath], [matrixmath] and [setmath]. *)
Variable other_eq : token -> token -> result bool.

(** [util.eq(a,b)].  The test of two lists calls itself on every pair of
    entries; the test of two dictionaries returns [false] at once, because
    the array that [filter] returns counts as true. *)
Fixpoint eq (a b : token) : result bool :=
  if negb (String.eqb (type a) (type b)) then OK false
  else if negb (bool_decide (type a ∈ equalityTests)) then
    throw "util.equality not defined for type" [("type", AString (type a))]
  else
    match a, b with
    | TNum x, TNum y => OK (math_eq x y)
    | TList _ (Some avalue), TList _ (Some bvalue) =>
        if (length avalue =? length bvalue)%nat then
          differ ←
            (fix filter (avalue bvalue : list token) : result (list bool) :=
               match avalue, bvalue with
               | ae :: avalue', be :: bvalue' =>
                   r ← eq ae be;
                   rs ← filter avalue' bvalue';
                   OK (negb r :: rs)
               | _, _ => OK []
               end) avalue bvalue;
          OK (forallb negb differ)
        else OK false
    | TList _ _, TList _ _ => Err TypeError
    | TRange avalue, TRange bvalue =>
        OK (entry_eq (avalue !! 0%nat) (bvalue !! 0%nat)
            && entry_eq (avalue !! 1%nat) (bvalue !! 1%nat)
            && entry_eq (avalue !! 2%nat) (bvalue !! 2%nat))
    | TName x _ _, TName y _ _ => OK (String.eqb x y)
    | TString x _ _, TString y _ _ => OK (String.eqb x y)
    | TBool x, TBool y => OK (Bool.eqb x y)
    | TDict (Some _), TDict (Some _) => OK false
    | TDict _, TDict _ => Err TypeError
    | _, _ => other_eq a b
    end.

(** [util.neq(a,b)] *)
Definition neq (a b : token) : result bool := r ← eq a b; OK (negb r).

(** [util.contains(list,value)] *)
Fixpoint contains (arr : list token) (value : token) : result bool :=
  match arr with
  | [] => OK false
  | x :: arr' =>
      r ← eq value x;
      if r : bool then OK true else contains arr' value
  end.

(** [util.except(list,exclude)] *)
Fixpoint except (arr exclude : list token) : result (list token) :=
  match arr with
  | [] => OK []
  | l :: arr' =>
      excluded ←
        (fix loop (exclude : list token) : result bool :=
           match exclude with
           | [] => OK false
           | e :: exclude' =>
               r ← eq l e;
               if r : bool then OK true else loop exclude'
           end) exclude;
      rest ← except arr' exclude;
      OK (if excluded : bool then rest else l :: rest)
  end.

(** the loop [for(var i=1;i<list.length;i++)] of [distinct] *)
Fixpoint distinct_loop (arr out : list token) : result (list token) :=
  match arr with
  | [] => OK out
  | x :: arr' =>
      got ←
        (fix loop (out : list token) : result bool :=
           match out with
           | [] => OK false
           | o :: out' =>
               r ← eq x o;
               if r : bool then OK true else loop out'
           end) out;
      distinct_loop arr' (if got : bool then out else out ++ [x])
  end.

(** [util.distinct(list)] *)
Definition distinct (arr : list token) : result (list token) :=
  match arr with
  | [] => OK []
  | x :: arr' => distinct_loop arr' [x]
  end.

End Eq.

End Util.

(** a value made of numbers, strings, booleans, names, ranges and lists
    of such values *)
Fixpoint plain_value (t : token) : bool :=
  match t with
  | TNum _ | TString _ _ _ | TBool _ | TName _ _ _ | TRange _ => true
  | TList _ (Some value) => forallb plain_value value
  | _ => false
  end.

(** no entry of [out] is equal, by [eq], to an entry before it *)
Definition pairwise_different (other_eq : token -> token -> result bool)
    (out : list token) : Prop :=
  forall i j x y, (i < j)%nat -> out !! i = Some x -> out !! j = Some y ->
    Util.eq other_eq y x = OK false.

(** no test for the types gathered in [TOther] *)
Definition no_other_eq : token -> token -> result bool :=
  fun _ _ => Err TypeError.

(** the numbers 1, 2 and 1 as tokens *)
Definition one_two_one : list token :=
  [TNum (Rat 1); TNum (Rat 2); TNum (Rat 1)].

(** * Names of calls *)

(** the keys of [jme.substituteTreeOps] *)
Definition custom_substitution : list string :=
  ["isset"; "map"; "filter"; "let"; "apply"].

(** the token with its name in lower case, when it is an operator or a
    function *)
Definition lower_call (k : token) : token :=
  match k with
  | TOp name postfix prefix => TOp (toLowerCase name) postfix prefix
  | TFunc name annotation => TFunc (toLowerCase name) annotation
  | _ => k
  end.

(** a scope in which [x] is 1 *)
Definition x_is_one : Scope :=
  setVariable empty_scope "x" (VTok (TNum (Rat 1))).

(** a token that [evaluate] hands back as it is: a number, a boolean, a
    range, a list or dictionary that has its value, a string that is safe
    or has no brace *)
Definition literal_value (k : token) : bool :=
  match k with
  | TNum _ | TBool _ | TRange _ | TList _ (Some _) | TDict (Some _) => true
  | TString value safe _ => safe || negb (contains_brace value)
  | _ => false
  end.

(** * Terms of a commutative operation *)

(** the operands of a chain of applications of the operator [op]: the
    arguments of the node, those of its arguments that are applications of
    [op] again, and so on, from left to right *)
Fixpoint operands (op : string) (t : tree) : list tree :=
  let 'Tree k _ args := t in
  match args with
  | Some args => if isOp k op then flat_map (operands op) args else [t]
  | None => [t]
  end.

(** a term that [getCommutingTerms] takes as it is: it sets no name, is no
    subtraction inside a sum, and is neither [?] nor an end term *)
Definition plain_term (op : string) (a : tree) : Prop :=
  isOp (tree_tok a) ";" = false
  /\ String.eqb op "+" && isOp (tree_tok a) "-" = false
  /\ isName (tree_tok a) "?" = false
  /\ isEndTerm a = OK false.

(** * Resolution of function names ([merge], [getFunction]) *)

Module ScopeFacts.

Lemma covers_refl l : covers l l.
Proof. split; eauto. Qed.

Lemma insert_sorted_elem x l f : f ∈ insert_sorted x l <-> f = x \/ f ∈ l.
Proof.
  induction l as [|y l IH]; simpl.
  - rewrite list_elem_of_singleton. rewrite elem_of_nil. tauto.
  - destruct (fn_le x y).
    + rewrite elem_of_cons. tauto.
    + rewrite !elem_of_cons, IH. tauto.
Qed.

Lemma insert_sorted_sorted x l :
  StronglySorted id_le l -> StronglySorted id_le (insert_sorted x l).
Proof.
  induction 1 as [|y l Hs IH Hy]; simpl.
  - repeat constructor.
  - unfold fn_le. destruct (Z.leb_spec (fo_id x) (fo_id y)) as [Hle|Hgt].
    + constructor; [constructor; assumption|].
      constructor; [exact Hle|].
      rewrite Forall_forall in Hy |- *. intros z Hz.
      specialize (Hy z Hz). unfold id_le in *. lia.
    + constructor; [exact IH|].
      rewrite Forall_forall in Hy |- *. intros z Hz.
      apply insert_sorted_elem in Hz as [->|Hz];
        [unfold id_le; lia|auto].
Qed.

Lemma sort_by_id_sorted l : StronglySorted id_le (sort_by_id l).
Proof.
  induction l as [|x l IH]; simpl; [constructor|].
  apply insert_sorted_sorted, IH.
Qed.

Lemma sort_by_id_elem l f : f ∈ sort_by_id l <-> f ∈ l.
Proof.
  induction l as [|x l IH]; simpl; [reflexivity|].
  rewrite insert_sorted_elem, elem_of_cons, IH. reflexivity.
Qed.

Lemma remove_repeats_spec l :
  StronglySorted id_le l ->
  increasing (remove_repeats l) /\ covers (remove_repeats l) l
  /\ head (remove_repeats l) = head l.
Proof.
  induction 1 as [|x l Hs IH Hx]; simpl.
  - split; [constructor|]. split; [apply covers_refl|reflexivity].
  - destruct IH as (Hinc & (Hsub & Hcov) & Hhd).
    rewrite Forall_forall in Hx.
    destruct (remove_repeats l) as [|y r] eqn:Hr.
    + split; [repeat constructor|]. split; [|reflexivity].
      split; [intros f Hf; apply elem_of_cons in Hf as [->|Hf];
              [left|inversion Hf]|].
      intros g Hg. apply elem_of_cons in Hg as [->|Hg].
      * exists x. split; [left|reflexivity].
      * destruct (Hcov g Hg) as (f & Hf & _). inversion Hf.
    + assert (id_le x y) as Hxy by (apply Hx, Hsub; left).
      inversion Hinc as [|? ? Hincr Hyr]; subst.
      rewrite Forall_forall in Hyr.
      destruct (Z.eqb_spec (fo_id x) (fo_id y)) as [Heq|Hne].
      * split; [|split; [|reflexivity]].
        -- constructor; [exact Hincr|]. rewrite Forall_forall.
           intros z Hz. specialize (Hyr z Hz). unfold id_lt in *. lia.
        -- split.
           ++ intros f Hf. apply elem_of_cons in Hf as [->|Hf]; [left|].
              right. apply Hsub. right. exact Hf.
           ++ intros g Hg. apply elem_of_cons in Hg as [->|Hg].
              ** exists x. split; [left|reflexivity].
              ** destruct (Hcov g Hg) as (f & Hf & Hid).
                 apply elem_of_cons in Hf as [->|Hf].
                 --- exists x. split; [left|lia].
                 --- exists f. split; [right; exact Hf|exact Hid].
      * split; [|split; [|reflexivity]].
        -- constructor; [exact Hinc|]. rewrite Forall_forall.
           intros z Hz. apply elem_of_cons in Hz as [->|Hz].
           ++ unfold id_lt, id_le in *. lia.
           ++ specialize (Hyr z Hz). unfold id_lt, id_le in *. lia.
        -- split.
           ++ intros f Hf. apply elem_of_cons in Hf as [->|Hf]; [left|].
              right. apply Hsub. exact Hf.
           ++ intros g Hg. apply elem_of_cons in Hg as [->|Hg].
              ** exists x. split; [left|reflexivity].
              ** destruct (Hcov g Hg) as (f & Hf & Hid).
                 exists f. split; [right; exact Hf|exact Hid].
Qed.

(** [merge] on a list that is not empty: the two lists together, in
    increasing order of identifiers, one record for each identifier. *)
Lemma merge_nonempty this arr :
  this <> [] ->
  increasing (merge this arr) /\ covers (merge this arr) (this ++ arr)
  /\ merge this arr <> [].
Proof.
  intros Hne. unfold merge. destruct this as [|x this]; [contradiction|].
  destruct (remove_repeats_spec (sort_by_id ((x :: this) ++ arr))
              (sort_by_id_sorted _)) as (Hinc & (Hsub & Hcov) & Hhd).
  split; [exact Hinc|]. split.
  - split.
    + intros f Hf. apply sort_by_id_elem. auto.
    + intros g Hg. apply Hcov. apply sort_by_id_elem. exact Hg.
  - intros Hnil. destruct (Hcov x) as (f & Hf & _).
    + apply sort_by_id_elem. left.
    + rewrite Hnil in Hf. inversion Hf.
Qed.

Lemma merge_empty arr : merge [] arr = arr.
Proof. reflexivity. Qed.

Section Chain.
Context {V : Type}.

(** induction along the chain of parents *)
Lemma chain_ind (P : ScopeOf V -> Prop) :
  (forall s, (forall p, parent s = Some p -> P p) -> P s) ->
  forall s, P s.
Proof.
  intros H. fix IH 1. intros [vs fs rs ds [p|]]; apply H; simpl.
  - intros q [= <-]. apply IH.
  - discriminate.
Qed.

Lemma collect_functions_fold (s : ScopeOf V) name : forall o,
  collect_functions s name o = fold_left merge (chain_lists s name) o.
Proof.
  induction s as [s IH] using chain_ind. intros o.
  destruct s as [vs fs rs ds p]; simpl in *.
  destruct (fs !! name) as [l|]; simpl.
  - destruct p as [p|]; [apply IH; reflexivity|reflexivity].
  - destruct p as [p|]; [apply IH; reflexivity|reflexivity].
Qed.

End Chain.

Lemma concat_from_first_record ls :
  concat (from_first_record ls) = concat ls.
Proof. induction ls as [|[|x l] ls IH]; simpl; auto. Qed.

Lemma covers_merge o base l :
  o <> [] -> covers o base -> covers (merge o l) (base ++ l).
Proof.
  intros Hne [Hsub Hcov].
  destruct (merge_nonempty o l Hne) as (_ & [Hsub' Hcov'] & _).
  split.
  - intros f Hf. apply Hsub' in Hf. rewrite elem_of_app in *.
    destruct Hf; auto.
  - intros g Hg. apply elem_of_app in Hg as [Hg|Hg].
    + destruct (Hcov g Hg) as (f & Hf & Hid).
      destruct (Hcov' f) as (f' & Hf' & Hid').
      { apply elem_of_app; auto. }
      exists f'. split; [exact Hf'|congruence].
    + apply Hcov'. apply elem_of_app; auto.
Qed.

Lemma fold_merge_nonempty rest : forall o base,
  o <> [] -> covers o base ->
  covers (fold_left merge rest o) (base ++ concat rest)
  /\ (rest <> [] -> increasing (fold_left merge rest o)).
Proof.
  induction rest as [|l rest IH]; intros o base Hne Hcov; simpl.
  - rewrite app_nil_r. split; [exact Hcov|intros H; contradiction].
  - destruct (merge_nonempty o l Hne) as (Hinc & _ & Hne').
    destruct (IH (merge o l) (base ++ l) Hne' (covers_merge _ _ _ Hne Hcov))
      as [Hc Hi].
    rewrite <- app_assoc in Hc. split; [exact Hc|].
    intros _. destruct rest as [|l' rest]; [exact Hinc|].
    apply Hi. discriminate.
Qed.

(** The order in which [getFunction] lists the records.  When a single
    scope of the chain, counted from the first one that holds a record,
    has an entry for the name, its list is taken as it is stored;
    otherwise the lists are put together in increasing order of
    identifiers, with one record for each identifier. *)
Lemma fold_merge_spec ls :
  let r := fold_left merge ls [] in
  match from_first_record ls with
  | [] => r = []
  | [l] => r = l
  | _ :: _ :: _ => increasing r /\ covers r (concat ls)
  end.
Proof.
  induction ls as [|l ls IH]; simpl; [reflexivity|].
  destruct l as [|x l]; [exact IH|].
  simpl. destruct ls as [|l2 ls]; [reflexivity|].
  destruct (fold_merge_nonempty (l2 :: ls) (x :: l) (x :: l)) as [Hc Hi];
    [discriminate|apply covers_refl|].
  split; [apply Hi; discriminate|exact Hc].
Qed.

(** the first record that a test accepts, in a list in increasing order,
    is the accepted record with the least identifier *)
Lemma find_least (P : funcObj -> bool) r f :
  increasing r -> List.find P r = Some f ->
  f ∈ r /\ P f = true
  /\ forall g, g ∈ r -> P g = true -> (fo_id f <= fo_id g)%Z.
Proof.
  induction 1 as [|x r Hs IH Hx]; simpl; [discriminate|].
  destruct (P x) eqn:Hpx.
  - intros [= <-]. split; [left|]. split; [exact Hpx|].
    intros g Hg _. apply elem_of_cons in Hg as [->|Hg]; [lia|].
    rewrite Forall_forall in Hx. specialize (Hx g Hg). unfold id_lt in Hx. lia.
  - intros Hf. destruct (IH Hf) as (Hin & Hp & Hleast).
    split; [right; exact Hin|]. split; [exact Hp|].
    intros g Hg Hpg. apply elem_of_cons in Hg as [->|Hg]; [congruence|].
    auto.
Qed.

(** When every scope keeps its list in increasing order of identifiers,
    the first accepted record of the resolution is the accepted record of
    the whole chain that has the least identifier. *)
Lemma resolution_least (P : funcObj -> bool) ls f :
  Forall increasing ls -> unique_ids (concat ls) ->
  List.find P (fold_left merge ls []) = Some f ->
  f ∈ concat ls /\ P f = true
  /\ forall g, g ∈ concat ls -> P g = true -> (fo_id f <= fo_id g)%Z.
Proof.
  intros Hall Huniq Hfind.
  assert (increasing (fold_left merge ls [])
          /\ covers (fold_left merge ls []) (concat ls)) as [Hinc [Hsub Hcov]].
  { pose proof (fold_merge_spec ls) as Hspec. simpl in Hspec.
    pose proof (concat_from_first_record ls) as Hcat.
    assert (Forall increasing (from_first_record ls)) as Hall'.
    { clear -Hall. induction Hall as [|[|x l] ls H Hl IH]; simpl; auto. }
    destruct (from_first_record ls) as [|l [|l2 rest]].
    - rewrite Hspec. rewrite <- Hcat. simpl. split; [constructor|apply covers_refl].
    - rewrite Hspec. rewrite <- Hcat. simpl. rewrite app_nil_r.
      inversion Hall'; subst. split; [assumption|apply covers_refl].
    - exact Hspec. }
  destruct (find_least P _ f Hinc Hfind) as (Hin & Hp & Hleast).
  split; [auto|]. split; [exact Hp|].
  intros g Hg Hpg. destruct (Hcov g Hg) as (f' & Hf' & Hid).
  assert (f' = g) as -> by (apply Huniq; auto).
  auto.
Qed.

End ScopeFacts.

(** * Properties of the tokeniser *)

Module TokeniserFacts.
Import Tokeniser.

Lemma separated_nil P : separated P [].
Proof. intros i a b H; rewrite lookup_nil in H; discriminate. Qed.

Lemma separated_snoc P l t :
  separated P l ->
  (forall a, last l = Some a -> P a t = false) ->
  separated P (l ++ [t]).
Proof.
  intros Hl Ht i a b Ha Hb.
  destruct (decide (S i < length l)%nat) as [Hlt|Hge].
  - rewrite lookup_app_l in Ha by lia. rewrite lookup_app_l in Hb by lia.
    eauto.
  - assert (S i = length l) as Hi.
    { apply lookup_lt_Some in Hb. rewrite length_app in Hb. simpl in Hb. lia. }
    rewrite lookup_app_l in Ha by lia.
    rewrite lookup_app_r in Hb by lia.
    replace (S i - length l)%nat with 0%nat in Hb by lia.
    simpl in Hb. injection Hb as <-.
    apply Ht. rewrite last_lookup. rewrite <- Hi. exact Ha.
Qed.

Lemma separated_removelast P l : separated P l -> separated P (removelast l).
Proof.
  intros Hl i a b Ha Hb.
  destruct (last l) as [x|] eqn:Hlast.
  - apply last_Some in Hlast as [l' ->].
    rewrite removelast_last in Ha, Hb.
    apply (Hl i); rewrite lookup_app_l; auto;
      eapply lookup_lt_Some; eauto.
  - apply last_None in Hlast as ->. simpl in Ha.
    rewrite lookup_nil in Ha; discriminate.
Qed.

(** [times] never is the left or right member of a pair. *)
Lemma implicit_pair_times_r a : implicit_pair a times = false.
Proof. reflexivity. Qed.

Lemma implicit_pair_times_l b : implicit_pair times b = false.
Proof.
  unfold implicit_pair.
  destruct (String.eqb (type b) "number"), (String.eqb (type b) "name"),
    (String.eqb (type b) "("); reflexivity.
Qed.

(** Pushing [token] after [push_times_after tys] keeps the neighbours apart
    as soon as every pair that ends in [token] starts with a type of
    [tys]. *)
Lemma separated_push tys tokens token :
  separated implicit_pair tokens ->
  (forall a, implicit_pair a token = true -> type a ∈ tys) ->
  separated implicit_pair (push_times_after tys tokens ++ [token]).
Proof.
  intros Hsep Hty. unfold push_times_after, prev_is.
  destruct (last tokens) as [a|] eqn:Hlast.
  - case_bool_decide as Hin.
    + apply separated_snoc.
      * apply separated_snoc; [exact Hsep|].
        intros; apply implicit_pair_times_r.
      * intros x Hx. rewrite last_snoc in Hx. injection Hx as <-.
        apply implicit_pair_times_l.
    + apply separated_snoc; [exact Hsep|].
      intros x Hx. rewrite Hlast in Hx. injection Hx as <-.
      destruct (implicit_pair a token) eqn:E; [|reflexivity].
      exfalso. apply Hin. apply Hty. exact E.
  - apply separated_snoc; [exact Hsep|].
    intros x Hx. rewrite Hlast in Hx. discriminate.
Qed.

(** A token whose type is none of ["number"], ["name"], ["("] ends no
    pair. *)
Lemma implicit_pair_other a t :
  type t <> "number" -> type t <> "name" -> type t <> "(" ->
  implicit_pair a t = false.
Proof.
  intros H1 H2 H3. unfold implicit_pair.
  apply String.eqb_neq in H1, H2, H3. rewrite H1, H2, H3. reflexivity.
Qed.

Lemma separated_push_other tokens t :
  separated implicit_pair tokens ->
  type t <> "number" -> type t <> "name" -> type t <> "(" ->
  separated implicit_pair (tokens ++ [t]).
Proof.
  intros Hsep H1 H2 H3. apply separated_snoc; [exact Hsep|].
  intros; apply implicit_pair_other; assumption.
Qed.

Lemma implicit_pair_number a q :
  implicit_pair a (TNum q) = true -> type a ∈ [")"; "name"].
Proof.
  unfold implicit_pair. simpl. rewrite !orb_false_r.
  intros H. apply bool_decide_eq_true in H. exact H.
Qed.

Lemma implicit_pair_number_weak a q :
  implicit_pair a (TNum q) = true -> type a ∈ ["number"; "name"; ")"].
Proof.
  intros H. apply implicit_pair_number in H.
  set_solver.
Qed.

Lemma implicit_pair_name a n an u :
  implicit_pair a (TName n an u) = true -> type a ∈ ["number"; "name"; ")"].
Proof.
  unfold implicit_pair. simpl. rewrite !orb_false_r.
  intros H. apply bool_decide_eq_true in H. exact H.
Qed.

Lemma implicit_pair_open a :
  implicit_pair a (TPunc "(") = true -> type a ∈ ["number"; ")"].
Proof.
  unfold implicit_pair. simpl.
  intros H. apply bool_decide_eq_true in H. exact H.
Qed.

Lemma match_punctuation_kind s r0 :
  match_punctuation s = Some r0 ->
  str r0 ∈ ["("; ")"; ","; "["; "]"].
Proof.
  unfold match_punctuation. destruct s as [|c s]; [discriminate|].
  case_bool_decide as Hc; [|discriminate].
  intros [= <-]. simpl.
  repeat (apply elem_of_cons in Hc as [->|Hc]; [set_solver|]).
  apply elem_of_nil in Hc. contradiction.
Qed.

(** One turn of the loop keeps the neighbours of the token list apart. *)
Lemma tokenise_step_separated oexpr expr tokens expr' tokens' :
  separated implicit_pair tokens ->
  tokenise_step oexpr expr tokens = OK (Some (expr', tokens')) ->
  separated implicit_pair tokens'.
Proof.
  intros Hsep. unfold tokenise_step.
  set (e := skip_comments _ _).
  destruct (match_number e) as [r0|].
  { intros [= _ <-]. apply separated_push; [exact Hsep|].
    intros a; apply implicit_pair_number. }
  destruct (match_bool e) as [r0|].
  { intros [= _ <-]. apply separated_push_other; [exact Hsep|..]; discriminate. }
  destruct (match_op e) as [r0|].
  { intros [= _ <-]. apply separated_push_other; [exact Hsep|..];
      destruct (operand_expected tokens);
      [destruct (prefixForm _)|destruct (postfixForm _)
      |destruct (prefixForm _)|destruct (postfixForm _)
      |destruct (prefixForm _)|destruct (postfixForm _)]; discriminate. }
  destruct (match_name e) as [m|].
  { intros [= _ <-]. apply separated_push; [exact Hsep|].
    intros a. destruct (nm_annotation m).
    - destruct (constants _).
      + apply implicit_pair_number_weak.
      + apply implicit_pair_name.
    - apply implicit_pair_name. }
  destruct (match_punctuation e) as [r0|] eqn:Hp.
  { intros [= _ <-]. apply match_punctuation_kind in Hp.
    destruct (String.eqb (str r0) "(") eqn:Hopen.
    - apply String.eqb_eq in Hopen. rewrite Hopen.
      apply separated_push; [exact Hsep|]. intros a; apply implicit_pair_open.
    - apply String.eqb_neq in Hopen.
      apply separated_push_other; [exact Hsep|..]; simpl;
        [| |exact Hopen]; intros Heq; rewrite Heq in Hp; set_solver. }
  destruct (match_string e) as [[n body]|].
  { intros [= _ <-]. apply separated_push_other; [exact Hsep|..]; discriminate. }
  destruct e as [|c e']; [discriminate|].
  destruct (Ascii.eqb_spec c ":"%char) as [->|Hc].
  - destruct (last tokens) as [t|]; [|discriminate].
    destruct t; try discriminate.
    intros [= _ <-]. apply separated_push_other;
      [apply separated_removelast; exact Hsep|..]; discriminate.
  - intros H. exfalso. revert H.
    destruct c as [[] [] [] [] [] [] [] []]; try discriminate.
    contradiction.
Qed.

Lemma tokenise_loop_separated fuel oexpr : forall expr tokens toks,
  separated implicit_pair tokens ->
  tokenise_loop fuel oexpr expr tokens = OK toks ->
  separated implicit_pair toks.
Proof.
  induction fuel as [|fuel IH]; intros expr tokens toks Hsep; simpl.
  - destruct expr; [intros [= <-]; exact Hsep|discriminate].
  - destruct expr as [|c expr]; [intros [= <-]; exact Hsep|].
    destruct (tokenise_step oexpr (c :: expr) tokens) as [[[e' t']|]| |] eqn:Hstep;
      simpl; try discriminate.
    + apply IH. eapply tokenise_step_separated; eauto.
    + intros [= <-]; exact Hsep.
Qed.

Lemma tokenise_separated s toks :
  tokenise s = OK toks -> separated implicit_pair toks.
Proof.
  unfold tokenise. destruct s.
  - intros [= <-]. apply separated_nil.
  - apply tokenise_loop_separated. apply separated_nil.
Qed.

(** *** Termination of the loop *)

Lemma strip_leading_length s : forall k,
  (length (strip_leading k s) <= length s)%nat.
Proof.
  induction s as [|c s IH]; intros k; cbn [strip_leading length]; [lia|].
  destruct k as [|k].
  - destruct (is_space c); [specialize (IH 0%nat); lia|].
    destruct (starts_with nbsp (c :: s)); [specialize (IH 5%nat); lia|].
    cbn [length]; lia.
  - specialize (IH k); lia.
Qed.

Lemma strip_trailing_rev_length s : forall k,
  (length (strip_trailing_rev k s) <= length s)%nat.
Proof.
  induction s as [|c s IH]; intros k; cbn [strip_trailing_rev length]; [lia|].
  destruct k as [|k].
  - destruct (is_space c); [specialize (IH 0%nat); lia|].
    destruct (starts_with (rev nbsp) (c :: s)); [specialize (IH 5%nat); lia|].
    cbn [length]; lia.
  - specialize (IH k); lia.
Qed.

Lemma strip_whitespace_length s :
  (length (strip_whitespace s) <= length s)%nat.
Proof.
  unfold strip_whitespace, strip_trailing.
  rewrite length_rev.
  etransitivity; [apply strip_trailing_rev_length|].
  rewrite length_rev. apply strip_leading_length.
Qed.

Lemma skip_comments_length fuel : forall s,
  (length (skip_comments fuel s) <= length s)%nat.
Proof.
  induction fuel as [|fuel IH]; intros s; simpl; [lia|].
  destruct (match_comment s); [|lia].
  etransitivity; [apply IH|].
  etransitivity; [apply strip_whitespace_length|].
  rewrite length_drop. lia.
Qed.

Lemma drop_shorter {A} (n : nat) (l : list A) :
  (0 < n)%nat -> l <> [] -> (length (drop n l) < length l)%nat.
Proof.
  intros Hn Hl. rewrite length_drop.
  destruct l; [contradiction|]. simpl. lia.
Qed.

Lemma span_nonempty {A} (f : A -> bool) l a b :
  span f l = (a, b) -> a <> [] -> l <> [].
Proof. destruct l; simpl; [intros [= <- <-] ?; contradiction|discriminate]. Qed.

Lemma match_number_progress s r0 :
  match_number s = Some r0 -> (0 < length r0)%nat /\ s <> [].
Proof.
  unfold match_number. destruct (span is_digit s) as [int rest] eqn:Hs.
  destruct int as [|d int]; [discriminate|].
  assert (s <> []) by (eapply span_nonempty; eauto; discriminate).
  destruct rest as [|c rest].
  { intros [= <-]. simpl. split; [lia|assumption]. }
  destruct (Ascii.eqb_spec c "."%char) as [->|Hc].
  - destruct (span is_digit rest) as [[|f frac] ?];
      intros [= <-]; simpl; (split; [lia|assumption]).
  - intros H'. assert (Some (d :: int) = Some r0) as [= <-].
    { revert H'. destruct c as [[] [] [] [] [] [] [] []]; try (intros ->; reflexivity);
        try exact (fun e => e). contradiction. }
    simpl. split; [lia|assumption].
Qed.

Lemma starts_with_ci_nonempty p s :
  p <> [] -> starts_with_ci p s = true -> s <> [].
Proof. destruct p, s; simpl; try discriminate; try contradiction. Qed.

Lemma starts_with_nonempty p s :
  p <> [] -> starts_with p s = true -> s <> [].
Proof. destruct p, s; simpl; try discriminate; try contradiction. Qed.

Lemma take_length_pos {A} n (l : list A) :
  (0 < n)%nat -> l <> [] -> (0 < length (take n l))%nat.
Proof. destruct n, l; simpl; intros; try lia; contradiction. Qed.

Lemma match_bool_progress s r0 :
  match_bool s = Some r0 -> (0 < length r0)%nat /\ s <> [].
Proof.
  unfold match_bool.
  destruct (starts_with_ci (lit "true") s && _) eqn:E1.
  - apply andb_prop in E1 as [Ht _].
    apply starts_with_ci_nonempty in Ht; [|discriminate].
    intros [= <-]. split; [apply take_length_pos; [lia|assumption]|assumption].
  - destruct (starts_with_ci (lit "false") s && _) eqn:E2; [|discriminate].
    apply andb_prop in E2 as [Hf _].
    apply starts_with_ci_nonempty in Hf; [|discriminate].
    intros [= <-]. split; [apply take_length_pos; [lia|assumption]|assumption].
Qed.

Lemma match_op_progress s r0 :
  match_op s = Some r0 -> (0 < length r0)%nat /\ s <> [].
Proof.
  unfold match_op.
  destruct (List.find _ op_symbols) as [p|] eqn:Hp.
  - apply find_some in Hp as [Hin Hsw]. intros [= <-].
    assert (lit p <> []) as Hne.
    { unfold op_symbols in Hin. simpl in Hin.
      repeat (destruct Hin as [<-|Hin]; [discriminate|]). contradiction. }
    split; [destruct (lit p); [contradiction|simpl; lia]|].
    eapply starts_with_nonempty; eauto.
  - destruct (List.find _ op_words) as [w|] eqn:Hw; [|discriminate].
    apply find_some in Hw as [Hin Hsw]. intros [= <-].
    unfold match_op_word in Hsw. apply andb_prop in Hsw as [Hsw _].
    assert (lit w <> [] /\ (0 < String.length w)%nat) as [Hne Hlen].
    { unfold op_words in Hin. simpl in Hin.
      repeat (destruct Hin as [<-|Hin]; [split; [discriminate|simpl; lia]|]).
      contradiction. }
    assert (s <> []) by (eapply starts_with_ci_nonempty; eauto).
    split; [apply take_length_pos; assumption|assumption].
Qed.

Lemma match_ident_progress s n :
  match_ident s = Some n -> (0 < length n)%nat.
Proof.
  assert (forall s n, match_identifier s = Some n -> (0 < length n)%nat) as Hid.
  { intros s0 n0. unfold match_identifier. destruct s0 as [|c s0]; [discriminate|].
    destruct (is_ident_start c); [|discriminate].
    destruct (span is_ident_char s0) as [body rest].
    destruct (span _ rest) as [primes ?]. intros [= <-]. simpl. lia. }
  unfold match_ident. destruct s as [|c s]; [apply Hid|].
  destruct (Ascii.eqb_spec c "$"%char) as [->|H1].
  { destruct (match_identifier s); simpl; [|discriminate].
    intros [= <-]. simpl. lia. }
  destruct (Ascii.eqb_spec c "?"%char) as [->|H2].
  { destruct s as [|d s]; [intros [= <-]; simpl; lia|].
    destruct (Ascii.eqb_spec d "?"%char) as [->|H3]; [intros [= <-]; simpl; lia|].
    intros H. assert (Some (lit "?") = Some n) as [= <-]; [|simpl; lia].
    revert H. destruct d as [[] [] [] [] [] [] [] []];
      try exact (fun e => e). contradiction. }
  intros H. apply (Hid (c :: s)).
  revert H. destruct c as [[] [] [] [] [] [] [] []];
    try exact (fun e => e); contradiction.
Qed.

Lemma annotations_nonempty fuel : forall s ps r,
  annotations fuel s = (ps, r) -> Forall (fun p => (0 < length p)%nat) ps.
Proof.
  induction fuel as [|fuel IH]; intros s ps r; cbn [annotations].
  - intros [= <- <-]. constructor.
  - destruct (span is_alpha s) as [letters rest].
    destruct letters as [|l letters]; [intros [= <- <-]; constructor|].
    destruct rest as [|c rest]; [intros [= <- <-]; constructor|].
    destruct (Ascii.eqb_spec c ":"%char) as [->|Hc].
    + destruct (annotations fuel rest) as [ps' r'] eqn:Hrec.
      intros [= <- <-]. constructor; [cbn [length]; lia|]. eapply IH; eauto.
    + intros H. assert (([] : list chars, s) = (ps, r)) as [= <- <-];
        [|constructor].
      revert H. destruct c as [[] [] [] [] [] [] [] []];
        try exact (fun e => e); contradiction.
Qed.

Lemma match_name_progress s m :
  match_name s = Some m -> (0 < nm_length m)%nat /\ s <> [].
Proof.
  intros H.
  assert (s <> []) as Hs.
  { intros ->. revert H. unfold match_name. cbn. discriminate. }
  split; [|exact Hs].
  revert H. unfold match_name.
  set (o := match s with "{"%char :: s' => _ | _ => _ end).
  destruct o as [open s1].
  destruct (annotations (length s1) s1) as [ps rest] eqn:Hann.
  apply annotations_nonempty in Hann.
  destruct (match_ident rest) as [n|] eqn:Hn.
  - apply match_ident_progress in Hn. intros [= <-]. cbn [nm_length]. lia.
  - destruct (last ps) as [p|] eqn:Hp; [|discriminate].
    intros [= <-]. cbn [nm_length].
    apply last_Some_elem_of in Hp.
    rewrite Forall_forall in Hann. specialize (Hann _ Hp). lia.
Qed.

Lemma match_punctuation_progress s r0 :
  match_punctuation s = Some r0 -> (0 < length r0)%nat /\ s <> [].
Proof.
  unfold match_punctuation. destruct s as [|c s]; [discriminate|].
  case_bool_decide; [|discriminate]. intros [= <-].
  split; [cbn [length]; lia|discriminate].
Qed.

Lemma match_string_with_progress ds : forall s n body,
  Forall (fun d => d <> []) ds ->
  match_string_with ds s = Some (n, body) -> (0 < n)%nat /\ s <> [].
Proof.
  induction ds as [|d ds IH]; intros s n body Hds; cbn [match_string_with];
    [discriminate|].
  inversion Hds as [|? ? Hd Hds']; subst.
  destruct (starts_with d s) eqn:Hsw; [|apply IH; assumption].
  destruct (string_body d false _); [|apply IH; assumption].
  intros [= <- <-]. split.
  - destruct d; [contradiction|cbn [length]; lia].
  - eapply starts_with_nonempty; eauto.
Qed.

Lemma match_string_progress s n body :
  match_string s = Some (n, body) -> (0 < n)%nat /\ s <> [].
Proof.
  apply match_string_with_progress.
  repeat constructor; discriminate.
Qed.

(** Every turn that goes on removes at least one character. *)
Lemma tokenise_step_progress oexpr expr tokens expr' tokens' :
  tokenise_step oexpr expr tokens = OK (Some (expr', tokens')) ->
  (length expr' < length expr)%nat.
Proof.
  unfold tokenise_step.
  set (e := skip_comments _ _).
  assert (length e <= length expr)%nat as He.
  { subst e. etransitivity; [apply skip_comments_length|].
    apply strip_whitespace_length. }
  assert (forall n, (0 < n)%nat -> e <> [] ->
                    (length (drop n e) < length expr)%nat) as Hdrop.
  { intros n Hn Hne. pose proof (drop_shorter n e Hn Hne). lia. }
  destruct (match_number e) as [r0|] eqn:H1.
  { apply match_number_progress in H1 as [? ?]. intros [= <- _]. auto. }
  destruct (match_bool e) as [r0|] eqn:H2.
  { apply match_bool_progress in H2 as [? ?]. intros [= <- _]. auto. }
  destruct (match_op e) as [r0|] eqn:H3.
  { apply match_op_progress in H3 as [? ?]. intros [= <- _]. auto. }
  destruct (match_name e) as [m|] eqn:H4.
  { apply match_name_progress in H4 as [? ?]. intros [= <- _]. auto. }
  destruct (match_punctuation e) as [r0|] eqn:H5.
  { apply match_punctuation_progress in H5 as [? ?]. intros [= <- _]. auto. }
  destruct (match_string e) as [[n body]|] eqn:H6.
  { apply match_string_progress in H6 as [? ?]. intros [= <- _]. auto. }
  destruct e as [|c e']; [discriminate|].
  destruct (Ascii.eqb_spec c ":"%char) as [->|Hc].
  - destruct (last tokens) as [t|]; [|discriminate].
    destruct t; try discriminate.
    intros [= <- _]. cbn [length] in He. lia.
  - intros H. exfalso. revert H.
    destruct c as [[] [] [] [] [] [] [] []]; try discriminate.
    contradiction.
Qed.

(** The loop never runs out of turns when it is given as many as the text
    has characters. *)
Lemma tokenise_loop_total fuel oexpr : forall expr tokens,
  (length expr <= fuel)%nat ->
  tokenise_loop fuel oexpr expr tokens <> Fuel.
Proof.
  induction fuel as [|fuel IH]; intros expr tokens Hlen; cbn [tokenise_loop].
  - destruct expr; [discriminate|cbn [length] in Hlen; lia].
  - destruct expr as [|c expr]; [discriminate|].
    destruct (tokenise_step oexpr (c :: expr) tokens) as [[[e' t']|]| |] eqn:Hstep;
      cbn; try discriminate.
    + apply IH. apply tokenise_step_progress in Hstep. lia.
    + unfold tokenise_step in Hstep. revert Hstep.
      repeat match goal with
             | |- context [match ?x with _ => _ end] => destruct x
             end; discriminate.
Qed.

Lemma tokenise_total s : tokenise s <> Fuel.
Proof.
  unfold tokenise. destruct s; [discriminate|].
  apply tokenise_loop_total. lia.
Qed.

(** *** Implicit multiplication *)

Example tokenise_function_call :
  tokenise "f(x)"
  = OK [TName "f" None false; TPunc "("; TName "x" None false; TPunc ")"].
Proof. vm_compute. reflexivity. Qed.

Example tokenise_constant_after_number :
  tokenise "2 pi" = OK [TNum (Rat (inject_Z 2)); times; TNum ConstPi].
Proof. vm_compute. reflexivity. Qed.




End TokeniserFacts.

(** * Indexing a list ([listval]) *)

Module ListvalFacts.

Lemma array_get_whole {A} (i : Z) (l : list A) :
  array_get (Rat (inject_Z i)) l
  = if (0 <=? i)%Z then l !! Z.to_nat i else None.
Proof.
  unfold array_get. rewrite Qfloor_Z, Qeq_bool_refl. reflexivity.
Qed.

Lemma wrapListIndex_nonnegative (i : Z) (size : nat) :
  (0 <= i)%Z -> wrapListIndex (Rat (inject_Z i)) size = Rat (inject_Z i).
Proof.
  intros Hi. unfold wrapListIndex.
  destruct (Qlt_le_dec (inject_Z i) 0) as [Hlt|Hle]; [|reflexivity].
  change 0%Q with (inject_Z 0) in Hlt. rewrite <- Zlt_Qlt in Hlt. lia.
Qed.

Lemma wrapListIndex_negative (i : Z) (size : nat) :
  (i < 0)%Z ->
  wrapListIndex (Rat (inject_Z i)) size = Rat (inject_Z (i + Z.of_nat size)).
Proof.
  intros Hi. unfold wrapListIndex.
  destruct (Qlt_le_dec (inject_Z i) 0) as [Hlt|Hle].
  - rewrite inject_Z_plus. reflexivity.
  - change 0%Q with (inject_Z 0) in Hle. rewrite <- Zle_Qle in Hle. lia.
Qed.

Lemma listval_on_list (l : list token) (i : Z) :
  listval [TList_of l; TNum (Rat (inject_Z i))]
  = match (if (0 <=? wrapped i (length l))%Z
           then l !! Z.to_nat (wrapped i (length l)) else None) with
    | Some v => OK v
    | None =>
        throw "jme.func.listval.invalid index"
              [("index", ANumber (inject_Z (wrapped i (length l))));
               ("size", ANumber (inject_Z (Z.of_nat (length l))))]
    end.
Proof.
  unfold listval, TList_of, wrapped.
  destruct (Z.ltb_spec i 0) as [Hneg|Hpos].
  - rewrite wrapListIndex_negative by assumption.
    rewrite array_get_whole. reflexivity.
  - rewrite wrapListIndex_nonnegative by assumption.
    rewrite array_get_whole. reflexivity.
Qed.

(** In a scope with this definition of [listval], the evaluation of the
    call is the procedure on the two values. *)
Lemma evaluate_listval scoped contentsubvars fuel id (l : list token) (i : Z) :
  evaluate scoped contentsubvars (S (S fuel))
    (addFunction empty_scope (listval_list_number id)) (listval_call l i)
  = listval [TList_of l; TNum (Rat (inject_Z i))].
Proof. vm_compute. reflexivity. Qed.

(** C9.  For a list [l] of length [n] and a whole number [i], the
    evaluation of [l[i]] is [listval] on the two values, which gives the
    element at position [i] when [0 <= i < n], the element at position
    [i+n] when [-n <= i < 0], and raises the invalid-index error for every
    other [i]. *)
Theorem C9_listval_index scoped contentsubvars fuel id (l : list token) (i : Z) :
  let n := Z.of_nat (length l) in
  let indexed := listval [TList_of l; TNum (Rat (inject_Z i))] in
  evaluate scoped contentsubvars (S (S fuel))
    (addFunction empty_scope (listval_list_number id)) (listval_call l i)
  = indexed
  /\ (0 <= i < n -> exists v, l !! Z.to_nat i = Some v /\ indexed = OK v)
  /\ (- n <= i < 0 -> exists v, l !! Z.to_nat (i + n) = Some v /\ indexed = OK v)
  /\ (i < - n \/ n <= i ->
      exists index,
        indexed = throw "jme.func.listval.invalid index"
                        [("index", ANumber index); ("size", ANumber (inject_Z n))]).
Proof.
  intros n indexed. split; [apply evaluate_listval|].
  subst indexed. rewrite listval_on_list. unfold wrapped.
  fold n. repeat split.
  - intros [H0 Hn].
    destruct (Z.ltb_spec i 0) as [?|_]; [lia|].
    destruct (Z.leb_spec 0 i) as [_|?]; [|lia].
    destruct (lookup_lt_is_Some_2 l (Z.to_nat i)) as [v Hv]; [lia|].
    exists v. rewrite Hv. split; reflexivity.
  - intros [Hn H0].
    destruct (Z.ltb_spec i 0) as [_|?]; [|lia].
    destruct (Z.leb_spec 0 (i + n)) as [_|?]; [|lia].
    destruct (lookup_lt_is_Some_2 l (Z.to_nat (i + n))) as [v Hv]; [lia|].
    exists v. rewrite Hv. split; reflexivity.
  - intros [Hlow|Hhigh].
    + destruct (Z.ltb_spec i 0) as [_|?]; [|lia].
      destruct (Z.leb_spec 0 (i + n)) as [?|_]; [lia|].
      eexists. reflexivity.
    + destruct (Z.ltb_spec i 0) as [?|_]; [lia|].
      destruct (Z.leb_spec 0 i) as [_|?]; [|lia].
      rewrite (lookup_ge_None_2 l (Z.to_nat i)) by lia.
      eexists. reflexivity.
Qed.

(** C9 at the list [[5,6,7]] and the index [-1] *)
Lemma C9_listval_index_witness :
  exists v, [TNum (Rat (inject_Z 5)); TNum (Rat (inject_Z 6)); TNum (Rat (inject_Z 7))]
              !! Z.to_nat (-1 + 3) = Some v
            /\ listval [TList_of [TNum (Rat (inject_Z 5)); TNum (Rat (inject_Z 6));
                                  TNum (Rat (inject_Z 7))];
                        TNum (Rat (inject_Z (-1)))] = OK v.
Proof.
  apply (proj1 (proj2 (proj2 (C9_listval_index
           (fun _ _ _ _ => Err TypeError) (fun s _ => OK s) 0 1
           [TNum (Rat (inject_Z 5)); TNum (Rat (inject_Z 6)); TNum (Rat (inject_Z 7))]
           (-1))))).
  simpl. lia.
Defined.

End ListvalFacts.

(** * Evaluation of an operator or function node *)

Module EvaluateFacts.
Import ScopeFacts.

Lemma call_name_is_call k name : call_name k = Some name -> is_call k = true.
Proof. destruct k; try discriminate; reflexivity. Qed.

Lemma call_name_tok_name k name :
  call_name k = Some name -> tok_name k = Some name.
Proof. destruct k; try discriminate; simpl; congruence. Qed.

(** a name with an entry in [substituteTreeOps] is the name of a lazy
    operation *)
Lemma substituteTreeOps_lazy name sub args :
  toLowerCase name ∉ lazyOps -> substituteTreeOps name sub args = None.
Proof.
  intros Hlazy. unfold substituteTreeOps.
  repeat match goal with
         | |- context [String.eqb name ?s] =>
             destruct (String.eqb_spec name s) as [->|_];
               [exfalso; apply Hlazy; vm_compute; set_solver|]
         end.
  reflexivity.
Qed.

Lemma substituteTree_call k args scope allowUnbound name :
  call_name k = Some name -> toLowerCase name ∉ lazyOps ->
  substituteTree (node k args) scope allowUnbound
  = (args' ← mapM (fun a => substituteTree a scope allowUnbound) args;
     OK (node k args')).
Proof.
  intros Hk Hlazy. unfold node. cbn [substituteTree].
  rewrite (call_name_tok_name _ _ Hk), (call_name_is_call _ _ Hk).
  rewrite substituteTreeOps_lazy by assumption.
  reflexivity.
Qed.

Lemma getFunction_fresh {V} (scope : ScopeOf V) op :
  resolved_functions scope !! op = None ->
  fst (getFunction scope op) = fold_left merge (chain_lists scope op) [].
Proof.
  intros H. unfold getFunction. rewrite H. simpl.
  apply collect_functions_fold.
Qed.

Section Call.

Variable scoped :
  string -> (Scope -> tree -> result token) -> list val -> Scope -> result token.
Variable contentsubvars : string -> Scope -> result string.

(** An operator or function node whose name is not lazy: the arguments
    are substituted into, then evaluated from left to right, then a
    definition is chosen and called. *)
Lemma evaluate_call fuel scope k args name :
  call_name k = Some name -> toLowerCase name ∉ lazyOps ->
  evaluate scoped contentsubvars (S fuel) scope (node k args)
  = (args' ← mapM (fun a => substituteTree a scope true) args;
     vs ← mapM (evaluate scoped contentsubvars fuel scope) args';
     dispatch scoped (evaluate scoped contentsubvars fuel) scope k (toLowerCase name) vs).
Proof.
  intros Hk Hlazy. cbn [evaluate].
  rewrite (substituteTree_call _ _ _ _ _ Hk Hlazy).
  destruct (mapM _ args) as [args'| |]; try reflexivity.
  cbn [mbind result_bind rbind node].
  destruct k; try discriminate; injection Hk as ->;
    rewrite bool_decide_eq_false_2 by assumption; reflexivity.
Qed.

(** the loop over the arguments stops at the first one that raises an
    error, so the arguments are taken from left to right *)
Lemma mapM_first_error {A B} (f : A -> result B) l1 a l2 vs e :
  mapM f l1 = OK vs -> f a = Err e -> mapM f (l1 ++ a :: l2) = Err e.
Proof.
  revert vs. induction l1 as [|x l1 IH]; intros vs; simpl.
  - intros _ ->. reflexivity.
  - destruct (f x) as [y| |]; simpl; try discriminate.
    destruct (mapM f l1) as [ys| |] eqn:Hl1; simpl; try discriminate.
    intros _ Ha. rewrite (IH ys eq_refl Ha). reflexivity.
Qed.


End Call.

(** *** Two definitions of one name

    [first_made] has the smaller identifier, [second_made] is the first to
    be added to the scope; both accept one argument of any type. *)



(** *** A remembered resolution

    [number_only] is defined in the outer scope.  The inner scope resolves
    [f] once, and then gets [string_only] as its first own definition of
    [f]: [addFunction] keeps the remembered list in that case, so the new
    definition is not seen. *)

Example remembered_resolution_hides_a_definition :
  functions inner_extended !! "f" = Some [string_only]
  /\ fst (getFunction inner_extended "f") = [number_only]
  /\ evaluate no_scoped no_contentsubvars 3 inner_extended f_of_text
     = Err (Error "jme.typecheck.no right type definition"
                  [("op", AString "f")] None)
  /\ evaluate no_scoped no_contentsubvars 3 (addFunction inner string_only) f_of_text
     = OK (TNum (Rat (inject_Z 5))).
Proof. repeat split. Qed.

End EvaluateFacts.

(** * Facts about the pattern matcher *)

Module MatcherFacts.

Lemma positional_loop rec k b rargs k' b' eargs :
  String.eqb (type k) (type k') = true ->
  tok_name k = tok_name k' ->
  positional rec (Tree k b (Some rargs)) (Tree k' b' (Some eargs))
  = positional_from rec eargs 0 rargs [].
Proof.
  intros Ht Hn. unfold positional. cbn [tree_tok tree_args].
  rewrite Ht, Hn, bool_decide_eq_true_2 by reflexivity.
  destruct rargs; reflexivity.
Qed.

(** Arguments of the expression beyond those of the pattern are not
    looked at. *)
Lemma positional_from_surplus rec eargs surplus rargs :
  forall i d,
    (i + length rargs <= length eargs)%nat ->
    positional_from rec (eargs ++ surplus) i rargs d
    = positional_from rec eargs i rargs d.
Proof.
  induction rargs as [|r rargs IH]; intros i d Hlen; [reflexivity|].
  cbn [positional_from length] in *.
  rewrite lookup_app_l by lia.
  destruct (eargs !! i) as [e|]; [|reflexivity].
  destruct (rec r e) as [[m|]| |]; cbn; auto.
  apply IH. lia.
Qed.

Lemma positional_ignores_surplus rec k b rargs k' b' eargs surplus :
  String.eqb (type k) (type k') = true ->
  tok_name k = tok_name k' ->
  (length rargs <= length eargs)%nat ->
  positional rec (Tree k b (Some rargs)) (Tree k' b' (Some (eargs ++ surplus)))
  = positional rec (Tree k b (Some rargs)) (Tree k' b' (Some eargs)).
Proof.
  intros Ht Hn Hlen. rewrite !positional_loop by assumption.
  apply positional_from_surplus. exact Hlen.
Qed.

(** [f(?)] matches [f(a,b)]: the number of arguments is not compared. *)
Example positional_no_arity_check :
  matchTree no_findvars 2
    (node (TFunc "f" None) [variable "?"])
    (node (TFunc "f" None) [variable "a"; variable "b"]) true
  = OK (Some []).
Proof. reflexivity. Qed.

Section Matcher.
Variable findvars : tree -> list string.

Lemma matchTree_operator fuel name postfix prefix bound rargs exprTree doCommute :
  name <> ";" ->
  let ruleTree := Tree (TOp name postfix prefix) bound rargs in
  let rec := fun r e => matchTree findvars fuel r e doCommute in
  matchTree findvars (S fuel) ruleTree exprTree doCommute
  = if doCommute && commutative name
    then commuting fuel rec ruleTree exprTree name
    else positional rec ruleTree exprTree.
Proof.
  intros Hname ruleTree rec. subst ruleTree rec.
  cbn [matchTree tree_tok tree_args isOp].
  replace (String.eqb name ";") with false
    by (symmetry; apply String.eqb_neq; exact Hname).
  reflexivity.
Qed.


(** C5 (failing input).  [+] is commutative, and the pattern
    [? + m_number] uses nothing but the two wildcards; in commuting mode it
    matches [x + 2] and does not match [2 + x]: each term of the expression
    takes the first free term of the pattern that matches it, so [2] takes
    [?] and nothing is left for [x]. *)
Theorem C5_commuting_match_depends_on_order fuel :
  commutative "+" = true /\
  matchTree findvars (S (S fuel)) anything_plus_number
            (binary "+" (variable "x") (numeral 2)) true = OK (Some []) /\
  matchTree findvars (S (S fuel)) anything_plus_number
            (binary "+" (numeral 2) (variable "x")) true = OK None.
Proof. repeat split. Qed.

End Matcher.



End MatcherFacts.

(** * Facts about rules and simplification *)

Module SimplifyFacts.
Import MatcherFacts EvaluateFacts.

Lemma mapM_OK_Forall2 {A B} (f : A -> result B) l l' :
  mapM f l = OK l' <-> Forall2 (fun a b => f a = OK b) l l'.
Proof.
  revert l'. induction l as [|a l IH]; intros l'; cbn.
  - split.
    + intros [= <-]. constructor.
    + intros H. inversion H. reflexivity.
  - destruct (f a) as [b| |] eqn:Ha; cbn.
    + destruct (mapM f l) as [bs| |] eqn:Hl; cbn.
      * split.
        -- unfold mret, result_ret. intros [= <-]. constructor; [exact Ha|]. apply IH. reflexivity.
        -- intros H. inversion H as [|? b' ? bs' Hb Hbs]; subst.
           apply IH in Hbs. unfold mret, result_ret. congruence.
      * split; [discriminate|]. intros H.
        inversion H as [|? b' ? bs' Hb Hbs]; subst. apply IH in Hbs. discriminate.
      * split; [discriminate|]. intros H.
        inversion H as [|? b' ? bs' Hb Hbs]; subst. apply IH in Hbs. discriminate.
    + split; [discriminate|]. intros H. inversion H; congruence.
    + split; [discriminate|]. intros H. inversion H; congruence.
Qed.

Lemma Forall2_right {A B} (P : A -> B -> Prop) (Q : B -> Prop) l l' :
  Forall2 P l l' -> (forall a b, P a b -> Q b) -> Forall Q l'.
Proof. intros H HPQ. induction H; constructor; eauto. Qed.

Section RuleFacts.
Variable findvars : tree -> list string.
Variable jme_evaluate : Scope -> tree -> result token.
Variable treeToJME : tree -> string.
Variable match_fuel : nat.

Lemma matchConditions_true conditions m scope :
  matchConditions jme_evaluate conditions m scope = OK true
  <-> Forall (condition_holds jme_evaluate m scope) conditions.
Proof.
  induction conditions as [|c cs IH]; cbn [matchConditions].
  - split; [constructor | reflexivity].
  - destruct (substituteTree c (match_scope m) false) as [c'| |] eqn:Hc; cbn.
    + destruct (jme_evaluate scope c') as [v| |] eqn:Hv.
      * destruct (value_eq_false v) eqn:Hf.
        -- split; [discriminate|]. intros H. inversion H as [|? ? Hh _]; subst.
           destruct Hh as (c2 & v2 & H1 & H2 & H3). congruence.
        -- rewrite IH. split.
           ++ intros H. constructor; [|exact H]. exists c', v. auto.
           ++ intros H. inversion H. assumption.
      * split; [discriminate|]. intros H. inversion H as [|? ? Hh _]; subst.
        destruct Hh as (c2 & v2 & H1 & H2 & H3). congruence.
      * split; [discriminate|]. intros H. inversion H as [|? ? Hh _]; subst.
        destruct Hh as (c2 & v2 & H1 & H2 & H3). congruence.
    + split; [discriminate|]. intros H. inversion H as [|? ? Hh _]; subst.
      destruct Hh as (c2 & v2 & H1 & H2 & H3). congruence.
    + split; [discriminate|]. intros H. inversion H as [|? ? Hh _]; subst.
      destruct Hh as (c2 & v2 & H1 & H2 & H3). congruence.
Qed.

(** the [catch] of [matchConditions] *)
Lemma matchConditions_caught before c after m scope c' e :
  Forall (condition_holds jme_evaluate m scope) before ->
  substituteTree c (match_scope m) false = OK c' ->
  jme_evaluate scope c' = Err e ->
  matchConditions jme_evaluate (before ++ c :: after) m scope = OK false.
Proof.
  intros Hb Hc He. induction Hb as [|b bs (b' & v & H1 & H2 & H3) _ IH].
  - cbn [matchConditions app]. rewrite Hc. cbn [mbind result_bind rbind].
    rewrite He. reflexivity.
  - cbn [matchConditions app]. rewrite H1. cbn [mbind result_bind rbind].
    rewrite H2, H3. exact IH.
Qed.

Lemma Rule_match_Some r exprTree scope m :
  Rule_match findvars jme_evaluate match_fuel r exprTree scope = OK (Some m)
  <-> matchTree findvars match_fuel (rule_tree r) exprTree false = OK (Some m)
      /\ Forall (condition_holds jme_evaluate m scope) (rule_conditions r).
Proof.
  unfold Rule_match. rewrite <- matchConditions_true.
  destruct (matchTree findvars match_fuel (rule_tree r) exprTree false)
    as [[m'|]| |]; cbn.
  - destruct (matchConditions jme_evaluate (rule_conditions r) m' scope)
      as [[|]| |] eqn:Hc; cbn.
    + split.
      * intros [= ->]. auto.
      * intros [[= ->] _]. reflexivity.
    + split; [discriminate|]. intros [[= ->] H]. congruence.
    + split; [discriminate|]. intros [[= ->] H]. congruence.
    + split; [discriminate|]. intros [[= ->] H]. congruence.
  - split; [discriminate|]. intros [[=] _].
  - split; [discriminate|]. intros [[=] _].
  - split; [discriminate|]. intros [[=] _].
Qed.


(** ** Simplification *)

Lemma first_rule_None rs exprTree scope :
  first_rule findvars jme_evaluate match_fuel rs exprTree scope = OK None
  <-> Forall (fun r => Rule_match findvars jme_evaluate match_fuel r
                         exprTree scope = OK None) rs.
Proof.
  induction rs as [|r rs IH]; cbn [first_rule].
  - split; [constructor | reflexivity].
  - destruct (Rule_match findvars jme_evaluate match_fuel r exprTree scope)
      as [[m|]| |] eqn:Hr; cbn [mbind result_bind rbind].
    + split; [discriminate|]. intros H. inversion H. congruence.
    + rewrite IH. split.
      * intros H. constructor; [exact Hr | exact H].
      * intros H. inversion H. assumption.
    + split; [discriminate|]. intros H. inversion H. congruence.
    + split; [discriminate|]. intros H. inversion H. congruence.
Qed.

Lemma mapM_fixed {A} (f : A -> result A) l :
  Forall (fun a => f a = OK a) l -> mapM f l = OK l.
Proof.
  intros H. apply mapM_OK_Forall2.
  induction H; constructor; assumption.
Qed.

Abbreviation loop := (simplify_loop findvars jme_evaluate treeToJME match_fuel).

(** one turn of the loop *)
Lemma simplify_loop_S fuel rs scope exprTree depth seen :
  loop (S fuel) rs scope exprTree depth seen
  = if is_eval_call exprTree then
      match tree_args exprTree with
      | Some (a :: _) =>
          k ← jme_evaluate scope a;
          loop fuel rs scope (leaf k) depth seen
      | _ => Err TypeError
      end
    else
      exprTree ←
        match exprTree with
        | Tree k b (Some args) =>
            args ← mapM (fun a => loop fuel rs (set_variables scope ∅) a 0%nat [])
                        args;
            OK (Tree k b (Some args))
        | Tree _ _ None => OK exprTree
        end;
      applied ← first_rule findvars jme_evaluate match_fuel rs exprTree scope;
      match applied with
      | None => OK exprTree
      | Some (r, m) =>
          exprTree ← substituteTree (rule_result r) (match_scope m) false;
          let depth := S depth in
          if (100 <? depth)%nat then
            let str := treeToJME exprTree in
            if bool_decide (str ∈ seen) then
              throw "jme.display.simplifyTree.stuck in a loop"
                    [("expr", AString str)]
            else loop fuel rs scope exprTree depth (seen ++ [str])
          else loop fuel rs scope exprTree depth seen
      end.
Proof. reflexivity. Qed.

Ltac bind_ok H x Hx :=
  match type of H with
  | (?m ≫= _) = OK _ =>
      destruct m as [x| |] eqn:Hx; cbn [mbind result_bind rbind] in H;
      [|discriminate H|discriminate H]
  end.

(** a run that returns a tree returns it with more fuel too *)
Lemma simplify_loop_more rs fuel :
  forall scope exprTree depth seen t,
    loop fuel rs scope exprTree depth seen = OK t ->
    loop (S fuel) rs scope exprTree depth seen = OK t.
Proof.
  induction fuel as [|fuel IH]; intros scope exprTree depth seen t H;
    [discriminate H|].
  rewrite simplify_loop_S in H. rewrite simplify_loop_S.
  destruct (is_eval_call exprTree).
  - destruct (tree_args exprTree) as [[|a ?]|]; try discriminate H.
    bind_ok H k Hk. cbn [mbind result_bind rbind]. apply IH. exact H.
  - bind_ok H e He.
    assert (He' :
      match exprTree with
      | Tree k b (Some args) =>
          args ← mapM (fun a => loop (S fuel) rs (set_variables scope ∅) a 0%nat [])
                      args;
          OK (Tree k b (Some args))
      | Tree _ _ None => OK exprTree
      end = OK e).
    { destruct exprTree as [k b [args|]]; [|exact He].
      bind_ok He args' Hargs. injection He as <-.
      apply mapM_OK_Forall2 in Hargs.
      assert (Hargs' : mapM (fun a => loop (S fuel) rs (set_variables scope ∅) a 0%nat [])
                            args = OK args').
      { apply mapM_OK_Forall2.
        eapply Forall2_impl; [exact Hargs|].
        intros x y Hx. apply IH. exact Hx. }
      rewrite Hargs'. reflexivity. }
    rewrite He'. cbn [mbind result_bind rbind].
    bind_ok H applied Ha. cbn [mbind result_bind rbind].
    destruct applied as [[r m]|]; [|exact H].
    bind_ok H e' He2. cbn [mbind result_bind rbind].
    cbv zeta in *.
    destruct (100 <? S depth)%nat.
    + destruct (bool_decide (treeToJME e' ∈ seen)); [discriminate H|].
      apply IH. exact H.
    + apply IH. exact H.
Qed.

(** what a run returns is normal, and a run on it returns it *)
Lemma simplify_loop_fixed rs scope :
  set_variables scope ∅ = scope ->
  forall fuel exprTree depth seen t,
    loop fuel rs scope exprTree depth seen = OK t ->
    normal findvars jme_evaluate match_fuel rs scope t
    /\ forall depth' seen', loop fuel rs scope t depth' seen' = OK t.
Proof.
  intros Hscope.
  induction fuel as [|fuel IH]; intros exprTree depth seen t H;
    [discriminate H|].
  assert (Hrec : forall e d s, loop fuel rs scope e d s = OK t ->
            normal findvars jme_evaluate match_fuel rs scope t
            /\ forall depth' seen', loop (S fuel) rs scope t depth' seen' = OK t).
  { intros e d s He. destruct (IH _ _ _ _ He) as [Hn Hf].
    split; [exact Hn|]. intros d' s'. apply simplify_loop_more, Hf. }
  rewrite simplify_loop_S in H.
  destruct (is_eval_call exprTree) eqn:Heval.
  - destruct (tree_args exprTree) as [[|a ?]|]; try discriminate H.
    bind_ok H k Hk. exact (Hrec _ _ _ H).
  - bind_ok H e He. bind_ok H applied Ha.
    destruct applied as [[r m]|].
    + bind_ok H e' He2. cbv zeta in H.
      destruct (100 <? S depth)%nat.
      * destruct (bool_decide (treeToJME e' ∈ seen)); [discriminate H|].
        exact (Hrec _ _ _ H).
      * exact (Hrec _ _ _ H).
    + injection H as <-.
      destruct exprTree as [k b [args|]].
      * bind_ok He args' Hargs. injection He as <-.
        rewrite Hscope in Hargs. apply mapM_OK_Forall2 in Hargs.
        assert (Hall : Forall (fun a => normal findvars jme_evaluate match_fuel rs scope a
                         /\ loop fuel rs scope a 0%nat [] = OK a) args').
        { eapply Forall2_right; [exact Hargs|]. intros a a' Ha'.
          destruct (IH _ _ _ _ Ha') as [Hn Hf]. split; [exact Hn | apply Hf]. }
        split.
        -- constructor.
           ++ exact Heval.
           ++ intros l [= <-]. eapply Forall_impl; [exact Hall|].
              intros a [Hn _]. exact Hn.
           ++ apply first_rule_None. exact Ha.
        -- intros depth' seen'. rewrite simplify_loop_S.
           change (is_eval_call (Tree k b (Some args')))
             with (is_eval_call (Tree k b (Some args))).
           rewrite Heval, Hscope.
           rewrite (mapM_fixed (fun a => loop fuel rs scope a 0%nat []) args').
           ++ cbn [mbind result_bind rbind]. rewrite Ha. reflexivity.
           ++ eapply Forall_impl; [exact Hall|]. intros a [_ Hf]. exact Hf.
      * injection He as <-. split.
        -- constructor.
           ++ exact Heval.
           ++ intros l [=].
           ++ apply first_rule_None. exact Ha.
        -- intros depth' seen'. rewrite simplify_loop_S, Heval.
           cbn [mbind result_bind rbind]. rewrite Ha. reflexivity.
Qed.


End RuleFacts.

(** *** Examples *)



Example simplify_plus_zero :
  simplifyTree no_findvars small_evaluate no_treeToJME 5 5
    (binary "+" (variable "y") (numeral 0)) plus_zero_ruleset empty_scope
  = OK (variable "y").
Proof. vm_compute. reflexivity. Qed.


End SimplifyFacts.

(** * Facts about the resolution of variables *)

Module VariablesFacts.
Import MatcherFacts.

Lemma obj_get_key {A} (m : list (string * A)) x v :
  obj_get m x = Some v -> x ∈ map fst m.
Proof.
  induction m as [|[k y] m IH]; cbn; [discriminate|].
  destruct (String.eqb k x) eqn:E.
  - apply String.eqb_eq in E. subst. intros _. left.
  - intros H. right. apply IH. exact H.
Qed.

Lemma getVariable_write_other (scope : Scope) name v x :
  x <> name ->
  getVariable (write_variable scope name v) x = getVariable scope x.
Proof.
  intros Hne. destruct scope as [vs fs rs ds p]. cbn.
  rewrite lookup_insert_ne by congruence. reflexivity.
Qed.

Section Resolver.
Variable jme_evaluate : Scope -> tree -> result token.
Variable todo : list (string * definition).

Lemma computeVariable_S fuel name scope path :
  computeVariable jme_evaluate (S fuel) name todo scope path
  = match getVariable scope name with
    | Some _ => OK (variables scope !! name, scope)
    | None =>
        if bool_decide (name ∈ path) then Err (circular_reference name path)
        else
          match obj_get todo name with
          | None =>
              throw "jme.variables.variable not defined" [("name", AString name)]
          | Some v =>
              scope ← dependencies
                        (fun x sc p => computeVariable jme_evaluate fuel x todo sc p)
                        name path (def_vars v) scope;
              match def_tree v with
              | None =>
                  throw "jme.variables.empty definition" [("name", AString name)]
              | Some t =>
                  match jme_evaluate scope t with
                  | OK k =>
                      OK (Some (VTok k), write_variable scope name (VTok k))
                  | Err e =>
                      Err (Error "jme.variables.error evaluating variable"
                                 [("name", AString name)] (Some e))
                  | Fuel => Fuel
                  end
              end
          end
    end.
Proof. reflexivity. Qed.

(** ** The recursion ends *)

Lemma rethrow_dependency_Err {A} x e : exists e', @rethrow_dependency A x e = Err e'.
Proof.
  unfold rethrow_dependency. destruct e as [msg args cause|]; [|eauto].
  destruct (_ || _); eauto.
Qed.

Lemma dependencies_not_Fuel computeFn name path :
  (forall x sc, computeFn x sc (name :: path) <> Fuel) ->
  forall vars scope, dependencies computeFn name path vars scope <> Fuel.
Proof.
  intros H. induction vars as [|x vars IH]; intros scope; cbn; [discriminate|].
  destruct (variables scope !! x); [apply IH|].
  destruct (computeFn x scope (name :: path)) as [[r sc']|e|] eqn:E.
  - apply IH.
  - destruct (@rethrow_dependency_Err Scope x e) as [e' ->]. discriminate.
  - exfalso. exact (H _ _ E).
Qed.

Lemma path_bound (path : list string) :
  NoDup path -> (forall x, x ∈ path -> x ∈ map fst todo) ->
  (length path <= length todo)%nat.
Proof.
  intros Hnd Hin. rewrite <- (length_map fst todo).
  apply submseteq_length, NoDup_submseteq; assumption.
Qed.

Lemma computeVariable_not_Fuel :
  (forall s t, jme_evaluate s t <> Fuel) ->
  forall fuel name scope path,
    NoDup path -> (forall x, x ∈ path -> x ∈ map fst todo) ->
    (length todo < fuel + length path)%nat ->
    computeVariable jme_evaluate fuel name todo scope path <> Fuel.
Proof.
  intros Hev. induction fuel as [|fuel IH]; intros name scope path Hnd Hin Hlen.
  - pose proof (path_bound path Hnd Hin). cbn in Hlen. lia.
  - rewrite computeVariable_S.
    destruct (getVariable scope name); [discriminate|].
    destruct (bool_decide (name ∈ path)) eqn:Hp; [discriminate|].
    apply bool_decide_eq_false in Hp.
    destruct (obj_get todo name) as [v|] eqn:Hv; [|discriminate].
    destruct (dependencies _ name path (def_vars v) scope) as [sc| |] eqn:Hd;
      cbn [mbind result_bind rbind]; [|discriminate|].
    + destruct (def_tree v); [|discriminate].
      destruct (jme_evaluate sc t) eqn:Ht; try discriminate.
      exfalso. exact (Hev _ _ Ht).
    + exfalso. revert Hd. apply dependencies_not_Fuel.
      intros x sc. apply IH.
      * apply NoDup_cons. split; assumption.
      * intros y [->|Hy]%elem_of_cons; [|apply Hin, Hy].
        eapply obj_get_key. exact Hv.
      * cbn [length]. lia.
Qed.

(** ** A cycle is never resolved *)

Section Cycle.
Variable cycle : string -> Prop.

(** every name of the cycle has a definition that uses a name of the
    cycle *)
Hypothesis cycle_closed :
  forall x, cycle x ->
    exists v y, obj_get todo x = Some v /\ y ∈ def_vars v /\ cycle y.

Lemma dependencies_on_cycle computeFn name path :
  (forall x sc r sc',
     unbound_in cycle sc -> computeFn x sc (name :: path) = OK (r, sc') ->
     ~ cycle x /\ unbound_in cycle sc') ->
  forall vars scope sc',
    unbound_in cycle scope ->
    dependencies computeFn name path vars scope = OK sc' ->
    Forall (fun x => ~ cycle x) vars /\ unbound_in cycle sc'.
Proof.
  intros H. induction vars as [|x vars IH]; intros scope sc' Hu; cbn.
  - intros [= <-]. split; [constructor | exact Hu].
  - destruct (variables scope !! x) eqn:Hx.
    + intros Hd. destruct (IH _ _ Hu Hd) as [Hall Hu'].
      split; [|exact Hu']. constructor; [|exact Hall].
      intros Hc. destruct (Hu x Hc) as [_ Hn]. congruence.
    + destruct (computeFn x scope (name :: path)) as [[r sc1]|e|] eqn:E.
      * intros Hd. destruct (H _ _ _ _ Hu E) as [Hnc Hu1].
        destruct (IH _ _ Hu1 Hd) as [Hall Hu'].
        split; [|exact Hu']. constructor; assumption.
      * destruct (@rethrow_dependency_Err Scope x e) as [e' ->]. discriminate.
      * discriminate.
Qed.

Lemma computeVariable_on_cycle :
  forall fuel name scope path r sc',
    unbound_in cycle scope ->
    computeVariable jme_evaluate fuel name todo scope path = OK (r, sc') ->
    ~ cycle name /\ unbound_in cycle sc'.
Proof.
  induction fuel as [|fuel IH]; intros name scope path r sc' Hu H;
    [discriminate H|].
  rewrite computeVariable_S in H.
  destruct (getVariable scope name) eqn:Hg.
  - injection H as <- <-. split; [|exact Hu].
    intros Hc. destruct (Hu name Hc) as [Hn _]. congruence.
  - destruct (bool_decide (name ∈ path)); [discriminate H|].
    destruct (obj_get todo name) as [v|] eqn:Hv; [|discriminate H].
    destruct (dependencies _ name path (def_vars v) scope) as [sc| |] eqn:Hd;
      cbn [mbind result_bind rbind] in H; try discriminate H.
    destruct (dependencies_on_cycle _ name path
                (fun x s r0 s' => IH x s (name :: path) r0 s') _ _ _ Hu Hd)
      as [Hall Hu1].
    assert (Hnc : ~ cycle name).
    { intros Hc. destruct (cycle_closed name Hc) as (v' & y & Hv' & Hy & Hcy).
      assert (v' = v) as -> by congruence.
      rewrite Forall_forall in Hall. exact (Hall y Hy Hcy). }
    destruct (def_tree v); [|discriminate H].
    destruct (jme_evaluate sc t); try discriminate H.
    injection H as <- <-. split; [exact Hnc|].
    intros x Hc. destruct (Hu1 x Hc) as [Hg1 Hv1].
    assert (x <> name) by (intros ->; exact (Hnc Hc)).
    split.
    + rewrite getVariable_write_other by assumption. exact Hg1.
    + unfold write_variable, set_variables. cbn.
      rewrite lookup_insert_ne by congruence. exact Hv1.
Qed.

End Cycle.

(** ** The error of a mapping without other faults *)

Section Sound.

(** every definition has a tree, and uses defined names only *)
Hypothesis todo_defined :
  forall x v, obj_get todo x = Some v ->
    def_tree v <> None /\ forall y, y ∈ def_vars v -> is_Some (obj_get todo y).

(** the evaluation of a definition raises nothing *)
Hypothesis evaluate_returns : forall s t, exists k, jme_evaluate s t = OK k.

Lemma dependencies_error computeFn name path v :
  obj_get todo name = Some v ->
  (forall x sc e,
     x ∈ def_vars v -> computeFn x sc (name :: path) = Err e ->
     reports todo (name :: path) e) ->
  forall vars scope e,
    (forall y, y ∈ vars -> y ∈ def_vars v) ->
    dependencies computeFn name path vars scope = Err e ->
    reports todo (name :: path) e.
Proof.
  intros Hv H. induction vars as [|x vars IH]; intros scope e Hsub; cbn;
    [discriminate|].
  assert (Hsub' : forall y, y ∈ vars -> y ∈ def_vars v).
  { intros y Hy. apply Hsub. right. exact Hy. }
  destruct (variables scope !! x); [apply IH, Hsub'|].
  destruct (computeFn x scope (name :: path)) as [[r sc1]|e0|] eqn:E.
  - apply IH, Hsub'.
  - assert (Hx : x ∈ def_vars v) by (apply Hsub; left).
    destruct (H _ _ _ Hx E) as (n & p & -> & Hn & Hp & Hs).
    cbn. intros [= <-]. exists n, p. auto.
  - discriminate.
Qed.

Lemma computeVariable_error :
  forall fuel name scope path e,
    is_Some (obj_get todo name) ->
    in_progress todo name path ->
    computeVariable jme_evaluate fuel name todo scope path = Err e ->
    exists n p,
      e = circular_reference n p /\ n ∈ p /\ in_progress todo n p
      /\ (p = path \/ (name :: path) `suffix_of` p).
Proof.
  induction fuel as [|fuel IH]; intros name scope path e [v Hv] Hin H;
    [discriminate H|].
  rewrite computeVariable_S in H.
  destruct (getVariable scope name); [discriminate H|].
  destruct (bool_decide (name ∈ path)) eqn:Hp.
  - apply bool_decide_eq_true in Hp. injection H as <-.
    exists name, path. auto.
  - rewrite Hv in H.
    destruct (dependencies _ name path (def_vars v) scope) as [sc|e0|] eqn:Hd;
      cbn [mbind result_bind rbind] in H; try discriminate H.
    + destruct (todo_defined _ _ Hv) as [Ht _].
      destruct (def_tree v) as [t|]; [|congruence].
      destruct (evaluate_returns sc t) as [k Hk]. rewrite Hk in H. discriminate H.
    + injection H as <-.
      assert (Hr : reports todo (name :: path) e0).
      { eapply dependencies_error; [exact Hv| |intros y Hy; exact Hy|exact Hd].
        intros x sc e Hx Hc.
        destruct (IH x sc (name :: path) e) as (n & p & -> & Hn & Hp' & Hs);
          [| |exact Hc|].
        - apply (proj2 (todo_defined _ _ Hv)), Hx.
        - cbn. split; [exists v; auto | exact Hin].
        - exists n, p. repeat split; try assumption.
          destruct Hs as [->|Hs]; [reflexivity|].
          eapply suffix_cons_l. exact Hs. }
      destruct Hr as (n & p & -> & Hn & Hp' & Hs).
      exists n, p. auto.
Qed.

End Sound.


End Resolver.

(** *** The example of two variables that use each other *)

Lemma a_and_b_circular jme_evaluate fuel :
  computeVariable jme_evaluate (S (S (S fuel))) "a" a_and_b empty_scope []
  = Err (circular_reference "a" ["b"; "a"]).
Proof. reflexivity. Qed.


(** A cycle that is reached after a name without a definition: the error
    is that of the missing definition. *)
Example cycle_behind_undefined :
  computeVariable always_zero 3 "a"
    [("a", uses (variable "b") ["zz"; "b"]); ("b", uses (variable "a") ["a"])]
    empty_scope []
  = Err (Error "jme.variables.variable not defined" [("name", AString "zz")] None).
Proof. reflexivity. Qed.

Lemma a_and_b_closed x :
  a_or_b x ->
  exists v y, obj_get a_and_b x = Some v /\ y ∈ def_vars v /\ a_or_b y.
Proof.
  intros [->| ->].
  - exists (uses (variable "b") ["b"]), "b". repeat split; [left | right; reflexivity].
  - exists (uses (variable "a") ["a"]), "a". repeat split; [left | left; reflexivity].
Qed.

Lemma a_and_b_defined x v :
  obj_get a_and_b x = Some v ->
  def_tree v <> None /\ forall y, y ∈ def_vars v -> is_Some (obj_get a_and_b y).
Proof.
  unfold a_and_b. cbn [obj_get].
  destruct (String.eqb "a" x); [|destruct (String.eqb "b" x)];
    intros [= <-]; (split; [discriminate|]); cbn;
    intros y ->%list_elem_of_singleton; cbn; eauto.
Qed.


(** ** Spellings of a name *)

Lemma lower_char_idempotent c : lower_char (lower_char c) = lower_char c.
Proof. destruct c as [[] [] [] [] [] [] [] []]; reflexivity. Qed.

Lemma toLowerCase_idempotent s : toLowerCase (toLowerCase s) = toLowerCase s.
Proof.
  induction s as [|c s IH]; cbn; [reflexivity|].
  rewrite lower_char_idempotent, IH. reflexivity.
Qed.

Lemma setVariable_folded {V} (scope : ScopeOf V) name v :
  folded scope -> folded (setVariable scope name v).
Proof.
  intros H x. unfold setVariable, set_variables. cbn.
  destruct (decide (toLowerCase name = x)) as [<-|Hne].
  - intros _. apply toLowerCase_idempotent.
  - rewrite lookup_insert_ne by exact Hne. apply H.
Qed.

Lemma new_Scope_folded {V} parent (ex : extras V) : folded (new_Scope parent ex).
Proof.
  unfold new_Scope.
  set (this := {| variables := ∅; functions := ∅; resolved_functions := ∅;
                  deleted_variables := ∅; parent := parent |}).
  assert (H0 : folded this).
  { intros x. cbn. rewrite lookup_empty. intros [? [=]]. }
  assert (H1 : folded match ex_variables ex with
                      | Some vs => fold_left (fun s '(x, v) => setVariable s x v) vs this
                      | None => this
                      end).
  { destruct (ex_variables ex) as [vs|]; [|exact H0].
    revert H0. generalize this. clear.
    induction vs as [|[x v] vs IH]; intros s Hs; cbn; [exact Hs|].
    apply IH, setVariable_folded, Hs. }
  destruct (ex_functions ex); [|exact H1].
  intros x. cbn. apply H1.
Qed.

(** C8 (failing inputs).  The resolver run on [{A: 1, a: 2}] leaves both
    [A] and [a] among the variables of the scope, and
    [scope.evaluate(expr,{X: 1, x: 2})] works in a scope that has both [X]
    and [x]; [setVariable] and the constructor write the name in lower
    case, these two assign to [scope.variables[name]] as the name is
    given. *)
Theorem C8_two_spellings_of_a_name :
  match makeVariables no_findvars small_evaluate 2
          upper_and_lower empty_scope None with
  | OK (scope, _) =>
      variables scope !! "A" = Some (VTok (TNum (Rat 1)))
      /\ variables scope !! "a" = Some (VTok (TNum (Rat 2)))
  | _ => False
  end
  /\ variables given_X_and_x !! "X" = Some (VTok (TNum (Rat 1)))
  /\ variables given_X_and_x !! "x" = Some (VTok (TNum (Rat 2)))
  /\ ~ folded given_X_and_x.
Proof.
  split; [vm_compute; split; reflexivity|].
  split; [reflexivity|]. split; [reflexivity|].
  intros H. specialize (H "X" (ex_intro _ _ eq_refl)). discriminate H.
Qed.

(** The value given for [X] is not seen by the expression [X]: a name is
    read in lower case. *)
Example given_X_is_not_read :
  Scope_evaluate no_scoped no_contentsubvars 2
    empty_scope (variable "X") (Some [("X", JNumber (Rat 1))])
  = OK (TName "x" None true).
Proof. reflexivity. Qed.

End VariablesFacts.

(** * Facts about evaluation on the store of objects *)

Module StoreFacts.
Import Store.

Lemma extends_refl h : no_bound h -> extends h h.
Proof. intros H. repeat split; auto. Qed.

Lemma extends_trans h1 h2 h3 : extends h1 h2 -> extends h2 h3 -> extends h1 h3.
Proof.
  intros (L1 & _ & E1) (L2 & N2 & E2). repeat split; [lia | exact N2 |].
  intros l Hl _. rewrite E2 by (try lia; discriminate). apply E1; [lia | discriminate].
Qed.

Lemma unchanged_but_extends a h1 h2 h3 :
  unchanged_but a h1 h2 -> extends h2 h3 -> unchanged_but a h1 h3.
Proof.
  intros (L1 & _ & E1) (L2 & N2 & E2). repeat split; [lia | exact N2 |].
  intros l Hl Ha. rewrite E2 by (try lia; discriminate). apply E1; assumption.
Qed.

Lemma unchanged_but_trans a h1 h2 h3 :
  unchanged_but a h1 h2 -> unchanged_but a h2 h3 -> unchanged_but a h1 h3.
Proof.
  intros (L1 & _ & E1) (L2 & N2 & E2). repeat split; [lia | exact N2 |].
  intros l Hl Ha. rewrite E2 by (try lia; assumption). apply E1; assumption.
Qed.

Lemma no_bound_app h o : no_bound h -> fresh_object o -> no_bound (h ++ [o]).
Proof.
  intros Hh Ho l k b args Hl.
  destruct (decide (l < length h)%nat) as [Hlt|Hge].
  - rewrite lookup_app_l in Hl by exact Hlt. exact (Hh _ _ _ _ Hl).
  - rewrite lookup_app_r in Hl by lia.
    destruct (l - length h)%nat; cbn in Hl; [|discriminate Hl].
    injection Hl as ->. exact Ho.
Qed.

Lemma extends_alloc h o : no_bound h -> fresh_object o -> extends h (h ++ [o]).
Proof.
  intros Hh Ho. repeat split.
  - rewrite length_app. lia.
  - apply no_bound_app; assumption.
  - intros l Hl _. apply lookup_app_l. exact Hl.
Qed.

Lemma array_write_length a i r h : length (array_write a i r h) = length h.
Proof.
  unfold array_write. destruct (h !! a) as [[|]|]; try reflexivity.
  apply length_insert.
Qed.

Lemma array_write_other a i r h l :
  l <> a -> array_write a i r h !! l = h !! l.
Proof.
  intros Hne. unfold array_write. destruct (h !! a) as [[|]|]; try reflexivity.
  apply list_lookup_insert_ne. congruence.
Qed.

Lemma array_write_no_bound a i r h : no_bound h -> no_bound (array_write a i r h).
Proof.
  intros Hh l k b args Hl. unfold array_write in Hl.
  destruct (h !! a) as [[|elems]|] eqn:Ha; try exact (Hh _ _ _ _ Hl).
  destruct (decide (l = a)) as [->|Hne].
  - rewrite list_lookup_insert_eq in Hl by (eapply lookup_lt_Some; exact Ha).
    discriminate Hl.
  - rewrite list_lookup_insert_ne in Hl by congruence. exact (Hh _ _ _ _ Hl).
Qed.

Lemma unchanged_but_write a i r h :
  no_bound h -> unchanged_but (Some a) h (array_write a i r h).
Proof.
  intros Hh. repeat split.
  - rewrite array_write_length. lia.
  - apply array_write_no_bound. exact Hh.
  - intros l _ Hl. apply array_write_other. congruence.
Qed.

Lemma extends_unchanged_but a h h' : extends h h' -> unchanged_but a h h'.
Proof.
  intros (L & N & E). repeat split; try assumption.
  intros l Hl _. apply E; [exact Hl | discriminate].
Qed.

(** what is unchanged but for an object made later is unchanged *)
Lemma unchanged_but_later a h0 h h' :
  extends h0 h -> (length h0 <= a)%nat -> unchanged_but (Some a) h h' ->
  extends h0 h'.
Proof.
  intros (L1 & _ & E1) Ha (L2 & N2 & E2). repeat split; [lia | exact N2 |].
  intros l Hl _. rewrite E2.
  - apply E1; [exact Hl | discriminate].
  - lia.
  - intros [= ->]. lia.
Qed.

Lemma extends_prefix h h' : extends h h' -> h `prefix_of` h'.
Proof.
  intros (L & _ & E). exists (drop (length h) h').
  apply list_eq. intros i.
  destruct (decide (i < length h)%nat) as [Hlt|Hge].
  - rewrite lookup_app_l by exact Hlt. apply E; [exact Hlt | discriminate].
  - rewrite lookup_app_r by lia. rewrite lookup_drop. f_equal. lia.
Qed.

(** ** The loops *)

Lemma substitute_args_unchanged sub a' :
  (forall c h r h', no_bound h -> sub c h = (r, h') -> extends h h') ->
  forall ps h r h',
    no_bound h -> substitute_args sub a' ps h = (r, h') ->
    unchanged_but (Some a') h h'.
Proof.
  intros Hsub. induction ps as [|i ps IH]; intros h r h' Hh H; cbn in H.
  - injection H as <- <-. apply extends_unchanged_but, extends_refl, Hh.
  - destruct (array_read a' h) as [elems|];
      [|injection H as <- <-; apply extends_unchanged_but, extends_refl, Hh].
    destruct (elems !! i) as [[t|c]|];
      try (injection H as <- <-; apply extends_unchanged_but, extends_refl, Hh).
    destruct (sub c h) as [r1 h1] eqn:Hc.
    pose proof (Hsub _ _ _ _ Hh Hc) as He.
    destruct r1 as [c'|e|];
      try (injection H as <- <-; apply extends_unchanged_but, He).
    eapply unchanged_but_trans; [apply extends_unchanged_but, He|].
    eapply unchanged_but_trans; [|eapply IH; [|exact H]].
    + apply unchanged_but_write. apply He.
    + apply array_write_no_bound. apply He.
Qed.

Lemma evaluated_unchanged ev store a :
  (forall c h r h', no_bound h -> ev c h = (r, h') -> extends h h') ->
  forall n i h r h',
    no_bound h -> evaluated ev store a i n h = (r, h') ->
    unchanged_but (Some a) h h'.
Proof.
  intros Hev. induction n as [|n IH]; intros i h r h' Hh H; cbn in H.
  - injection H as <- <-. apply extends_unchanged_but, extends_refl, Hh.
  - destruct (array_read a h) as [elems|];
      [|injection H as <- <-; apply extends_unchanged_but, extends_refl, Hh].
    destruct (elems !! i) as [[t|c]|];
      try (injection H as <- <-; apply extends_unchanged_but, extends_refl, Hh).
    destruct (ev c h) as [r1 h1] eqn:Hc.
    pose proof (Hev _ _ _ _ Hh Hc) as He.
    destruct r1 as [v|e|];
      try (injection H as <- <-; apply extends_unchanged_but, He).
    destruct (evaluated ev store a (S i) n
                (if store then array_write a i (RTok v) h1 else h1))
      as [r2 h2] eqn:Hrest.
    injection H as <- <-.
    eapply unchanged_but_trans; [apply extends_unchanged_but, He|].
    destruct store.
    + eapply unchanged_but_trans; [|eapply IH; [|exact Hrest]].
      * apply unchanged_but_write. apply He.
      * apply array_write_no_bound. apply He.
    + eapply IH; [|exact Hrest]. apply He.
Qed.

Lemma entries_extends ev :
  (forall c h r h', no_bound h -> ev c h = (r, h') -> extends h h') ->
  forall kps value h r h',
    no_bound h -> entries ev kps value h = (r, h') -> extends h h'.
Proof.
  intros Hev. induction kps as [|kp kps IH]; intros value h r h' Hh H; cbn in H.
  - injection H as <- <-. apply extends_refl, Hh.
  - destruct kp as [t|kp]; [injection H as <- <-; apply extends_refl, Hh|].
    destruct (h !! kp) as [[k b args|]|];
      try (injection H as <- <-; apply extends_refl, Hh).
    destruct k; try (injection H as <- <-; apply extends_refl, Hh).
    destruct args as [ka|]; [|injection H as <- <-; apply extends_refl, Hh].
    destruct (array_read ka h) as [[|[t|c] ?]|];
      try (injection H as <- <-; apply extends_refl, Hh).
    destruct (ev c h) as [r1 h1] eqn:Hc.
    pose proof (Hev _ _ _ _ Hh Hc) as He.
    destruct r1 as [v|e|]; try (injection H as <- <-; exact He).
    eapply extends_trans; [exact He|]. eapply IH; [|exact H]. apply He.
Qed.

Lemma array_read_extends a h h' e :
  extends h h' -> array_read a h = Some e -> array_read a h' = Some e.
Proof.
  intros (_ & _ & E) H. unfold array_read in *.
  destruct (h !! a) as [o|] eqn:Ha; [|discriminate H].
  rewrite E; [rewrite Ha; exact H| |discriminate].
  eapply lookup_lt_Some. exact Ha.
Qed.

Lemma array_read_write a i r h e :
  array_read a h = Some e ->
  array_read a (array_write a i r h) = Some (<[i := r]> e).
Proof.
  unfold array_read, array_write. intros H.
  destruct (h !! a) as [[|elems]|] eqn:Ha; try discriminate H.
  injection H as ->.
  rewrite list_lookup_insert_eq by (eapply lookup_lt_Some; exact Ha).
  reflexivity.
Qed.

(** the copy of the argument array stays an array of the same length *)
Lemma substitute_args_array sub a' :
  (forall c h r h', no_bound h -> sub c h = (r, h') -> extends h h') ->
  forall ps h r h' e,
    no_bound h -> array_read a' h = Some e ->
    substitute_args sub a' ps h = (r, h') ->
    exists e', array_read a' h' = Some e' /\ length e' = length e.
Proof.
  intros Hsub. induction ps as [|i ps IH]; intros h r h' e Hh He H; cbn in H.
  - injection H as <- <-. eauto.
  - rewrite He in H.
    destruct (e !! i) as [[t|c]|]; try (injection H as <- <-; eauto).
    destruct (sub c h) as [r1 h1] eqn:Hc.
    pose proof (Hsub _ _ _ _ Hh Hc) as H1.
    pose proof (array_read_extends _ _ _ _ H1 He) as He1.
    destruct r1 as [c'|err|]; try (injection H as <- <-; eauto).
    destruct (IH _ _ _ _ (array_write_no_bound _ _ _ _ (proj1 (proj2 H1)))
                (array_read_write _ i (RNode c') _ _ He1) H) as (e' & He' & Hlen).
    exists e'. split; [exact He'|]. rewrite Hlen. apply length_insert.
Qed.

(** With [store] set, the loop leaves the results in the array. *)
Lemma evaluated_stores ev a :
  (forall c h r h', no_bound h -> ev c h = (r, h') -> extends h h') ->
  forall n i h vs h' e,
    no_bound h -> array_read a h = Some e ->
    evaluated ev true a i n h = (OK vs, h') ->
    exists e',
      array_read a h' = Some e' /\ length e' = length e /\ length vs = n
      /\ (forall j, (j < i)%nat -> e' !! j = e !! j)
      /\ (forall j, (j < n)%nat -> e' !! (i + j)%nat = RTok <$> vs !! j).
Proof.
  intros Hev. induction n as [|n IH]; intros i h vs h' e Hh He H; cbn in H.
  - injection H as <- <-. exists e. repeat split; auto. intros j Hj. lia.
  - rewrite He in H.
    destruct (e !! i) as [[t|c]|] eqn:Hi; try discriminate H.
    destruct (ev c h) as [r1 h1] eqn:Hc.
    pose proof (Hev _ _ _ _ Hh Hc) as H1.
    pose proof (array_read_extends _ _ _ _ H1 He) as He1.
    destruct r1 as [v|err|]; try discriminate H.
    destruct (evaluated ev true a (S i) n (array_write a i (RTok v) h1))
      as [r2 h2] eqn:Hrest.
    destruct r2 as [vs'|err|]; try discriminate H.
    cbn in H. injection H as <- <-.
    destruct (IH _ _ _ _ _ (array_write_no_bound _ _ _ _ (proj1 (proj2 H1)))
                (array_read_write _ i (RTok v) _ _ He1) Hrest)
      as (e' & He' & Hlen & Hvs & Hlow & Hhigh).
    assert (Hi_lt : (i < length e)%nat) by (eapply lookup_lt_Some; exact Hi).
    exists e'. split; [exact He'|]. split; [rewrite Hlen; apply length_insert|].
    split; [cbn; lia|]. split.
    + intros j Hj. rewrite Hlow by lia. apply list_lookup_insert_ne. lia.
    + intros [|j] Hj.
      * replace (i + 0)%nat with i by lia. rewrite Hlow by lia.
        rewrite list_lookup_insert_eq by exact Hi_lt. reflexivity.
      * replace (i + S j)%nat with (S i + j)%nat by lia. apply Hhigh. lia.
Qed.

Lemma evaluated_stores_all ev a :
  (forall c h r h', no_bound h -> ev c h = (r, h') -> extends h h') ->
  forall h vs h' e,
    no_bound h -> array_read a h = Some e ->
    evaluated ev true a 0 (length e) h = (OK vs, h') ->
    array_read a h' = Some (RTok <$> vs) /\ length vs = length e.
Proof.
  intros Hev h vs h' e Hh He H.
  destruct (evaluated_stores ev a Hev _ _ _ _ _ _ Hh He H)
    as (e' & He' & Hlen & Hvs & _ & Hhigh).
  split; [|exact Hvs]. rewrite He'. f_equal.
  apply list_eq. intros j. rewrite list_lookup_fmap.
  destruct (decide (j < length e)%nat) as [Hj|Hj].
  - exact (Hhigh j Hj).
  - rewrite !lookup_ge_None_2; [reflexivity|lia|lia].
Qed.

(** ** Substitution *)

Ltac same_store H Hh :=
  injection H as <- <-; split; [apply extends_refl, Hh | try discriminate].

Lemma substituteTree_extends :
  forall fuel scope allowUnbound l h r h',
    tokens_only scope -> no_bound h ->
    substituteTree fuel scope allowUnbound l h = (r, h') ->
    extends h h' /\ forall l', r = OK l' -> returned_node h h' l'.
Proof.
  induction fuel as [|fuel IH]; intros scope allowUnbound l h r h' Hs Hh H.
  - cbn in H. same_store H Hh.
  - cbn [substituteTree] in H.
    destruct (h !! l) as [[k b args|elems]|] eqn:Hl; try same_store H Hh.
    assert (b = false) as -> by exact (Hh _ _ _ _ Hl).
    destruct args as [a|].
    + destruct (array_read a h) as [elems|]; [|same_store H Hh].
      unfold alloc in H. cbn beta iota zeta in H.
      set (h1 := h ++ [OArray elems]) in *.
      set (h2 := h1 ++ [ONode k false (Some (length h))]) in *.
      assert (H1 : extends h h1) by (apply extends_alloc; [exact Hh | exact I]).
      assert (H2 : extends h1 h2)
        by (apply extends_alloc; [apply H1 | reflexivity]).
      assert (Hnode : h2 !! length h1 = Some (ONode k false (Some (length h)))).
      { unfold h2. rewrite lookup_app_r by lia.
        replace (length h1 - length h1)%nat with 0%nat by lia. reflexivity. }
      destruct (substitute_args (substituteTree fuel scope allowUnbound)
                  (length h) (substituted_positions k (length elems)) h2)
        as [r1 h3] eqn:Hloop.
      assert (H3 : unchanged_but (Some (length h)) h2 h3).
      { eapply substitute_args_unchanged; [|apply H2|exact Hloop].
        intros c h0 r0 h0' Hh0 Hc. exact (proj1 (IH _ _ _ _ _ _ Hs Hh0 Hc)). }
      assert (H13 : extends h h3).
      { eapply unchanged_but_later; [|reflexivity|exact H3].
        eapply extends_trans; eassumption. }
      assert (Hlen1 : length h1 = S (length h)).
      { unfold h1. rewrite length_app. cbn. lia. }
      assert (Hlen2 : length h2 = S (length h1)).
      { unfold h2. rewrite length_app. cbn. lia. }
      destruct r1 as [u|e|]; injection H as <- <-; (split; [exact H13|]);
        try discriminate.
      intros l' [= <-]. exists k, (Some (length h)). split.
      * destruct H3 as (_ & _ & E3). rewrite E3; [exact Hnode | lia |].
        intros [= Heq]. lia.
      * intros a0 [= <-]. lia.
    + destruct k;
        try (injection H as <- <-; split; [apply extends_refl, Hh|];
             intros l' [= <-]; eexists _, None; split; [exact Hl | discriminate]).
      destruct (getVariable scope (toLowerCase name)) as [[t|v]|] eqn:Hg.
      * unfold alloc in H. cbn beta iota zeta in H. injection H as <- <-.
        split; [apply extends_alloc; [exact Hh | reflexivity]|].
        intros l' [= <-]. exists t, None. split; [|discriminate].
        rewrite lookup_app_r by lia.
        replace (length h - length h)%nat with 0%nat by lia. reflexivity.
      * destruct (Hs _ _ Hg) as [t [=]].
      * destruct allowUnbound; [|same_store H Hh].
        unfold alloc in H. cbn beta iota zeta in H. injection H as <- <-.
        split; [apply extends_alloc; [exact Hh | reflexivity]|].
        intros l' [= <-]. eexists _, None. split; [|discriminate].
        rewrite lookup_app_r by lia.
        replace (length h - length h)%nat with 0%nat by lia. reflexivity.
Qed.

(** On a node with arguments [substituteTree] makes a copy of the argument
    array, at the first free location, and a node around it, at the
    next. *)
Lemma substituteTree_copies fuel scope allowUnbound l h l1 h1 k a e :
  tokens_only scope -> no_bound h ->
  h !! l = Some (ONode k false (Some a)) -> array_read a h = Some e ->
  substituteTree (S fuel) scope allowUnbound l h = (OK l1, h1) ->
  l1 = S (length h)
  /\ h1 !! l1 = Some (ONode k false (Some (length h)))
  /\ exists e1, array_read (length h) h1 = Some e1 /\ length e1 = length e.
Proof.
  intros Hs Hh Hl He H. cbn [substituteTree] in H. rewrite Hl, He in H.
  unfold alloc in H. cbn beta iota zeta in H.
  set (h2 := h ++ [OArray e]) in *.
  set (h3 := h2 ++ [ONode k false (Some (length h))]) in *.
  assert (H2 : extends h h2) by (apply extends_alloc; [exact Hh | exact I]).
  assert (H3 : extends h2 h3) by (apply extends_alloc; [apply H2 | reflexivity]).
  assert (Hlen2 : length h2 = S (length h)).
  { unfold h2. rewrite length_app. cbn. lia. }
  assert (Hlen3 : length h3 = S (length h2)).
  { unfold h3. rewrite length_app. cbn. lia. }
  assert (Hnode : h3 !! length h2 = Some (ONode k false (Some (length h)))).
  { unfold h3. rewrite lookup_app_r by lia.
    replace (length h2 - length h2)%nat with 0%nat by lia. reflexivity. }
  assert (Harr : array_read (length h) h3 = Some e).
  { apply (array_read_extends _ h2); [exact H3|].
    unfold array_read, h2. rewrite lookup_app_r by lia.
    replace (length h - length h)%nat with 0%nat by lia. reflexivity. }
  assert (Hsub : forall c h0 r0 h0',
            no_bound h0 -> substituteTree fuel scope allowUnbound c h0 = (r0, h0') ->
            extends h0 h0').
  { intros c h0 r0 h0' Hh0 Hc.
    exact (proj1 (substituteTree_extends _ _ _ _ _ _ _ Hs Hh0 Hc)). }
  destruct (substitute_args (substituteTree fuel scope allowUnbound)
              (length h) (substituted_positions k (length e)) h3)
    as [r1 h4] eqn:Hloop.
  destruct r1 as [u|err|]; try discriminate H. injection H as <- <-.
  split; [lia|]. split.
  - destruct (substitute_args_unchanged _ _ Hsub _ _ _ _ (proj1 (proj2 H3)) Hloop)
      as (_ & _ & E).
    rewrite E; [exact Hnode | lia |]. intros [= Heq]. lia.
  - exact (substitute_args_array _ _ Hsub _ _ _ _ _ (proj1 (proj2 H3)) Harr Hloop).
Qed.

(** ** Evaluation *)

Section Evaluate.

Variable scoped :
  string -> (Scope -> loc -> heap -> result token * heap) ->
  list ref -> Scope -> heap -> result token * heap.
Variable contentsubvars : string -> Scope -> result string.

(** The procedures that work on trees change no object that is there when
    they are called, when the evaluation they are given changes none. *)
Hypothesis scoped_extends :
  forall key ev args scope h r h',
    (forall sc l h0 r0 h0',
       tokens_only sc -> no_bound h0 -> ev sc l h0 = (r0, h0') ->
       extends h0 h0') ->
    tokens_only scope -> no_bound h ->
    scoped key ev args scope h = (r, h') ->
    extends h h'.

Lemma call_extends ev fn args scope h r h' :
  (forall sc l h0 r0 h0',
     tokens_only sc -> no_bound h0 -> ev sc l h0 = (r0, h0') -> extends h0 h0') ->
  tokens_only scope -> no_bound h ->
  call scoped ev fn args scope h = (r, h') ->
  extends h h'.
Proof.
  intros Hev Hs Hh H. unfold call in H.
  destruct (fo_evaluate fn) as [f|key].
  - destruct (tokens_of args); injection H as <- <-; apply extends_refl, Hh.
  - eapply scoped_extends; eassumption.
Qed.

Lemma evaluate_extends :
  forall fuel scope l h r h',
    tokens_only scope -> no_bound h ->
    evaluate scoped contentsubvars fuel scope l h = (r, h') ->
    extends h h'.
Proof.
  induction fuel as [|fuel IH]; intros scope l h r h' Hs Hh H.
  - cbn in H. injection H as <- <-. apply extends_refl, Hh.
  - cbn [evaluate] in H.
    destruct (substituteTree (S fuel) scope true l h) as [r1 h1] eqn:Hsub.
    destruct (substituteTree_extends _ _ _ _ _ _ _ Hs Hh Hsub) as [H1 Hnode].
    destruct r1 as [l1|e|]; try (injection H as <- <-; exact H1).
    destruct (Hnode l1 eq_refl) as (k & args & Hl1 & Hargs).
    rewrite Hl1 in H.
    assert (Hev : forall c h0 r0 h0',
              no_bound h0 -> evaluate scoped contentsubvars fuel scope c h0 = (r0, h0') ->
              extends h0 h0').
    { intros c h0 r0 h0' Hh0 Hc. exact (IH _ _ _ _ _ Hs Hh0 Hc). }
    assert (Hn1 : no_bound h1) by apply H1.
    assert (Hargs_loop : forall a store n rr hh,
              args = Some a ->
              evaluated (evaluate scoped contentsubvars fuel scope) store a 0 n h1
              = (rr, hh) ->
              extends h hh).
    { intros a store n rr hh Ha Hloop.
      eapply unchanged_but_later; [exact H1|exact (Hargs a Ha)|].
      eapply evaluated_unchanged; [exact Hev|exact Hn1|exact Hloop]. }
    assert (Hcall : forall fn elems hh rr hh',
              extends h hh ->
              call scoped (evaluate scoped contentsubvars fuel) fn elems scope hh
              = (rr, hh') ->
              extends h hh').
    { intros fn elems hh rr hh' Hhh Hc.
      eapply extends_trans; [exact Hhh|].
      eapply call_extends; [|exact Hs|apply Hhh|exact Hc].
      intros sc l0 h0 r0 h0' Hsc Hh0 Hc0. exact (IH _ _ _ _ _ Hsc Hh0 Hc0). }
    destruct k; try (injection H as <- <-; exact H1).
    + (* string *)
      destruct (negb safe && contains_brace value); injection H as <- <-; exact H1.
    + (* name *)
      destruct (getVariable scope (toLowerCase name)) as [[t|v]|];
        injection H as <- <-; exact H1.
    + (* list *)
      destruct value as [value|]; [injection H as <- <-; exact H1|].
      destruct args as [a|]; [|injection H as <- <-; exact H1].
      destruct (evaluated _ false a 0 _ h1) as [r2 h2] eqn:Hloop.
      injection H as <- <-. exact (Hargs_loop _ _ _ _ _ eq_refl Hloop).
    + (* dict *)
      destruct value as [value|]; [injection H as <- <-; exact H1|].
      destruct args as [a|]; [|injection H as <- <-; exact H1].
      eapply extends_trans; [exact H1|].
      eapply entries_extends; [exact Hev|exact Hn1|exact H].
    + (* op *)
      destruct (bool_decide (toLowerCase name ∈ lazyOps)).
      * destruct args as [a|]; [|injection H as <- <-; exact H1].
        destruct (getFunction scope (toLowerCase name)).1 as [|fn ?];
          [injection H as <- <-; exact H1|].
        exact (Hcall _ _ _ _ _ H1 H).
      * destruct args as [a|]; [|injection H as <- <-; exact H1].
        destruct (evaluated _ true a 0 _ h1) as [r2 h2] eqn:Hloop.
        pose proof (Hargs_loop _ _ _ _ _ eq_refl Hloop) as H2.
        destruct r2 as [vs|e|]; try (injection H as <- <-; exact H2).
        destruct (getFunction scope (toLowerCase name)).1 as [|fn fns];
          [injection H as <- <-; exact H2|].
        destruct (List.find _ (fn :: fns)) as [matched|];
          [|injection H as <- <-; exact H2].
        exact (Hcall _ _ _ _ _ H2 H).
    + (* function *)
      destruct (bool_decide (toLowerCase name ∈ lazyOps)).
      * destruct args as [a|]; [|injection H as <- <-; exact H1].
        destruct (getFunction scope (toLowerCase name)).1 as [|fn ?];
          [injection H as <- <-; exact H1|].
        exact (Hcall _ _ _ _ _ H1 H).
      * destruct args as [a|]; [|injection H as <- <-; exact H1].
        destruct (evaluated _ true a 0 _ h1) as [r2 h2] eqn:Hloop.
        pose proof (Hargs_loop _ _ _ _ _ eq_refl Hloop) as H2.
        destruct r2 as [vs|e|]; try (injection H as <- <-; exact H2).
        destruct (getFunction scope (toLowerCase name)).1 as [|fn fns];
          [injection H as <- <-; exact H2|].
        destruct (List.find _ (fn :: fns)) as [matched|];
          [|injection H as <- <-; exact H2].
        exact (Hcall _ _ _ _ _ H2 H).
Qed.

Lemma not_defined_Err (scope : Scope) k op v : not_defined scope k op <> OK v.
Proof.
  unfold not_defined. destruct (String.eqb (type k) "function");
    [destruct (_ && _)|]; discriminate.
Qed.

Lemma no_right_type_Err vs op v : no_right_type vs op <> OK v.
Proof.
  unfold no_right_type. destruct (list_find _ vs) as [[i []]|]; discriminate.
Qed.

(** After the evaluation of a node whose name is not lazy has returned,
    the copy of the argument array holds the values of the arguments. *)
Lemma evaluate_overwrites_copy fuel scope l h k a e name v h' :
  tokens_only scope -> no_bound h ->
  h !! l = Some (ONode k false (Some a)) -> array_read a h = Some e ->
  call_name k = Some name -> toLowerCase name ∉ lazyOps ->
  evaluate scoped contentsubvars (S fuel) scope l h = (OK v, h') ->
  exists vs,
    length vs = length e
    /\ h' !! S (length h) = Some (ONode k false (Some (length h)))
    /\ array_read (length h) h' = Some (RTok <$> vs).
Proof.
  intros Hs Hh Hl He Hk Hlazy H. cbn [evaluate] in H.
  destruct (substituteTree (S fuel) scope true l h) as [r1 h1] eqn:Hsub.
  destruct r1 as [l1|err|]; try discriminate H.
  destruct (substituteTree_extends _ _ _ _ _ _ _ Hs Hh Hsub) as [H1 _].
  destruct (substituteTree_copies _ _ _ _ _ _ _ _ _ _ Hs Hh Hl He Hsub)
    as (-> & Hnode & e1 & He1 & Hlen1).
  rewrite Hnode in H.
  assert (Hev : forall c h0 r0 h0',
            no_bound h0 -> evaluate scoped contentsubvars fuel scope c h0 = (r0, h0') ->
            extends h0 h0').
  { intros c h0 r0 h0' Hh0 Hc. exact (evaluate_extends _ _ _ _ _ _ Hs Hh0 Hc). }
  assert (Hn1 : no_bound h1) by apply H1.
  assert (Hbody :
    forall op,
      (let '(r, h2) := evaluated (evaluate scoped contentsubvars fuel scope) true
                         (length h) 0 (length (default [] (array_read (length h) h1))) h1 in
       match r with
       | Err e => (Err e, h2)
       | Fuel => (Fuel, h2)
       | OK vs =>
           match (getFunction scope op).1 with
           | [] => (not_defined scope k op, h2)
           | _ :: _ =>
               match List.find (fun fn => fo_typecheck fn vs) (getFunction scope op).1 with
               | Some matchedFunction =>
                   call scoped (evaluate scoped contentsubvars fuel) matchedFunction
                        (default [] (array_read (length h) h2)) scope h2
               | None => (no_right_type vs op, h2)
               end
           end
       end) = (OK v, h') ->
      exists vs,
        length vs = length e
        /\ h' !! S (length h) = Some (ONode k false (Some (length h)))
        /\ array_read (length h) h' = Some (RTok <$> vs)).
  { intros op Hb. rewrite He1 in Hb.
    change (default [] (Some e1)) with e1 in Hb.
    destruct (evaluated _ true (length h) 0 (length e1) h1) as [r2 h2] eqn:Hloop.
    destruct r2 as [vs|err|]; try discriminate Hb.
    destruct (evaluated_stores_all (evaluate scoped contentsubvars fuel scope) _ Hev
                _ _ _ _ Hn1 He1 Hloop) as [Harr Hvs].
    pose proof (evaluated_unchanged (evaluate scoped contentsubvars fuel scope) _ _ Hev
                  _ _ _ _ _ Hn1 Hloop) as (L2 & N2 & E2).
    assert (Hl1 : (S (length h) < length h1)%nat)
      by (eapply lookup_lt_Some; exact Hnode).
    assert (Hnode2 : h2 !! S (length h) = Some (ONode k false (Some (length h)))).
    { rewrite E2; [exact Hnode | exact Hl1 |]. intros [= Heq]. lia. }
    assert (Hfinal : forall hh, extends h2 hh ->
              exists vs0,
                length vs0 = length e
                /\ hh !! S (length h) = Some (ONode k false (Some (length h)))
                /\ array_read (length h) hh = Some (RTok <$> vs0)).
    { intros hh Hhh. exists vs. split; [lia|]. split.
      - destruct Hhh as (_ & _ & E). rewrite E; [exact Hnode2 | lia | discriminate].
      - exact (array_read_extends _ _ _ _ Hhh Harr). }
    destruct (getFunction scope op).1 as [|fn fns].
    - injection Hb as Hb _. exfalso. exact (not_defined_Err _ _ _ _ Hb).
    - destruct (List.find _ (fn :: fns)) as [matched|].
      + apply Hfinal. eapply call_extends; [|exact Hs|exact N2|exact Hb].
        intros sc l0 h0 r0 h0' Hsc Hh0 Hc0.
        exact (evaluate_extends _ _ _ _ _ _ Hsc Hh0 Hc0).
      + injection Hb as Hb _. exfalso. exact (no_right_type_Err _ _ _ Hb). }
  destruct k; try discriminate Hk; injection Hk as ->;
    rewrite bool_decide_eq_false_2 in H by exact Hlazy;
    exact (Hbody _ H).
Qed.


End Evaluate.

(** *** The sum [1 + 2] *)


(** A name whose variable holds a tree: [substituteTree] returns that tree
    itself, and the evaluation stores the results in its argument array. *)
Example tree_of_a_variable_is_overwritten :
  evaluate no_scoped no_contentsubvars 2 sum_in_scope 4 name_of_the_sum
  = (OK (TNum (Rat 3)),
     <[2%nat := OArray [RTok (TNum (Rat 1)); RTok (TNum (Rat 2))]]> name_of_the_sum).
Proof. reflexivity. Qed.

Lemma tokens_only_no_variables (scope : Scope) :
  variables scope = ∅ -> parent scope = None -> tokens_only scope.
Proof.
  intros Hv Hp x v H. destruct scope as [vs fs rs ds p]. cbn in *. subst.
  destruct (bool_decide (x ∈ ds)); [discriminate H|].
  rewrite lookup_empty in H. discriminate H.
Qed.

Lemma no_bound_one_plus_two : no_bound one_plus_two.
Proof.
  intros l k b args H.
  destruct l as [|[|[|[|l]]]]; cbn in H; try discriminate H;
    injection H as <- <- <-; reflexivity.
Qed.

Lemma no_scoped_extends key ev args scope h r h' :
  (forall sc l h0 r0 h0',
     tokens_only sc -> no_bound h0 -> ev sc l h0 = (r0, h0') ->
     extends h0 h0') ->
  tokens_only scope -> no_bound h ->
  no_scoped key ev args scope h = (r, h') ->
  extends h h'.
Proof. intros _ _ Hh [= <- <-]. apply extends_refl, Hh. Qed.


End StoreFacts.

(** * Facts about scopes: deletion, [collect], [allFunctions], shadowing *)

Module ScopeMoreFacts.

Section Facts.
Context {V : Type}.
Implicit Types (s : ScopeOf V) (x y name : string).

Lemma getVariable_deleted s x :
  x ∈ deleted_variables s -> getVariable s x = None.
Proof.
  intros H. destruct s; simpl in *. rewrite bool_decide_eq_true_2; auto.
Qed.

Lemma apply_update_deleted s (u : update) x :
  x ∈ deleted_variables s -> x ∈ deleted_variables (apply_update s u).
Proof.
  intros H. destruct u as [n v|n v|fn|n]; simpl; try exact H.
  - unfold addFunction. destruct (functions s !! fo_name fn); exact H.
  - set_solver.
Qed.

Lemma updates_deleted (us : list update) : forall s x,
  x ∈ deleted_variables s ->
  x ∈ deleted_variables (fold_left apply_update us s).
Proof.
  induction us as [|u us IH]; intros s x H; simpl; [exact H|].
  apply IH, apply_update_deleted, H.
Qed.

Lemma getVariable_unfold s x :
  getVariable s x
  = if bool_decide (x ∈ deleted_variables s) then None
    else match variables s !! x with
         | Some v => Some v
         | None => match parent s with
                   | Some p => getVariable p x
                   | None => None
                   end
         end.
Proof. destruct s; reflexivity. Qed.

(** X1.  A name that [deleteVariable] has marked in a scope stays without
    a value there: whatever is set, written, added or deleted afterwards,
    [getVariable] finds nothing under the name.  Every other name resolves
    after the deletion as it did before. *)
Theorem deleteVariable_is_final s x :
  (forall us : list update,
     getVariable (fold_left apply_update us (deleteVariable s x)) x = None)
  /\ (forall y, y <> x -> getVariable (deleteVariable s x) y = getVariable s y).
Proof.
  split.
  - intros us. apply getVariable_deleted, updates_deleted.
    simpl. set_solver.
  - intros y Hy. rewrite !getVariable_unfold. simpl.
    destruct (bool_decide (y ∈ deleted_variables s)) eqn:Hd.
    + apply bool_decide_eq_true_1 in Hd.
      rewrite bool_decide_eq_true_2 by set_solver. reflexivity.
    + apply bool_decide_eq_false_1 in Hd.
      rewrite bool_decide_eq_false_2 by set_solver. reflexivity.
Qed.

(** the inner loop of [collect] *)
Lemma collect_names (d : gset string) (m out : gmap string V) x :
  map_fold (collect_name d) out m !! x
  = match out !! x with
    | Some v => Some v
    | None => if bool_decide (x ∈ d) then None else m !! x
    end.
Proof.
  revert m. apply (map_fold_weak_ind (fun r m => r !! x
    = match out !! x with
      | Some v => Some v
      | None => if bool_decide (x ∈ d) then None else m !! x
      end)).
  - destruct (out !! x); [reflexivity|]. rewrite lookup_empty.
    destruct (bool_decide _); reflexivity.
  - intros i v m r Hi IH. unfold collect_name.
    destruct (decide (i = x)) as [->|Hne].
    + rewrite lookup_insert_eq. rewrite Hi in IH.
      destruct (bool_decide (x ∈ d)) eqn:Hd.
      * exact IH.
      * destruct (r !! x) as [w|] eqn:Hr.
        -- rewrite Hr. destruct (out !! x); [exact IH|discriminate].
        -- rewrite lookup_insert_eq.
           destruct (out !! x); [discriminate|reflexivity].
    + rewrite lookup_insert_ne by exact Hne.
      destruct (bool_decide (i ∈ d)); [exact IH|].
      destruct (r !! i); [exact IH|].
      rewrite lookup_insert_ne by exact Hne. exact IH.
Qed.

Lemma collect_loop_lookup s x : forall (d : gset string) (out : gmap string V),
  collect_loop s d out !! x
  = match out !! x with
    | Some v => Some v
    | None => if bool_decide (x ∈ d) then None else getVariable s x
    end.
Proof.
  induction s as [s IH] using ScopeFacts.chain_ind. intros d out.
  rewrite getVariable_unfold.
  destruct s as [vs fs rs ds p]; simpl in *.
  assert (Hstep : map_fold (collect_name (ds ∪ d)) out vs !! x
                  = match out !! x with
                    | Some v => Some v
                    | None => if bool_decide (x ∈ ds ∪ d) then None else vs !! x
                    end) by apply collect_names.
  destruct p as [p|].
  - rewrite (IH p eq_refl), Hstep.
    destruct (out !! x); [reflexivity|].
    destruct (bool_decide (x ∈ d)) eqn:Hd.
    + apply bool_decide_eq_true_1 in Hd.
      rewrite bool_decide_eq_true_2 by set_solver. reflexivity.
    + apply bool_decide_eq_false_1 in Hd.
      destruct (bool_decide (x ∈ ds)) eqn:Hds.
      * apply bool_decide_eq_true_1 in Hds.
        rewrite bool_decide_eq_true_2 by set_solver. reflexivity.
      * apply bool_decide_eq_false_1 in Hds.
        rewrite bool_decide_eq_false_2 by set_solver.
        destruct (vs !! x); reflexivity.
  - rewrite Hstep. destruct (out !! x); [reflexivity|].
    destruct (bool_decide (x ∈ d)) eqn:Hd.
    + apply bool_decide_eq_true_1 in Hd.
      rewrite bool_decide_eq_true_2 by set_solver. reflexivity.
    + apply bool_decide_eq_false_1 in Hd.
      destruct (bool_decide (x ∈ ds)) eqn:Hds.
      * apply bool_decide_eq_true_1 in Hds.
        rewrite bool_decide_eq_true_2 by set_solver. reflexivity.
      * apply bool_decide_eq_false_1 in Hds.
        rewrite bool_decide_eq_false_2 by set_solver.
        destruct (vs !! x); reflexivity.
Qed.

Lemma allVariables_lookup s x : allVariables s !! x = getVariable s x.
Proof.
  unfold allVariables. rewrite collect_loop_lookup, lookup_empty.
  rewrite bool_decide_eq_false_2 by set_solver. reflexivity.
Qed.

(** X2.  The dictionary that [allVariables] gathers along the chain of
    scopes holds under each name what [getVariable] finds for it, and has
    no entry for a name that [getVariable] does not resolve. *)
Theorem allVariables_is_getVariable s x :
  allVariables s !! x = getVariable s x.
Proof. apply allVariables_lookup. Qed.

(** X3.  [flatten] changes no lookup: every name resolves in the flattened
    scope to what it resolved to before, and a name that resolved is now a
    variable of the scope itself. *)
Theorem flatten_keeps_lookups s x :
  getVariable (flatten s) x = getVariable s x
  /\ (forall v, getVariable s x = Some v -> variables (flatten s) !! x = Some v).
Proof.
  split.
  - rewrite (getVariable_unfold (flatten s)). simpl.
    rewrite allVariables_lookup. rewrite (getVariable_unfold s).
    destruct (bool_decide (x ∈ deleted_variables s)); [reflexivity|].
    destruct (variables s !! x); [reflexivity|].
    destruct (parent s) as [p|]; [|reflexivity].
    destruct (getVariable p x); reflexivity.
  - intros v Hv. simpl. rewrite allVariables_lookup. exact Hv.
Qed.

(** X4.  [allFunctions] does not return: the variable of its loop is never
    moved to the parent, so no number of steps brings the loop to its end,
    whatever the scope holds. *)
Theorem allFunctions_never_returns fuel s : allFunctions fuel s = Fuel.
Proof.
  unfold allFunctions. generalize (∅ : gmap string (list funcObj)) as out.
  induction fuel as [|fuel IH]; intros out; [reflexivity|].
  cbn [allFunctions_loop]. apply IH.
Qed.

Lemma getVariable_set_variables s (vs : gmap string V) x :
  x ∉ deleted_variables s ->
  getVariable (set_variables s vs) x
  = match vs !! x with
    | Some v => Some v
    | None => match parent s with
              | Some p => getVariable p x
              | None => None
              end
    end.
Proof.
  intros H. rewrite getVariable_unfold. simpl.
  rewrite bool_decide_eq_false_2 by exact H. reflexivity.
Qed.

Lemma fold_setVariable (vs : list (string * V)) : forall s,
  let s' := fold_left (fun s '(x, v) => setVariable s x v) vs s in
  deleted_variables s' = deleted_variables s
  /\ parent s' = parent s
  /\ functions s' = functions s
  /\ forall y, variables s' !! y
               = match last_given vs y with
                 | Some v => Some v
                 | None => variables s !! y
                 end.
Proof.
  induction vs as [|[x v] vs IH] using rev_ind; intros s.
  - simpl. repeat split.
  - cbn zeta. rewrite fold_left_app. cbn [fold_left].
    destruct (IH s) as (Hd & Hp & Hf & Hv).
    repeat split; simpl; try assumption.
    intros y. unfold last_given. rewrite filter_app, filter_cons, filter_nil.
    cbn [fst]. destruct (decide (toLowerCase x = y)) as [->|Hne].
    + rewrite last_snoc. simpl. apply lookup_insert_eq.
    + rewrite app_nil_r. rewrite lookup_insert_ne by exact Hne. apply Hv.
Qed.


End Facts.

End ScopeMoreFacts.

(** * Facts about [typecheck] and [merge] *)

Module SignatureFacts.

Lemma typecheck_unstarred intype : forall variables,
  Forall (fun slot => starred slot = false) intype ->
  typecheck intype variables = true <-> accepted_by intype variables.
Proof.
  unfold accepted_by.
  induction intype as [|slot intype IH]; intros vs Hs.
  - destruct vs; simpl; split; intros H; try constructor;
      try discriminate; inversion H.
  - inversion Hs as [|? ? Hslot Hrest]; subst.
    assert (Hstep : typecheck (slot :: intype) vs
                    = match vs with
                      | [] => false
                      | v :: vs' => slot_accepts slot v && typecheck intype vs'
                      end).
    { destruct slot as [|c slot']; [reflexivity|].
      destruct c as [[] [] [] [] [] [] [] []]; try reflexivity.
      discriminate Hslot. }
    rewrite Hstep. destruct vs as [|v vs].
    + split; [discriminate|]. intros H; inversion H.
    + rewrite andb_true_iff, (IH vs Hrest). split.
      * intros [Hv Hvs]. constructor; assumption.
      * intros H; inversion H; subst. split; assumption.
Qed.

Lemma typecheck_after_star intype :
  typecheck intype [] = true <-> Forall (fun slot => starred slot = true) intype.
Proof.
  induction intype as [|slot intype IH]; simpl.
  - split; [constructor|reflexivity].
  - destruct slot as [|c slot'].
    + split; [discriminate|]. intros H; inversion H; discriminate.
    + destruct c as [[] [] [] [] [] [] [] []];
        try (split; [discriminate|intros H; inversion H; discriminate]).
      simpl. rewrite IH. split.
      * intros H. constructor; [reflexivity|exact H].
      * intros H. inversion H; assumption.
Qed.

Lemma typecheck_star ntype rest variables :
  typecheck (String "*" ntype :: rest) variables
  = forallb (slot_accepts ntype) variables && typecheck rest [].
Proof. reflexivity. Qed.

Lemma typecheck_split fixed : forall rest variables,
  Forall (fun slot => starred slot = false) fixed ->
  typecheck (fixed ++ rest) variables = true
  <-> exists first others,
        variables = first ++ others
        /\ accepted_by fixed first
        /\ typecheck rest others = true.
Proof.
  unfold accepted_by.
  induction fixed as [|slot fixed IH]; intros rest vs Hs.
  - simpl. split.
    + intros H. exists [], vs. repeat split; [constructor|exact H].
    + intros (first & others & -> & Hf & H). inversion Hf; subst. exact H.
  - inversion Hs as [|? ? Hslot Hrest]; subst.
    assert (Hstep : typecheck ((slot :: fixed) ++ rest) vs
                    = match vs with
                      | [] => false
                      | v :: vs' =>
                          slot_accepts slot v && typecheck (fixed ++ rest) vs'
                      end).
    { destruct slot as [|c slot']; [reflexivity|].
      destruct c as [[] [] [] [] [] [] [] []]; try reflexivity.
      discriminate Hslot. }
    rewrite Hstep. destruct vs as [|v vs].
    + split; [discriminate|].
      intros (first & others & Hv & Hf & _).
      inversion Hf; subst. discriminate.
    + rewrite andb_true_iff, (IH rest vs Hrest). split.
      * intros (Hv & first & others & -> & Hf & H).
        exists (v :: first), others. repeat split; [constructor|]; assumption.
      * intros (first & others & Hv & Hf & H).
        inversion Hf; subst. injection Hv as <- ->.
        split; [assumption|]. eauto.
Qed.

(** X6.  A signature without a starred slot accepts exactly the argument
    lists that have one argument for each slot, each of the type of its
    slot unless the slot or the argument has the type [?]: a call with too
    few or too many arguments is refused. *)
Theorem typecheck_fixed_arity intype variables :
  Forall (fun slot => starred slot = false) intype ->
  (typecheck intype variables = true <-> accepted_by intype variables)
  /\ (typecheck intype variables = true -> length variables = length intype).
Proof.
  intros Hs. split; [apply typecheck_unstarred, Hs|].
  intros H. apply typecheck_unstarred in H; [|exact Hs].
  symmetry. eapply Forall2_length, H.
Qed.

Lemma typecheck_fixed_arity_witness :
  (typecheck ["number"; "?"] [TNum (Rat 1); TBool true] = true
   <-> accepted_by ["number"; "?"] [TNum (Rat 1); TBool true])
  /\ (typecheck ["number"; "?"] [TNum (Rat 1); TBool true] = true ->
      length [TNum (Rat 1); TBool true] = length ["number"; "?"]).
Proof.
  apply (typecheck_fixed_arity ["number"; "?"] [TNum (Rat 1); TBool true]).
  repeat constructor.
Defined.

(** X7.  A signature that ends with a starred slot ["*t"] after slots
    without a star accepts an argument list exactly when its first
    arguments are accepted by those slots one by one and all the others,
    however many and also none, have the type [t], unless [t] or the type
    of the argument is [?]. *)
Theorem typecheck_variadic_tail fixed ntype variables :
  Forall (fun slot => starred slot = false) fixed ->
  typecheck (fixed ++ [String "*" ntype]) variables = true
  <-> exists first others,
        variables = first ++ others
        /\ accepted_by fixed first
        /\ Forall (fun v => slot_accepts ntype v = true) others.
Proof.
  intros Hs. rewrite (typecheck_split fixed _ _ Hs).
  split; intros (first & others & Hv & Hf & H); exists first, others;
    (split; [exact Hv|]); (split; [exact Hf|]).
  - rewrite typecheck_star, andb_true_iff in H. destruct H as [H _].
    rewrite forallb_forall in H. apply List.Forall_forall. exact H.
  - rewrite typecheck_star, andb_true_iff. split; [|reflexivity].
    apply forallb_forall. apply List.Forall_forall. exact H.
Qed.

Lemma typecheck_variadic_tail_witness :
  typecheck (["string"] ++ ["*number"]) [TString "s" false false] = true
  <-> exists first others,
        [TString "s" false false] = first ++ others
        /\ accepted_by ["string"] first
        /\ Forall (fun v => slot_accepts "number" v = true) others.
Proof.
  apply (typecheck_variadic_tail ["string"] "number" [TString "s" false false]).
  repeat constructor.
Defined.

(** X8.  A slot without a star that comes after a starred slot is never
    filled: the starred slot takes every argument that is left, so a
    signature with such a slot accepts no argument list at all. *)
Theorem typecheck_slot_after_star before ntype slot after variables :
  starred slot = false ->
  typecheck (before ++ String "*" ntype :: slot :: after) variables = false.
Proof.
  intros Hslot. revert variables.
  assert (Hdead : forall vs,
            typecheck (String "*" ntype :: slot :: after) vs = false).
  { intros vs. rewrite typecheck_star.
    assert (H : typecheck (slot :: after) [] = false).
    { apply not_true_is_false. intros H.
      apply typecheck_after_star in H. inversion H; congruence. }
    rewrite H. apply andb_false_r. }
  induction before as [|b before IH]; intros vs; [apply Hdead|].
  cbn [app]. destruct (typecheck (b :: before ++ _) vs) eqn:H; [|reflexivity].
  exfalso. destruct b as [|c b'].
  - simpl in H. destruct vs; [discriminate|].
    apply andb_true_iff in H as [_ H]. rewrite IH in H. discriminate.
  - destruct c as [[] [] [] [] [] [] [] []]; simpl in H;
      try (destruct vs; [discriminate|];
           apply andb_true_iff in H as [_ H]; rewrite IH in H; discriminate).
    apply andb_true_iff in H as [_ H]. rewrite IH in H. discriminate.
Qed.

Lemma typecheck_slot_after_star_witness :
  typecheck ([] ++ "*number" :: "string" :: []) [TString "s" false false] = false.
Proof.
  apply (typecheck_slot_after_star [] "number" "string" []
           [TString "s" false false]).
  reflexivity.
Defined.

End SignatureFacts.

(** * Facts about [Array.prototype.merge] on function records *)

Module MergeFacts.

Lemma increasing_ids l :
  increasing l -> StronglySorted Z.lt (map fo_id l) /\ NoDup (map fo_id l).
Proof.
  induction 1 as [|f l Hs [IHs IHn] Hf]; simpl.
  - split; constructor.
  - rewrite List.Forall_forall in Hf. split.
    + constructor; [exact IHs|]. apply List.Forall_forall.
      intros z Hz. apply in_map_iff in Hz as (g & <- & Hg).
      exact (Hf g Hg).
    + constructor; [|exact IHn]. intros Hz.
      apply list_elem_of_fmap in Hz as (g & Hid & Hg).
      apply list_elem_of_In in Hg. specialize (Hf g Hg).
      unfold id_lt in Hf. lia.
Qed.

Lemma strictly_sorted_ext (l1 : list Z) : forall l2,
  StronglySorted Z.lt l1 -> StronglySorted Z.lt l2 ->
  (forall z, z ∈ l1 <-> z ∈ l2) -> l1 = l2.
Proof.
  induction l1 as [|x l1 IH]; intros [|y l2] H1 H2 Hsame.
  - reflexivity.
  - exfalso. eapply not_elem_of_nil, Hsame. left.
  - exfalso. eapply not_elem_of_nil, Hsame. left.
  - inversion H1 as [|? ? Hs1 Hx]; subst.
    inversion H2 as [|? ? Hs2 Hy]; subst.
    rewrite List.Forall_forall in Hx, Hy.
    assert (x = y) as ->.
    { pose proof (proj1 (Hsame x) ltac:(left)) as Hin.
      apply elem_of_cons in Hin as [Heq|Hin]; [exact Heq|].
      pose proof (proj2 (Hsame y) ltac:(left)) as Hin'.
      apply elem_of_cons in Hin' as [Heq|Hin']; [congruence|].
      apply list_elem_of_In in Hin, Hin'.
      specialize (Hx _ Hin'). specialize (Hy _ Hin). lia. }
    f_equal. apply IH; try assumption. intros z. split; intros Hz.
    + pose proof (proj1 (Hsame z) ltac:(right; exact Hz)) as H.
      apply elem_of_cons in H as [->|H]; [|exact H].
      apply list_elem_of_In in Hz. specialize (Hx _ Hz). lia.
    + pose proof (proj2 (Hsame z) ltac:(right; exact Hz)) as H.
      apply elem_of_cons in H as [->|H]; [|exact H].
      apply list_elem_of_In in Hz. specialize (Hy _ Hz). lia.
Qed.

Lemma covers_ids r l z : covers r l -> z ∈ map fo_id r <-> z ∈ map fo_id l.
Proof.
  intros [Hsub Hcov]. split; intros Hz;
    apply list_elem_of_fmap in Hz as (f & -> & Hf).
  - apply list_elem_of_fmap. eauto.
  - destruct (Hcov f Hf) as (g & Hg & Hid).
    apply list_elem_of_fmap. exists g. split; [congruence|exact Hg].
Qed.

Lemma increasing_same_ids r1 r2 :
  increasing r1 -> increasing r2 ->
  (forall z, z ∈ map fo_id r1 <-> z ∈ map fo_id r2) ->
  map fo_id r1 = map fo_id r2.
Proof.
  intros H1 H2 Hsame.
  apply strictly_sorted_ext; [apply increasing_ids, H1| |exact Hsame].
  apply increasing_ids, H2.
Qed.

(** X9.  [merge] on a list that is not empty gives the records of the two
    lists in strictly increasing order of identifiers: every record of the
    result comes from one of the two lists, and every identifier of the two
    lists is that of exactly one record of the result. *)
Theorem merge_sorts_and_removes_repeats this arr :
  this <> [] ->
  increasing (merge this arr)
  /\ (forall f, f ∈ merge this arr -> f ∈ this \/ f ∈ arr)
  /\ (forall g, g ∈ this ++ arr ->
        exists f, f ∈ merge this arr /\ fo_id f = fo_id g)
  /\ NoDup (map fo_id (merge this arr)).
Proof.
  intros Hne.
  destruct (ScopeFacts.merge_nonempty this arr Hne) as (Hinc & [Hsub Hcov] & _).
  split; [exact Hinc|]. split; [|split; [exact Hcov|]].
  - intros f Hf. apply elem_of_app, Hsub, Hf.
  - apply increasing_ids, Hinc.
Qed.

Lemma merge_sorts_and_removes_repeats_witness :
  increasing (merge [second_made] [first_made; second_made])
  /\ (forall f, f ∈ merge [second_made] [first_made; second_made] ->
        f ∈ [second_made] \/ f ∈ [first_made; second_made])
  /\ (forall g, g ∈ [second_made] ++ [first_made; second_made] ->
        exists f, f ∈ merge [second_made] [first_made; second_made]
                  /\ fo_id f = fo_id g)
  /\ NoDup (map fo_id (merge [second_made] [first_made; second_made])).
Proof.
  apply (merge_sorts_and_removes_repeats [second_made]
           [first_made; second_made]).
  discriminate.
Defined.

(** X10.  On two lists that are not empty, [merge] gives the same sequence
    of identifiers whichever of the two it is called on; when an identifier
    names one record only, the two results are the same list. *)
Theorem merge_commutes a b :
  a <> [] -> b <> [] ->
  map fo_id (merge a b) = map fo_id (merge b a)
  /\ (unique_ids (a ++ b) -> merge a b = merge b a).
Proof.
  intros Ha Hb.
  destruct (ScopeFacts.merge_nonempty a b Ha) as (Hi1 & Hc1 & _).
  destruct (ScopeFacts.merge_nonempty b a Hb) as (Hi2 & Hc2 & _).
  assert (Hids : map fo_id (merge a b) = map fo_id (merge b a)).
  { apply increasing_same_ids; try assumption. intros z.
    rewrite (covers_ids _ _ z Hc1), (covers_ids _ _ z Hc2).
    rewrite !map_app, !elem_of_app. tauto. }
  split; [exact Hids|]. intros Hu.
  destruct Hc1 as [Hs1 _]. destruct Hc2 as [Hs2 _].
  revert Hids Hs1 Hs2.
  generalize (merge a b) as r1. generalize (merge b a) as r2.
  intros r2 r1. revert r2.
  induction r1 as [|f r1 IH]; intros [|g r2] Hids Hs1 Hs2;
    try discriminate; [reflexivity|].
  simpl in Hids. injection Hids as Hid Hids.
  f_equal.
  - apply Hu; [apply Hs1; left| |exact Hid].
    specialize (Hs2 g ltac:(left)). rewrite elem_of_app in Hs2 |- *. tauto.
  - apply IH; [exact Hids| |].
    + intros h Hh. apply Hs1. right. exact Hh.
    + intros h Hh. apply Hs2. right. exact Hh.
Qed.

Lemma merge_commutes_witness :
  map fo_id (merge [second_made] [first_made])
  = map fo_id (merge [first_made] [second_made])
  /\ (unique_ids ([second_made] ++ [first_made]) ->
      merge [second_made] [first_made] = merge [first_made] [second_made]).
Proof.
  apply (merge_commutes [second_made] [first_made]); discriminate.
Defined.

End MergeFacts.

(** * Facts about [addFunction] followed by [getFunction] *)

Module AddFunctionFacts.

Section Facts.
Context {V : Type}.
Implicit Types (s : ScopeOf V) (fn : funcObj) (name : string).

(** the resolution has a record for every identifier of the chain, and
    only records of the chain *)
Lemma fold_merge_covers ls : covers (fold_left merge ls []) (concat ls).
Proof.
  pose proof (ScopeFacts.fold_merge_spec ls) as Hspec. cbn zeta in Hspec.
  pose proof (ScopeFacts.concat_from_first_record ls) as Hcat.
  destruct (from_first_record ls) as [|l [|l2 rest]].
  - rewrite Hspec, <- Hcat. apply ScopeFacts.covers_refl.
  - rewrite Hspec, <- Hcat. simpl. rewrite app_nil_r.
    apply ScopeFacts.covers_refl.
  - apply Hspec.
Qed.

Lemma chain_lists_unfold s name :
  chain_lists s name
  = match functions s !! name with Some l => [l] | None => [] end
    ++ match parent s with Some p => chain_lists p name | None => [] end.
Proof. destruct s; reflexivity. Qed.

Lemma addFunction_parent s fn : parent (addFunction s fn) = parent s.
Proof. unfold addFunction. destruct (functions s !! fo_name fn); reflexivity. Qed.

Lemma addFunction_functions s fn name :
  functions (addFunction s fn) !! name
  = if decide (name = fo_name fn)
    then Some (default [] (functions s !! fo_name fn) ++ [fn])
    else functions s !! name.
Proof.
  unfold addFunction.
  destruct (functions s !! fo_name fn) as [fns|] eqn:Hfns; simpl;
    destruct (decide (name = fo_name fn)) as [->|Hne];
    rewrite ?lookup_insert_eq, ?lookup_insert_ne by congruence; reflexivity.
Qed.

Lemma addFunction_resolved s fn name :
  resolved_functions (addFunction s fn) !! name
  = if decide (name = fo_name fn)
    then match functions s !! fo_name fn with
         | Some _ => None
         | None => resolved_functions s !! name
         end
    else resolved_functions s !! name.
Proof.
  unfold addFunction.
  destruct (functions s !! fo_name fn) as [fns|] eqn:Hfns; simpl;
    destruct (decide (name = fo_name fn)) as [->|Hne];
    rewrite ?lookup_delete_eq, ?lookup_delete_ne by congruence; reflexivity.
Qed.

Lemma chain_lists_addFunction s fn :
  concat (chain_lists (addFunction s fn) (fo_name fn))
  ≡ₚ fn :: concat (chain_lists s (fo_name fn)).
Proof.
  rewrite (chain_lists_unfold (addFunction s fn)), (chain_lists_unfold s).
  rewrite addFunction_parent, addFunction_functions.
  rewrite decide_True by reflexivity.
  destruct (functions s !! fo_name fn) as [fns|]; simpl.
  - rewrite <- app_assoc. simpl. symmetry. apply Permutation_middle.
  - reflexivity.
Qed.

Lemma chain_lists_addFunction_other s fn name :
  name <> fo_name fn ->
  chain_lists (addFunction s fn) name = chain_lists s name.
Proof.
  intros Hne. rewrite (chain_lists_unfold (addFunction s fn)), (chain_lists_unfold s).
  rewrite addFunction_parent, addFunction_functions.
  rewrite decide_False by exact Hne. reflexivity.
Qed.

Lemma getFunction_list s name :
  fst (getFunction s name)
  = match resolved_functions s !! name with
    | Some o => o
    | None => fold_left merge (chain_lists s name) []
    end.
Proof.
  unfold getFunction. destruct (resolved_functions s !! name); [reflexivity|].
  simpl. apply ScopeFacts.collect_functions_fold.
Qed.

(** X11.  A definition added to a scope that already has a definition of
    its name, or that remembers no resolution of the name, is found by
    [getFunction]: the list has a record with the identifier of the new
    definition, and every record of the list is the new one or was
    stored under the name along the chain before.  The lists of all other
    names are what they were. *)
Theorem addFunction_is_seen_by_getFunction s fn :
  is_Some (functions s !! fo_name fn)
  \/ resolved_functions s !! fo_name fn = None ->
  let fns := fst (getFunction (addFunction s fn) (fo_name fn)) in
  (exists g, g ∈ fns /\ fo_id g = fo_id fn)
  /\ (forall g, g ∈ fns -> g = fn \/ g ∈ concat (chain_lists s (fo_name fn)))
  /\ (forall name, name <> fo_name fn ->
        fst (getFunction (addFunction s fn) name) = fst (getFunction s name)).
Proof.
  intros Hs fns. subst fns.
  assert (Hfresh : resolved_functions (addFunction s fn) !! fo_name fn = None).
  { rewrite addFunction_resolved, decide_True by reflexivity.
    destruct Hs as [[fns ->]| ->]; [reflexivity|].
    destruct (functions s !! fo_name fn); reflexivity. }
  rewrite getFunction_list, Hfresh.
  destruct (fold_merge_covers (chain_lists (addFunction s fn) (fo_name fn)))
    as [Hsub Hcov].
  pose proof (chain_lists_addFunction s fn) as Hperm.
  split; [|split].
  - apply Hcov. rewrite Hperm. left.
  - intros g Hg. apply Hsub in Hg. rewrite Hperm in Hg.
    apply elem_of_cons in Hg. exact Hg.
  - intros name Hne. rewrite !getFunction_list.
    rewrite addFunction_resolved, decide_False by exact Hne.
    rewrite chain_lists_addFunction_other by exact Hne. reflexivity.
Qed.

End Facts.

Lemma addFunction_is_seen_by_getFunction_witness :
  let fns := fst (getFunction (addFunction inner string_only)
                    (fo_name string_only)) in
  (exists g, g ∈ fns /\ fo_id g = fo_id string_only)
  /\ (forall g, g ∈ fns ->
        g = string_only
        \/ g ∈ concat (chain_lists inner (fo_name string_only)))
  /\ (forall name, name <> fo_name string_only ->
        fst (getFunction (addFunction inner string_only) name)
        = fst (getFunction inner name)).
Proof.
  apply (addFunction_is_seen_by_getFunction inner string_only).
  right. reflexivity.
Defined.

End AddFunctionFacts.

(** * Facts about [matchAllTree] and the trees that a match holds *)

Module MatchMoreFacts.

(** induction on a tree, with the property for all arguments of a node *)
Lemma tree_nested_ind (P : tree -> Prop) :
  (forall k b, P (Tree k b None)) ->
  (forall k b args, Forall P args -> P (Tree k b (Some args))) ->
  forall t, P t.
Proof.
  intros Hleaf Hnode. fix IH 1. intros [k b [args|]]; [|apply Hleaf].
  apply Hnode. induction args as [|a args IHargs]; constructor.
  - apply IH.
  - exact IHargs.
Qed.

Lemma mapM_result_app {A B} (f : A -> result B) l1 l2 :
  mapM f (l1 ++ l2)
  = (xs ← mapM f l1; ys ← mapM f l2; OK (xs ++ ys)).
Proof.
  induction l1 as [|x l1 IH]; simpl.
  - destruct (mapM f l2); reflexivity.
  - destruct (f x) as [y| |]; simpl; try reflexivity.
    rewrite IH. destruct (mapM f l1) as [xs| |]; simpl; try reflexivity.
    destruct (mapM f l2); reflexivity.
Qed.

Lemma obj_set_elem {A} (m : list (string * A)) k x p :
  p ∈ obj_set m k x -> p ∈ m \/ p = (k, x).
Proof.
  induction m as [|[k0 x0] m IH]; simpl.
  - intros Hp. apply list_elem_of_singleton in Hp. auto.
  - destruct (String.eqb_spec k0 k) as [->|Hne]; intros Hp;
      apply elem_of_cons in Hp as [->|Hp].
    + auto.
    + left. right. exact Hp.
    + left. left.
    + destruct (IH Hp) as [H|H]; [left; right; exact H|auto].
Qed.

Lemma obj_assign_elem {A} (m : list (string * A)) : forall d p,
  p ∈ obj_assign d m -> p ∈ d \/ p ∈ m.
Proof.
  unfold obj_assign. induction m as [|[k x] m IH]; intros d p; simpl.
  - auto.
  - intros Hp. destruct (IH _ _ Hp) as [H|H].
    + apply obj_set_elem in H as [H| ->]; [auto|right; left].
    + right. right. exact H.
Qed.

Lemma subtree_trans t a e : subtree t a -> subtree a e -> subtree t e.
Proof.
  intros Hta Hae. induction Hae as [|k b args a' Hin _ IH]; [exact Hta|].
  eapply subtree_below; [exact Hin|exact IH].
Qed.

Lemma captured_nil e : captured_from [] e.
Proof. intros name t H. inversion H. Qed.

Lemma captured_obj_set m name e :
  captured_from m e -> captured_from (obj_set m name e) e.
Proof.
  intros Hm n t H. apply obj_set_elem in H as [H|[= -> ->]].
  - exact (Hm n t H).
  - constructor.
Qed.

Lemma captured_assign d m e :
  captured_from d e -> captured_from m e -> captured_from (obj_assign d m) e.
Proof.
  intros Hd Hm n t H. apply obj_assign_elem in H as [H|H]; eauto.
Qed.

Lemma captured_below m a k b args :
  a ∈ args -> captured_from m a -> captured_from m (Tree k b (Some args)).
Proof.
  intros Hin Hm n t H. eapply subtree_below; [exact Hin|]. exact (Hm n t H).
Qed.

Lemma positional_only_args k b args a :
  positional_only (Tree k b (Some args)) = true -> a ∈ args ->
  positional_only a = true.
Proof.
  cbn [positional_only]. intros H Ha. apply andb_true_iff in H as [_ H].
  rewrite forallb_forall in H. apply H, list_elem_of_In, Ha.
Qed.

Section Captures.
Variable rec : tree -> tree -> result (option captures).

Lemma positional_from_captured k b eargs rargs : forall i d m,
  (forall r, r ∈ rargs -> forall e m,
     rec r e = OK (Some m) -> captured_from m e) ->
  captured_from d (Tree k b (Some eargs)) ->
  positional_from rec eargs i rargs d = OK (Some m) ->
  captured_from m (Tree k b (Some eargs)).
Proof.
  induction rargs as [|r rargs IH]; intros i d m Hrec Hd H; simpl in H.
  - injection H as <-. exact Hd.
  - destruct (eargs !! i) as [e|] eqn:He; [|discriminate].
    destruct (rec r e) as [[m1|]| |] eqn:Hr; try discriminate.
    cbn [mbind result_bind rbind] in H.
    eapply IH; [| |exact H].
    + intros r' Hr'. apply Hrec. right. exact Hr'.
    + apply captured_assign; [exact Hd|].
      eapply captured_below; [eapply list_elem_of_lookup_2, He|].
      eapply Hrec; [left|exact Hr].
Qed.

Lemma positional_captured ruleTree exprTree m :
  (forall r, (exists k b args, ruleTree = Tree k b (Some args) /\ r ∈ args) ->
     forall e m, rec r e = OK (Some m) -> captured_from m e) ->
  positional rec ruleTree exprTree = OK (Some m) ->
  captured_from m exprTree.
Proof.
  intros Hrec H. unfold positional in H.
  destruct (_ || _); [discriminate|].
  destruct ruleTree as [k b [rargs|]], exprTree as [k' b' [eargs|]];
    cbn [tree_args] in H; try discriminate.
  - assert (H' : positional_from rec eargs 0 rargs [] = OK (Some m))
      by (destruct rargs; exact H).
    eapply positional_from_captured; [|apply captured_nil|exact H'].
    intros r Hr. apply Hrec. eauto.
  - destruct rargs; [|discriminate]. injection H as <-. apply captured_nil.
Qed.

End Captures.

Section Facts.
Variable findvars : tree -> list string.

Lemma matchAllTree_unfold fuel ruleTree k b args doCommute :
  matchAllTree findvars fuel ruleTree (Tree k b args) doCommute
  = (m ← matchTree findvars fuel ruleTree (Tree k b args) doCommute;
     let matches := match m with Some m => [m] | None => [] end in
     match args with
     | Some args =>
         (fix forEach (args : list tree) (matches : list captures)
            : result (list captures) :=
            match args with
            | [] => OK matches
            | arg :: args' =>
                submatches ← matchAllTree findvars fuel ruleTree arg doCommute;
                forEach args' (matches ++ submatches)
            end) args matches
     | None => OK matches
     end).
Proof. reflexivity. Qed.

(** X12.  [matchAllTree] tries the pattern at every node of the
    expression, each node before its arguments and the arguments from left
    to right, and returns the matches in that order; a node where the
    pattern does not match adds nothing, and the first error ends the
    run. *)
Theorem matchAllTree_visits_every_node fuel ruleTree doCommute exprTree :
  matchAllTree findvars fuel ruleTree exprTree doCommute
  = (ms ← mapM (fun t => matchTree findvars fuel ruleTree t doCommute)
               (preorder exprTree);
     OK (omap id ms)).
Proof.
  induction exprTree as [k b|k b args IH] using tree_nested_ind;
    rewrite matchAllTree_unfold; cbn [preorder mapM].
  - destruct (matchTree _ _ _ _ _) as [[m|]| |]; reflexivity.
  - destruct (matchTree findvars fuel ruleTree (Tree k b (Some args)) doCommute)
      as [m| |]; cbn [mbind result_bind rbind]; try reflexivity.
    assert (Hgoal : forall acc,
      (fix forEach (args0 : list tree) (matches : list captures)
         : result (list captures) :=
         match args0 with
         | [] => OK matches
         | arg :: args' =>
             submatches ← matchAllTree findvars fuel ruleTree arg doCommute;
             forEach args' (matches ++ submatches)
         end) args acc
      = (ms ← mapM (fun t => matchTree findvars fuel ruleTree t doCommute)
                   (flat_map preorder args);
         OK (acc ++ omap id ms))).
    { induction IH as [|a args Ha _ IHargs]; intros acc.
      - simpl. rewrite app_nil_r. reflexivity.
      - cbn [flat_map]. rewrite mapM_result_app, Ha.
        destruct (mapM _ (preorder a)) as [ms1| |];
          cbn [mbind result_bind rbind]; try reflexivity.
        rewrite IHargs.
        destruct (mapM _ (flat_map preorder args)) as [ms2| |];
          cbn [mbind result_bind rbind]; try reflexivity.
        rewrite omap_app, app_assoc. reflexivity. }
    cbv zeta. rewrite Hgoal.
    destruct (mapM _ (flat_map preorder args)) as [ms| |];
      cbn [mbind result_bind rbind]; try reflexivity.
    destruct m as [m|]; reflexivity.
Qed.

Lemma first_match_captured (f : tree -> result (option captures)) e alts m :
  (forall a, a ∈ alts -> forall m, f a = OK (Some m) -> captured_from m e) ->
  first_match f alts = OK (Some m) -> captured_from m e.
Proof.
  induction alts as [|a alts IH]; intros Hf H; simpl in H; [discriminate|].
  destruct (f a) as [[m1|]| |] eqn:Ha; try discriminate;
    cbn [mbind result_bind rbind] in H.
  - injection H as <-. eapply Hf; [left|exact Ha].
  - apply IH; [|exact H]. intros a' Ha'. apply Hf. right. exact Ha'.
Qed.

(** X13.  When the matcher does not commute - [doCommute] is not set and
    the pattern has no [m_commute] - every tree that a match holds under a
    name is a node of the matched expression: the matcher cuts the
    expression up and builds nothing new. *)
Theorem captures_are_nodes_of_the_expression fuel ruleTree exprTree m :
  positional_only ruleTree = true ->
  matchTree findvars fuel ruleTree exprTree false = OK (Some m) ->
  forall name t, (name, t) ∈ m -> subtree t exprTree.
Proof.
  intros Hr0 H0. change (captured_from m exprTree).
  revert ruleTree exprTree m Hr0 H0.
  induction fuel as [|fuel IH]; intros r e m Hr H; [discriminate H|].
  assert (Hargs : forall a, (exists k b args, r = Tree k b (Some args) /\ a ∈ args) ->
            forall e m, matchTree findvars fuel a e false = OK (Some m) ->
                        captured_from m e).
  { intros a (k & b & args & -> & Ha) e' m' H'.
    eapply IH; [|exact H']. eapply positional_only_args; eauto. }
  assert (Hpos : positional (fun r e => matchTree findvars fuel r e false) r e
                 = OK (Some m) -> captured_from m e).
  { apply positional_captured. exact Hargs. }
  destruct r as [k b rargs].
  assert (Hfirst : forall p rest, rargs = Some (p :: rest) ->
            positional_only p = true).
  { intros p rest ->. eapply positional_only_args; [exact Hr|left]. }
  cbn [matchTree tree_tok tree_args] in H.
  destruct k; cbn [isOp] in H;
    try (destruct (negb _); [discriminate|];
         repeat match type of H with
                | context [match ?x with _ => _ end] => destruct x
                end;
         try discriminate; injection H as <-; apply captured_nil).
  - (* name *)
    repeat match type of H with
           | context [if ?c then _ else _] => destruct c
           end; try discriminate; injection H as <-; apply captured_nil.
  - (* operator *)
    destruct (String.eqb name ";").
    + destruct rargs as [[|p [|n rest]]|]; try discriminate.
      destruct (tree_tok n); try discriminate.
      destruct (matchTree findvars fuel p e false) as [[m1|]| |] eqn:Hp;
        try discriminate.
      cbn [mbind result_bind rbind option_map] in H. injection H as <-.
      apply captured_obj_set. eapply IH; [|exact Hp].
      eapply Hfirst. reflexivity.
    + cbn [andb] in H. exact (Hpos H).
  - (* function *)
    cbn [positional_only isFunction] in Hr.
    destruct (String.eqb name "m_any").
    { destruct rargs as [alts|]; [|discriminate].
      eapply first_match_captured; [|exact H].
      intros a Ha m' Hm'. eapply Hargs; [|exact Hm']. eauto. }
    destruct (String.eqb name "m_all").
    { destruct rargs as [[|p rest]|]; try discriminate.
      eapply IH; [|exact H]. eapply Hfirst. reflexivity. }
    destruct (String.eqb name "m_pm").
    { destruct rargs as [[|p rest]|]; try discriminate.
      pose proof (Hfirst p rest eq_refl) as Hp.
      destruct (isOp (tree_tok e) "-u").
      - eapply IH; [|exact H]. cbn. rewrite Hp. reflexivity.
      - eapply IH; [|exact H]. exact Hp. }
    destruct (String.eqb name "m_not").
    { destruct rargs as [[|p rest]|]; try discriminate.
      destruct (matchTree findvars fuel p e false) as [[m1|]| |];
        cbn [mbind result_bind rbind] in H; try discriminate.
      injection H as <-. apply captured_nil. }
    destruct (String.eqb name "m_and").
    { destruct rargs as [ps|]; [|discriminate].
      assert (Hps : forall a, a ∈ ps -> forall m,
                matchTree findvars fuel a e false = OK (Some m) ->
                captured_from m e).
      { intros a Ha m' Hm'. eapply Hargs; [|exact Hm']. eauto. }
      revert H. generalize (captured_nil e). generalize (@nil (string * tree)).
      clear -Hps. induction ps as [|p ps IHps]; intros d Hd H.
      - injection H as <-. exact Hd.
      - destruct (matchTree findvars fuel p e false) as [[m1|]| |] eqn:Hp;
          try discriminate.
        cbn [mbind result_bind rbind] in H.
        eapply IHps; [| |exact H].
        + intros a Ha. apply Hps. right. exact Ha.
        + apply captured_assign; [exact Hd|]. eapply Hps; [left|exact Hp]. }
    destruct (String.eqb name "m_uses").
    { destruct rargs as [ns|]; [|discriminate].
      match type of H with
      | context [if ?c then _ else _] => destruct c
      end; [|discriminate].
      injection H as <-. apply captured_nil. }
    destruct (String.eqb name "m_commute"); [cbn in Hr; discriminate Hr|].
    destruct (String.eqb name "m_type").
    { destruct rargs as [[|p rest]|]; try discriminate.
      destruct (bool_decide _); [|discriminate].
      injection H as <-. apply captured_nil. }
    match type of H with
    | context [if ?c then _ else _] => destruct c
    end; [discriminate|].
    cbn [andb] in H. exact (Hpos H).
Qed.

End Facts.

Lemma captures_are_nodes_of_the_expression_witness :
  subtree (variable "y") (binary "+" (variable "y") (numeral 0)).
Proof.
  apply (captures_are_nodes_of_the_expression no_findvars 3
           (rule_tree plus_zero_rule)
           (binary "+" (variable "y") (numeral 0))
           [("x", variable "y")] eq_refl eq_refl "x" (variable "y")).
  left.
Defined.

End MatchMoreFacts.

(** * Facts about [computeVariable] and [makeVariables] on success *)

Module VariablesMoreFacts.

Lemma keeps_refl s : keeps s s.
Proof. repeat split; auto. Qed.

Lemma keeps_trans s1 s2 s3 : keeps s1 s2 -> keeps s2 s3 -> keeps s1 s3.
Proof.
  intros (Hg1 & Ho1 & Hd1 & Hp1 & Hf1) (Hg2 & Ho2 & Hd2 & Hp2 & Hf2).
  repeat split; auto; congruence.
Qed.

Lemma keeps_has_value s s' x : keeps s s' -> has_value s x -> has_value s' x.
Proof.
  intros (Hg & Ho & _) [[v Hv]|Hx]; [left|right; auto].
  rewrite (Hg _ _ Hv). eauto.
Qed.

(** a write under a name that [getVariable] did not find in [s] *)
Lemma keeps_write s mid name v :
  getVariable s name = None -> keeps s mid ->
  keeps s (write_variable mid name v).
Proof.
  intros Hnone (Hg & Ho & Hd & Hp & Hf). split; [|split; [|repeat split]].
  - intros y w Hy. rewrite VariablesFacts.getVariable_write_other; [auto|].
    intros ->. congruence.
  - intros y Hy. simpl. destruct (decide (y = name)) as [->|Hne].
    + rewrite lookup_insert_eq. eauto.
    + rewrite lookup_insert_ne by congruence. auto.
  - exact Hd.
  - exact Hp.
  - exact Hf.
Qed.

Lemma has_value_write s name v : has_value (write_variable s name v) name.
Proof. right. simpl. rewrite lookup_insert_eq. eauto. Qed.

(** a value that is not hidden by a deletion is found *)
Lemma has_value_visible s x :
  has_value s x ->
  is_Some (getVariable s x)
  \/ (x ∈ deleted_variables s /\ is_Some (variables s !! x)).
Proof.
  intros [H|[v Hv]]; [left; exact H|].
  destruct (decide (x ∈ deleted_variables s)) as [Hd|Hd]; [right; eauto|].
  left. destruct s as [vs fs rs ds p]; simpl in *.
  rewrite bool_decide_eq_false_2 by exact Hd. rewrite Hv. eauto.
Qed.

Section Resolver.
Variable findvars : tree -> list string.
Variable jme_evaluate : Scope -> tree -> result token.
Variable todo : list (string * definition).

Lemma dependencies_keeps computeFn name path :
  (forall x sc r sc',
     computeFn x sc (name :: path) = OK (r, sc') ->
     keeps sc sc' /\ has_value sc' x) ->
  forall vars scope scope',
    dependencies computeFn name path vars scope = OK scope' ->
    keeps scope scope' /\ forall x, x ∈ vars -> has_value scope' x.
Proof.
  intros Hfn. induction vars as [|x vars IH]; intros scope scope' H; cbn in H.
  - injection H as <-. split; [apply keeps_refl|]. intros x Hx. inversion Hx.
  - destruct (variables scope !! x) as [w|] eqn:Hown.
    + destruct (IH _ _ H) as [Hk Hv]. split; [exact Hk|].
      intros y Hy. apply elem_of_cons in Hy as [->|Hy]; [|auto].
      eapply keeps_has_value; [exact Hk|]. right. rewrite Hown. eauto.
    + destruct (computeFn x scope (name :: path)) as [[r sc]|e|] eqn:Hc.
      * destruct (Hfn _ _ _ _ Hc) as [Hk1 Hx].
        destruct (IH _ _ H) as [Hk2 Hv]. split.
        -- eapply keeps_trans; eassumption.
        -- intros y Hy. apply elem_of_cons in Hy as [->|Hy]; [|auto].
           eapply keeps_has_value; eassumption.
      * destruct (@VariablesFacts.rethrow_dependency_Err Scope x e) as [e' He].
        rewrite He in H. discriminate.
      * discriminate.
Qed.

Lemma computeVariable_keeps fuel : forall name scope path r scope',
  computeVariable jme_evaluate fuel name todo scope path = OK (r, scope') ->
  keeps scope scope' /\ has_value scope' name.
Proof.
  induction fuel as [|fuel IH]; intros name scope path r scope' H;
    [discriminate|].
  rewrite VariablesFacts.computeVariable_S in H.
  destruct (getVariable scope name) as [w|] eqn:Hg.
  - injection H as _ <-. split; [apply keeps_refl|]. left. rewrite Hg. eauto.
  - destruct (bool_decide (name ∈ path)); [discriminate|].
    destruct (obj_get todo name) as [v|]; [|discriminate].
    destruct (dependencies _ name path (def_vars v) scope) as [mid| |] eqn:Hd;
      cbn [mbind result_bind rbind] in H; try discriminate.
    destruct (def_tree v) as [t|]; [|discriminate].
    destruct (jme_evaluate mid t) as [k| |]; try discriminate.
    injection H as _ <-.
    destruct (dependencies_keeps
                (fun x sc p => computeVariable jme_evaluate fuel x todo sc p)
                name path
                ltac:(intros x sc r' sc' Hc; exact (IH _ _ _ _ _ Hc))
                _ _ _ Hd) as [Hk _].
    split; [|apply has_value_write].
    apply keeps_write; assumption.
Qed.

Lemma compute_all_keeps fuel : forall names scope scope',
  compute_all jme_evaluate fuel names todo scope = OK scope' ->
  keeps scope scope' /\ forall x, x ∈ names -> has_value scope' x.
Proof.
  induction names as [|x names IH]; intros scope scope' H; cbn in H.
  - injection H as <-. split; [apply keeps_refl|]. intros x Hx. inversion Hx.
  - destruct (computeVariable jme_evaluate fuel x todo scope [])
      as [[r sc]| |] eqn:Hc; cbn [mbind result_bind rbind] in H;
      try discriminate.
    destruct (computeVariable_keeps _ _ _ _ _ _ Hc) as [Hk1 Hx].
    destruct (IH _ _ H) as [Hk2 Hv]. split.
    + eapply keeps_trans; eassumption.
    + intros y Hy. apply elem_of_cons in Hy as [->|Hy]; [|auto].
      eapply keeps_has_value; eassumption.
Qed.

Lemma makeVariables_keeps fuel scope condition scope' satisfied :
  makeVariables findvars jme_evaluate fuel todo scope condition
  = OK (scope', satisfied) ->
  keeps scope scope'
  /\ (satisfied = true -> forall x, x ∈ map fst todo -> has_value scope' x).
Proof.
  unfold makeVariables. intros H.
  assert (Hfirst : exists s1 sat,
            match condition with
            | Some c =>
                scope ← compute_all jme_evaluate fuel (findvars c) todo scope;
                k ← jme_evaluate scope c;
                OK (scope, value_truthy k)
            | None => OK (scope, true)
            end = OK (s1, sat) /\ keeps scope s1).
  { destruct condition as [c|].
    - destruct (compute_all jme_evaluate fuel (findvars c) todo scope)
        as [s1| |] eqn:H1; cbn [mbind result_bind rbind] in H |- *;
        try discriminate.
      destruct (jme_evaluate s1 c) as [k| |];
        cbn [mbind result_bind rbind] in H |- *; try discriminate.
      exists s1, (value_truthy k). split; [reflexivity|].
      apply (compute_all_keeps _ _ _ _ H1).
    - exists scope, true. split; [reflexivity|apply keeps_refl]. }
  destruct Hfirst as (s1 & sat & Heq & Hk1). rewrite Heq in H.
  cbn [mbind result_bind rbind] in H. destruct sat.
  - destruct (compute_all jme_evaluate fuel (map fst todo) todo s1)
      as [s2| |] eqn:H2; cbn [mbind result_bind rbind] in H; try discriminate.
    injection H as <- <-.
    destruct (compute_all_keeps _ _ _ _ H2) as [Hk2 Hv].
    split; [eapply keeps_trans; eassumption|]. intros _. exact Hv.
  - injection H as <- <-. split; [exact Hk1|discriminate].
Qed.

(** X14.  [makeVariables] only adds: every variable that [getVariable]
    found in the scope before is found afterwards, with the same value,
    whether or not the condition was satisfied; the variables of the scope
    itself are still there, and the deleted names, the parent and the
    functions are what they were. *)
Theorem makeVariables_keeps_what_was_there fuel scope condition scope'
    satisfied :
  makeVariables findvars jme_evaluate fuel todo scope condition
  = OK (scope', satisfied) ->
  (forall y v, getVariable scope y = Some v -> getVariable scope' y = Some v)
  /\ keeps scope scope'.
Proof.
  intros H. destruct (makeVariables_keeps _ _ _ _ _ H) as [Hk _].
  split; [apply Hk|exact Hk].
Qed.



Lemma rethrow_fails name v x e e' :
  obj_get todo name = Some v -> x ∈ def_vars v -> fails todo x e ->
  @rethrow_dependency Scope x e = Err e' -> fails todo name e'.
Proof.
  intros Hv Hx He H. unfold rethrow_dependency in H.
  destruct e as [msg args cause|].
  - destruct (_ || _) eqn:Hmsg.
    + injection H as <-.
      inversion He; subst; try discriminate Hmsg; constructor.
    + injection H as <-. eapply fails_dependency; eassumption.
  - injection H as <-. eapply fails_dependency; eassumption.
Qed.

Lemma dependencies_fails computeFn name path v :
  obj_get todo name = Some v ->
  (forall x sc e, computeFn x sc (name :: path) = Err e -> fails todo x e) ->
  forall vars scope e,
    (forall y, y ∈ vars -> y ∈ def_vars v) ->
    dependencies computeFn name path vars scope = Err e ->
    fails todo name e.
Proof.
  intros Hv Hfn. induction vars as [|x vars IH]; intros scope e Hsub H;
    cbn in H; [discriminate|].
  assert (Hsub' : forall y, y ∈ vars -> y ∈ def_vars v).
  { intros y Hy. apply Hsub. right. exact Hy. }
  destruct (variables scope !! x); [exact (IH _ _ Hsub' H)|].
  destruct (computeFn x scope (name :: path)) as [[r sc]|e0|] eqn:Hc.
  - exact (IH _ _ Hsub' H).
  - eapply rethrow_fails; [exact Hv| |exact (Hfn _ _ _ Hc)|exact H].
    apply Hsub. left.
  - discriminate.
Qed.


End Resolver.

Lemma makeVariables_keeps_what_was_there_witness :
  (forall y v, getVariable empty_scope y = Some v ->
               getVariable a_and_b_computed y = Some v)
  /\ keeps empty_scope a_and_b_computed.
Proof.
  apply (makeVariables_keeps_what_was_there no_findvars always_zero a_needs_b
           3 empty_scope None a_and_b_computed true).
  vm_compute. reflexivity.
Defined.




End VariablesMoreFacts.

(** * Simplification of a tree that no rule matches *)

Module SimplifyMoreFacts.

Lemma height_arg a args :
  a ∈ args ->
  (height a <= foldr (fun a n => Nat.max (height a) n) 0 args)%nat.
Proof.
  induction args as [|x args IH]; intros Ha; [inversion Ha|].
  cbn [foldr]. apply elem_of_cons in Ha as [->|Ha]; [lia|].
  specialize (IH Ha). lia.
Qed.

Section Facts.
Variable findvars : tree -> list string.
Variable jme_evaluate : Scope -> tree -> result token.
Variable treeToJME : tree -> string.
Variable match_fuel : nat.

Lemma simplify_loop_normal rs scope :
  set_variables scope ∅ = scope ->
  forall t, normal findvars jme_evaluate match_fuel rs scope t ->
  forall fuel depth seen, (height t <= fuel)%nat ->
    simplify_loop findvars jme_evaluate treeToJME match_fuel fuel rs scope t
                  depth seen = OK t.
Proof.
  intros Hscope t.
  induction t as [k b|k b args IH] using MatchMoreFacts.tree_nested_ind;
    intros Hn fuel depth seen Hfuel; inversion Hn as [? ? ? Heval Hargs Hrules];
    subst; apply SimplifyFacts.first_rule_None in Hrules;
    (destruct fuel as [|fuel]; [cbn in Hfuel; lia|]);
    rewrite SimplifyFacts.simplify_loop_S;
    unfold is_eval_call; cbn [tree_tok]; rewrite Heval.
  - cbn [mbind result_bind rbind]. rewrite Hrules. reflexivity.
  - rewrite Hscope.
    rewrite (SimplifyFacts.mapM_fixed
               (fun a => simplify_loop findvars jme_evaluate treeToJME
                           match_fuel fuel rs scope a 0%nat []) args).
    + cbn [mbind result_bind rbind]. rewrite Hrules. reflexivity.
    + specialize (Hargs args eq_refl).
      rewrite List.Forall_forall in IH, Hargs. apply List.Forall_forall.
      intros a Ha. apply IH; [exact Ha|apply Hargs, Ha|].
      apply list_elem_of_In in Ha. pose proof (height_arg a args Ha).
      cbn [height] in Hfuel. lia.
Qed.

(** X17.  A tree in which no rule of the ruleset matches any node and no
    node is a call of [eval] is returned by [simplifyTree] as it is, once
    the step bound is at least the height of the tree: nothing is
    rewritten and no error is raised. *)
Theorem simplifyTree_returns_a_normal_tree fuel t ruleset scope :
  normal findvars jme_evaluate match_fuel (rules ruleset)
         (set_variables scope ∅) t ->
  (height t <= fuel)%nat ->
  simplifyTree findvars jme_evaluate treeToJME match_fuel fuel t ruleset scope
  = OK t.
Proof.
  intros Hn Hfuel. unfold simplifyTree.
  apply simplify_loop_normal; [reflexivity|exact Hn|exact Hfuel].
Qed.

End Facts.

Lemma simplifyTree_returns_a_normal_tree_witness :
  simplifyTree no_findvars small_evaluate no_treeToJME 5 1 (variable "y")
               plus_zero_ruleset empty_scope
  = OK (variable "y").
Proof.
  apply (simplifyTree_returns_a_normal_tree no_findvars small_evaluate
           no_treeToJME 5 1 (variable "y") plus_zero_ruleset empty_scope).
  - constructor.
    + reflexivity.
    + intros l H. discriminate H.
    + repeat constructor.
  - simpl. lia.
Defined.

End SimplifyMoreFacts.

(** * Facts about the tokeniser: quoted texts and errors *)

Module TokeniserMoreFacts.
Import Tokeniser.

Lemma tokenise_step_error oexpr expr tokens e :
  tokenise_step oexpr expr tokens = Err e -> tokenise_error oexpr e.
Proof.
  unfold tokenise_step.
  repeat match goal with
         | |- context [match ?x with _ => _ end] => destruct x eqn:?
         end; try discriminate; intros [= <-]; constructor.
Qed.

Lemma tokenise_loop_error fuel oexpr : forall expr tokens e,
  tokenise_loop fuel oexpr expr tokens = Err e -> tokenise_error oexpr e.
Proof.
  induction fuel as [|fuel IH]; intros expr tokens e H;
    destruct expr as [|c expr]; cbn [tokenise_loop] in H; try discriminate.
  destruct (tokenise_step oexpr (c :: expr) tokens) as [[[e' t']|]|err|] eqn:Hs;
    cbn [mbind result_bind rbind] in H; try discriminate.
  - exact (IH _ _ _ H).
  - injection H as <-. exact (tokenise_step_error _ _ _ _ Hs).
Qed.



Lemma plain_char_spec c :
  plain_char c = true ->
  Ascii.eqb c dq = false /\ Ascii.eqb c "\" = false /\ (code c =? 1)%nat = false.
Proof.
  unfold plain_char. rewrite !andb_true_iff, !negb_true_iff. tauto.
Qed.

Lemma string_body_plain s :
  forallb plain_char s = true ->
  string_body [dq] false (s ++ [dq]) = Some s.
Proof.
  induction s as [|c s IH]; intros H; [reflexivity|].
  cbn [forallb] in H. apply andb_true_iff in H as [Hc Hs].
  destruct (plain_char_spec c Hc) as (Hq & Hb & H1).
  cbn [app string_body starts_with]. rewrite Ascii.eqb_sym, Hq. cbn [andb].
  rewrite Hb, H1, (IH Hs). reflexivity.
Qed.

Lemma unescape_plain s :
  forallb plain_char s = true -> unescape false s = s.
Proof.
  induction s as [|c s IH]; intros H; [reflexivity|].
  cbn [forallb] in H. apply andb_true_iff in H as [Hc Hs].
  destruct (plain_char_spec c Hc) as (_ & Hb & _).
  cbn [unescape]. rewrite Hb, (IH Hs). reflexivity.
Qed.

Lemma strip_trailing_rev_quote r : strip_trailing_rev 0 (dq :: r) = dq :: r.
Proof. reflexivity. Qed.

Lemma strip_whitespace_quoted s :
  strip_whitespace (dq :: s ++ [dq]) = dq :: s ++ [dq].
Proof.
  unfold strip_whitespace, strip_trailing.
  change (strip_leading 0 (dq :: s ++ [dq])) with (dq :: s ++ [dq]).
  replace (rev (dq :: s ++ [dq])) with (dq :: rev s ++ [dq]).
  - rewrite strip_trailing_rev_quote.
    cbn [rev]. rewrite rev_app_distr, rev_involutive. reflexivity.
  - cbn [rev]. rewrite rev_app_distr. reflexivity.
Qed.

Lemma match_string_quoted s :
  forallb plain_char s = true ->
  match_string (dq :: s ++ [dq]) = Some ((2 + length s)%nat, s).
Proof.
  intros H. unfold match_string, string_delimiters.
  assert (H3 : starts_with [dq; dq; dq] (dq :: s ++ [dq]) = false).
  { destruct s as [|c s]; [reflexivity|].
    cbn [forallb] in H. apply andb_true_iff in H as [Hc _].
    destruct (plain_char_spec c Hc) as (Hq & _).
    cbn [app starts_with]. rewrite (Ascii.eqb_sym dq c), Hq. reflexivity. }
  cbn [match_string_with]. rewrite H3.
  change (starts_with (lit "'''") (dq :: s ++ [dq])) with false.
  change (starts_with (lit "'") (dq :: s ++ [dq])) with false.
  change (starts_with [dq] (dq :: s ++ [dq])) with true.
  cbn [length drop]. rewrite drop_0, (string_body_plain s H). reflexivity.
Qed.

Lemma tokenise_step_quoted oexpr s tokens :
  forallb plain_char s = true ->
  tokenise_step oexpr (dq :: s ++ [dq]) tokens
  = OK (Some ([], tokens ++ [TString (str s) false false])).
Proof.
  intros H. unfold tokenise_step.
  rewrite strip_whitespace_quoted.
  replace (skip_comments (length (dq :: s ++ [dq])) (dq :: s ++ [dq]))
    with (dq :: s ++ [dq]) by reflexivity.
  change (match_number (dq :: s ++ [dq])) with (@None chars).
  change (match_bool (dq :: s ++ [dq])) with (@None chars).
  change (match_op (dq :: s ++ [dq])) with (@None chars).
  change (match_name (dq :: s ++ [dq])) with (@None name_match).
  change (match_punctuation (dq :: s ++ [dq])) with (@None chars).
  rewrite (match_string_quoted s H), (unescape_plain s H).
  replace (drop (2 + length s) (dq :: s ++ [dq])) with (@nil ascii);
    [reflexivity|].
  cbn [Nat.add drop].
  replace (S (length s)) with (length (s ++ [dq]))
    by (rewrite length_app; simpl; lia).
  symmetry. apply drop_all.
Qed.

(** X19.  A text between double quotes that has no double quote, no
    backslash and no character U+0001 is read as one string token that
    holds the text as it stands - line breaks, braces and leading or
    trailing spaces included. *)
Theorem tokenise_quoted_text s :
  forallb plain_char s = true ->
  tokenise (quoted s) = OK [TString (str s) false false].
Proof.
  intros H. unfold tokenise, quoted. cbn [str string_of_list_ascii].
  change (String dq (string_of_list_ascii (s ++ [dq])))
    with (string_of_list_ascii (dq :: s ++ [dq])).
  unfold lit. rewrite list_ascii_of_string_of_list_ascii.
  rewrite strip_whitespace_quoted. cbn [length tokenise_loop].
  rewrite (tokenise_step_quoted _ s [] H).
  rewrite length_app, Nat.add_1_r. reflexivity.
Qed.

Lemma tokenise_quoted_text_witness :
  tokenise (quoted (lit " a {b} ")) = OK [TString " a {b} " false false].
Proof.
  apply (tokenise_quoted_text (lit " a {b} ")).
  reflexivity.
Defined.

End TokeniserMoreFacts.

(** * Facts about [substituteTree] *)

Module SubstituteFacts.

Section Facts.
Variable scope : Scope.
Variable allowUnbound : bool.
Hypothesis scope_holds_values : holds_values scope.

Local Abbreviation sub := (fun a => substituteTree a scope allowUnbound).

Local Abbreviation stable := (settled_by_substitution scope allowUnbound).

Lemma mapM_stable args args' :
  Forall stable args -> mapM sub args = OK args' -> mapM sub args' = OK args'.
Proof.
  intros Hst H. apply SimplifyFacts.mapM_OK_Forall2 in H.
  apply SimplifyFacts.mapM_fixed.
  induction H as [|a a' l l' Ha _ IH]; constructor.
  - inversion Hst; subst. auto.
  - apply IH. inversion Hst; assumption.
Qed.

Lemma mapM_indexed_stable (n : nat) args : forall i args',
  Forall stable args ->
  mapM_indexed (fun i a => if Nat.odd i && (S i <? n)%nat then sub a else OK a)
               i args = OK args' ->
  mapM_indexed (fun i a => if Nat.odd i && (S i <? n)%nat then sub a else OK a)
               i args' = OK args'
  /\ length args' = length args.
Proof.
  induction args as [|a args IH]; intros i args' Hst H;
    cbn [mapM_indexed] in H.
  - injection H as <-. split; reflexivity.
  - inversion Hst as [|? ? Ha Hrest]; subst.
    destruct (if Nat.odd i && (S i <? n)%nat then sub a else OK a)
      as [a'| |] eqn:Hhead; cbn [mbind result_bind rbind] in H;
      try discriminate.
    destruct (mapM_indexed _ (S i) args) as [rest'| |] eqn:Htail;
      cbn [mbind result_bind rbind] in H; try discriminate.
    injection H as <-. destruct (IH _ _ Hrest Htail) as [Hfix Hlen].
    split; [|cbn; congruence].
    cbn [mapM_indexed]. rewrite Hfix.
    destruct (Nat.odd i && (S i <? n)%nat).
    + rewrite (Ha _ Hhead). reflexivity.
    + injection Hhead as <-. reflexivity.
Qed.

Lemma substituteTreeOps_None name (f : tree -> result tree) args args' :
  substituteTreeOps name f args = None ->
  substituteTreeOps name f args' = None.
Proof.
  unfold substituteTreeOps.
  repeat match goal with
         | |- context [String.eqb name ?s] => destruct (String.eqb name s)
         end; try discriminate; reflexivity.
Qed.

Lemma substituteTreeOps_stable name args args' :
  Forall stable args ->
  substituteTreeOps name sub args = Some (OK args') ->
  substituteTreeOps name sub args' = Some (OK args').
Proof.
  intros Hst. unfold substituteTreeOps.
  assert (Hat2 : forall l l',
            Forall stable l ->
            match l with
            | a0 :: a1 :: a2 :: rest => a2' ← sub a2; OK (a0 :: a1 :: a2' :: rest)
            | _ => Err TypeError
            end = OK l' ->
            match l' with
            | a0 :: a1 :: a2 :: rest => a2' ← sub a2; OK (a0 :: a1 :: a2' :: rest)
            | _ => Err TypeError
            end = OK l').
  { intros [|a0 [|a1 [|a2 rest]]] l' Hl H; try discriminate.
    destruct (sub a2) as [a2'| |] eqn:H2; cbn [mbind result_bind rbind] in H;
      try discriminate.
    injection H as <-.
    inversion Hl as [|? ? _ Hl1]; subst. inversion Hl1 as [|? ? _ Hl2]; subst.
    inversion Hl2 as [|? ? Ha2 _]; subst.
    rewrite (Ha2 _ H2). reflexivity. }
  destruct (String.eqb name "isset"); [intros [= <-]; reflexivity|].
  destruct (String.eqb name "map").
  { intros [= H]. f_equal. exact (Hat2 _ _ Hst H). }
  destruct (String.eqb name "filter").
  { intros [= H]. f_equal. exact (Hat2 _ _ Hst H). }
  destruct (String.eqb name "let").
  { intros [= H]. f_equal.
    destruct (mapM_indexed_stable (length args) args 0 args' Hst H)
      as [Hfix Hlen].
    rewrite Hlen. exact Hfix. }
  destruct (String.eqb name "apply"); [intros [= <-]; reflexivity|].
  discriminate.
Qed.

(** X21.  In a scope whose variables hold evaluated values - tokens that
    are not names - a second [substituteTree] changes nothing: the tree
    that the first pass returns is returned as it is by another pass in
    the same scope.  ([evaluate] makes such a second pass over every
    argument of a call.) *)
Theorem substituteTree_twice t t' :
  substituteTree t scope allowUnbound = OK t' ->
  substituteTree t' scope allowUnbound = OK t'.
Proof.
  revert t'. change (stable t).
  induction t as [k b|k b args IH] using MatchMoreFacts.tree_nested_ind;
    intros t' H; cbn [substituteTree] in H.
  - destruct b; [injection H as <-; reflexivity|].
    destruct k; try (injection H as <-; reflexivity).
    destruct (getVariable scope (toLowerCase name)) as [v|] eqn:Hg.
    + destruct (scope_holds_values _ _ Hg) as (k & -> & Hk).
      injection H as <-. unfold leaf. cbn [substituteTree].
      destruct k; try reflexivity. exfalso. eapply Hk. reflexivity.
    + destruct allowUnbound eqn:Hau; [|discriminate].
      injection H as <-. unfold leaf. cbn [substituteTree].
      rewrite VariablesFacts.toLowerCase_idempotent, Hg. reflexivity.
  - destruct b; [injection H as <-; reflexivity|].
    destruct (match tok_name k with
              | Some name =>
                  if is_call k then substituteTreeOps name sub args else None
              | None => None
              end) as [r|] eqn:Hcustom.
    + destruct r as [args'| |]; cbn [mbind result_bind rbind] in H;
        try discriminate.
      injection H as <-. unfold node. cbn [substituteTree].
      destruct (tok_name k) as [name|]; [|discriminate].
      destruct (is_call k); [|discriminate].
      rewrite (substituteTreeOps_stable _ _ _ IH Hcustom). reflexivity.
    + destruct (mapM sub args) as [args'| |] eqn:Hargs;
        cbn [mbind result_bind rbind] in H; try discriminate.
      injection H as <-. unfold node. cbn [substituteTree].
      assert (Hnone : match tok_name k with
                      | Some name =>
                          if is_call k then substituteTreeOps name sub args'
                          else None
                      | None => None
                      end = None).
      { destruct (tok_name k) as [name|]; [|reflexivity].
        destruct (is_call k); [|reflexivity].
        eapply substituteTreeOps_None. exact Hcustom. }
      rewrite Hnone, (mapM_stable _ _ IH Hargs). reflexivity.
Qed.

End Facts.

Lemma substituteTree_twice_witness :
  substituteTree (variable "x") empty_scope true = OK (variable "x").
Proof.
  apply (substituteTree_twice empty_scope true) with (t := variable "X").
  - intros x v H. exfalso. cbn in H.
    rewrite bool_decide_eq_false_2 in H by set_solver.
    rewrite lookup_empty in H. discriminate H.
  - reflexivity.
Defined.

End SubstituteFacts.

(** * Facts about [util.eq], [contains], [distinct] and [except] *)

Module UtilFacts.
Import Util.

Section Facts.
Variable other_eq : token -> token -> result bool.

Local Abbreviation eq := (Util.eq other_eq).
Local Abbreviation contains := (Util.contains other_eq).
Local Abbreviation distinct := (Util.distinct other_eq).
Local Abbreviation distinct_loop := (Util.distinct_loop other_eq).
Local Abbreviation except := (Util.except other_eq).

Lemma contains_true arr value :
  contains arr value = OK true -> exists x, x ∈ arr /\ eq value x = OK true.
Proof.
  induction arr as [|x arr IH]; cbn [Util.contains]; [discriminate|].
  destruct (eq value x) as [[]| |] eqn:Hx; cbn [mbind result_bind rbind];
    try discriminate.
  - intros _. exists x. split; [left|exact Hx].
  - intros H. destruct (IH H) as (y & Hy & He). exists y. split; [right|]; auto.
Qed.

Lemma contains_false arr value :
  contains arr value = OK false -> forall x, x ∈ arr -> eq value x = OK false.
Proof.
  induction arr as [|x arr IH]; cbn [Util.contains]; intros H y Hy;
    [inversion Hy|].
  destruct (eq value x) as [[]| |] eqn:Hx; cbn [mbind result_bind rbind] in H;
    try discriminate.
  apply elem_of_cons in Hy as [->|Hy]; [exact Hx|auto].
Qed.

(** X22.  [contains] answers whether [eq] holds between the value and an
    entry of the list: it returns [true] exactly when some entry is equal
    to the value, and [false] exactly when [eq] returned [false] for every
    entry. *)
Theorem contains_finds_an_equal_entry arr value b :
  contains arr value = OK b ->
  (b = true <-> exists x, x ∈ arr /\ eq value x = OK true)
  /\ (b = false <-> forall x, x ∈ arr -> eq value x = OK false).
Proof.
  intros H. destruct b.
  - pose proof (contains_true _ _ H) as (x & Hx & He). split; split; auto.
    + eauto.
    + discriminate.
    + intros Hall. rewrite (Hall x Hx) in He. discriminate.
  - pose proof (contains_false _ _ H) as Hall. split; split; auto.
    + discriminate.
    + intros (x & Hx & He). rewrite (Hall x Hx) in He. discriminate.
Qed.


Lemma distinct_inner x out :
  (fix loop (out : list token) : result bool :=
     match out with
     | [] => OK false
     | o :: out' => r ← eq x o; if r : bool then OK true else loop out'
     end) out
  = contains out x.
Proof.
  induction out as [|o out IH]; [reflexivity|].
  cbn [Util.contains]. rewrite <- IH. reflexivity.
Qed.

Lemma pairwise_different_snoc out x :
  pairwise_different other_eq out ->
  (forall y, y ∈ out -> eq x y = OK false) ->
  pairwise_different other_eq (out ++ [x]).
Proof.
  intros Hout Hx i j a b Hij Hi Hj.
  destruct (decide (j < length out)%nat) as [Hlt|Hge].
  - rewrite lookup_app_l in Hi, Hj by lia. eauto.
  - assert (j = length out) as ->.
    { apply lookup_lt_Some in Hj. rewrite length_app in Hj. simpl in Hj. lia. }
    rewrite lookup_app_l in Hi by lia.
    rewrite list_lookup_middle in Hj by reflexivity. injection Hj as <-.
    apply Hx. eapply list_elem_of_lookup_2. exact Hi.
Qed.

Lemma distinct_loop_spec arr : forall out0 out,
  distinct_loop arr out0 = OK out ->
  pairwise_different other_eq out0 ->
  (exists added, out = out0 ++ added /\ added `sublist_of` arr)
  /\ pairwise_different other_eq out
  /\ forall x, x ∈ arr -> x ∈ out \/ exists y, y ∈ out /\ eq x y = OK true.
Proof.
  induction arr as [|x arr IH]; intros out0 out H Hout0.
  - injection H as <-. split; [exists []; rewrite app_nil_r; auto|].
    split; [exact Hout0|]. intros x Hx. inversion Hx.
  - cbn [Util.distinct_loop] in H. rewrite distinct_inner in H.
    destruct (contains out0 x) as [[]| |] eqn:Hc;
      cbn [mbind result_bind rbind] in H; try discriminate.
    + destruct (IH _ _ H Hout0) as ((added & -> & Hsub) & Hpw & Hcov).
      split; [exists added; split; [reflexivity|apply sublist_cons, Hsub]|].
      split; [exact Hpw|].
      intros y Hy. apply elem_of_cons in Hy as [->|Hy]; [|auto].
      right. destruct (contains_true _ _ Hc) as (z & Hz & He).
      exists z. split; [apply elem_of_app; auto|exact He].
    + assert (Hpw0 : pairwise_different other_eq (out0 ++ [x])).
      { apply pairwise_different_snoc; [exact Hout0|].
        apply contains_false, Hc. }
      destruct (IH _ _ H Hpw0) as ((added & -> & Hsub) & Hpw & Hcov).
      split.
      { exists (x :: added). rewrite <- app_assoc. split; [reflexivity|].
        apply sublist_skip, Hsub. }
      split; [exact Hpw|].
      intros y Hy. apply elem_of_cons in Hy as [->|Hy]; [|auto].
      left. rewrite !elem_of_app, list_elem_of_singleton. auto.
Qed.

(** X23.  What [distinct] returns is the list without the entries that are
    equal, by [eq], to an entry kept before them: the entries are in the
    order of the list and start with its first entry, no entry is equal to
    an earlier one, and every entry of the list is kept or equal to one
    that is kept. *)
Theorem distinct_keeps_first_of_equals arr out :
  distinct arr = OK out ->
  out `sublist_of` arr
  /\ head out = head arr
  /\ pairwise_different other_eq out
  /\ forall x, x ∈ arr -> x ∈ out \/ exists y, y ∈ out /\ eq x y = OK true.
Proof.
  destruct arr as [|x arr]; cbn [Util.distinct]; intros H.
  - injection H as <-. split; [constructor|]. split; [reflexivity|]. split.
    + intros i j a b _ Hi. discriminate Hi.
    + intros x Hx. inversion Hx.
  - destruct (distinct_loop_spec arr [x] out H) as ((added & -> & Hsub) & Hpw & Hcov).
    { intros i j a b Hij Hi Hj. destruct j; [lia|discriminate Hj]. }
    split; [apply sublist_skip, Hsub|]. split; [reflexivity|].
    split; [exact Hpw|].
    intros y Hy. apply elem_of_cons in Hy as [->|Hy]; [left; left|auto].
Qed.

Lemma except_inner l exclude :
  (fix loop (exclude : list token) : result bool :=
     match exclude with
     | [] => OK false
     | e :: exclude' => r ← eq l e; if r : bool then OK true else loop exclude'
     end) exclude
  = contains exclude l.
Proof.
  induction exclude as [|e exclude IH]; [reflexivity|].
  cbn [Util.contains]. rewrite <- IH. reflexivity.
Qed.

(** X24.  [except] keeps, in their order, exactly the entries of the list
    for which [contains] finds nothing in [exclude]. *)
Theorem except_keeps_what_is_not_contained arr exclude r :
  except arr exclude = OK r ->
  r `sublist_of` arr
  /\ forall x, x ∈ r <-> x ∈ arr /\ contains exclude x = OK false.
Proof.
  revert r. induction arr as [|l arr IH]; intros r H;
    cbn [Util.except] in H.
  - injection H as <-. split; [constructor|].
    intros x. split; [intros Hx; inversion Hx|intros [Hx _]; inversion Hx].
  - rewrite except_inner in H.
    destruct (contains exclude l) as [excluded| |] eqn:Hc;
      cbn [mbind result_bind rbind] in H; try discriminate.
    destruct (Util.except other_eq arr exclude) as [rest| |] eqn:Hrest;
      cbn [mbind result_bind rbind] in H; try discriminate.
    injection H as <-. destruct (IH _ eq_refl) as [Hsub Hin].
    destruct excluded.
    + split; [apply sublist_cons, Hsub|]. intros x. rewrite Hin, elem_of_cons.
      split; [tauto|]. intros [[->|Hx] Hf]; [congruence|auto].
    + split; [apply sublist_skip, Hsub|]. intros x.
      rewrite !elem_of_cons, Hin. split.
      * intros [->|[Hx Hf]]; auto.
      * intros [[->|Hx] Hf]; auto.
Qed.


Lemma token_list_ind (P : token -> Prop) :
  (forall t,
     match t with TList _ (Some value) => Forall P value | _ => True end ->
     P t) ->
  forall t, P t.
Proof.
  intros H. fix IH 1. intros t. apply H.
  destruct t as [| | | |vars [value|]| | | | | | |]; try exact I.
  induction value as [|x value IHvalue]; constructor; [apply IH|exact IHvalue].
Qed.

Lemma math_eq_refl x : math_eq x x = true.
Proof. destruct x; try reflexivity. apply Qeq_bool_iff. reflexivity. Qed.

Lemma math_eq_sym x y : math_eq x y = math_eq y x.
Proof.
  destruct x, y; try reflexivity. unfold math_eq, Qeq_bool.
  apply Z.eqb_sym.
Qed.

Lemma entry_eq_refl x : entry_eq x x = true.
Proof. destruct x; [apply Qeq_bool_iff|]; reflexivity. Qed.

Lemma entry_eq_sym x y : entry_eq x y = entry_eq y x.
Proof.
  destruct x, y; try reflexivity. unfold entry_eq, Qeq_bool. apply Z.eqb_sym.
Qed.

Ltac same_type :=
  cbn [Util.eq type]; rewrite ?String.eqb_refl; cbn [negb];
  rewrite ?bool_decide_eq_true_2 by (unfold equalityTests; set_solver);
  cbn [negb].

Lemma eq_reflexive a : plain_value a = true -> eq a a = OK true.
Proof.
  induction a as [a IH] using token_list_ind. intros Hp.
  destruct a as [x|x ? ?|x|x ? ?|vars [value|]|?|value|? ? ?|? ?|?|?|?];
    try discriminate Hp; same_type.
  - rewrite math_eq_refl. reflexivity.
  - reflexivity.
  - destruct x; reflexivity.
  - reflexivity.
  - rewrite Nat.eqb_refl. cbn [plain_value] in Hp.
    assert (Hall : (fix filter (avalue bvalue : list token) : result (list bool) :=
               match avalue, bvalue with
               | ae :: avalue', be :: bvalue' =>
                   r ← eq ae be;
                   rs ← filter avalue' bvalue';
                   OK (negb r :: rs)
               | _, _ => OK []
               end) value value = OK (map (fun _ => false) value)).
    { induction value as [|x value IHvalue]; [reflexivity|].
      cbn [forallb] in Hp. apply andb_true_iff in Hp as [Hx Hrest].
      inversion IH as [|? ? Hx' Hrest']; subst.
      rewrite (Hx' Hx). cbn [mbind result_bind rbind].
      rewrite (IHvalue Hrest' Hrest). reflexivity. }
    rewrite Hall. cbn [mbind result_bind rbind]. f_equal.
    clear. induction value; [reflexivity|assumption].
  - rewrite !entry_eq_refl. reflexivity.
Qed.

Lemma eq_symmetric a : forall b,
  plain_value a = true -> plain_value b = true -> eq a b = eq b a.
Proof.
  induction a as [a IH] using token_list_ind. intros b Ha Hb.
  destruct a as [x|x ? ?|x|x ? ?|vars [value|]|?|value|? ? ?|? ?|?|?|?];
    try discriminate Ha;
    destruct b as [y|y ? ?|y|y ? ?|vars' [value'|]|?|value'|? ? ?|? ?|?|?|?];
    try discriminate Hb; try reflexivity; same_type.
  - rewrite math_eq_sym. reflexivity.
  - rewrite String.eqb_sym. reflexivity.
  - destruct x, y; reflexivity.
  - rewrite String.eqb_sym. reflexivity.
  - rewrite (Nat.eqb_sym (length value')).
    destruct (length value =? length value')%nat; [|reflexivity].
    cbn [plain_value] in Ha, Hb.
    assert (Hall : forall l',
              forallb plain_value l' = true ->
              (fix filter (avalue bvalue : list token) : result (list bool) :=
                 match avalue, bvalue with
                 | ae :: avalue', be :: bvalue' =>
                     r ← eq ae be;
                     rs ← filter avalue' bvalue';
                     OK (negb r :: rs)
                 | _, _ => OK []
                 end) value l'
              = (fix filter (avalue bvalue : list token) : result (list bool) :=
                 match avalue, bvalue with
                 | ae :: avalue', be :: bvalue' =>
                     r ← eq ae be;
                     rs ← filter avalue' bvalue';
                     OK (negb r :: rs)
                 | _, _ => OK []
                 end) l' value).
    { clear Hb. induction value as [|x value IHvalue]; intros [|y l'] Hl';
        try reflexivity.
      cbn [forallb] in Ha, Hl'.
      apply andb_true_iff in Ha as [Hx Hrest].
      apply andb_true_iff in Hl' as [Hy Hrest'].
      inversion IH as [|? ? Hx' IH']; subst.
      rewrite (Hx' y Hx Hy), (IHvalue IH' Hrest l' Hrest'). reflexivity. }
    rewrite (Hall value' Hb). reflexivity.
  - rewrite !(entry_eq_sym (value' !! _)). reflexivity.
Qed.


(** a list of dictionaries *)
Local Abbreviation dictionaries :=
  (map (fun d : list (string * token) => TDict (Some d))).

Lemma eq_dictionaries d d' : eq (TDict (Some d)) (TDict (Some d')) = OK false.
Proof. reflexivity. Qed.

Lemma contains_dictionaries ds d :
  contains (dictionaries ds) (TDict (Some d)) = OK false.
Proof.
  induction ds as [|d' ds IH]; [reflexivity|].
  cbn [map Util.contains]. rewrite eq_dictionaries.
  cbn [mbind result_bind rbind]. exact IH.
Qed.

Lemma distinct_loop_dictionaries ds : forall ds0,
  distinct_loop (dictionaries ds) (dictionaries ds0)
  = OK (dictionaries (ds0 ++ ds)).
Proof.
  induction ds as [|d ds IH]; intros ds0.
  - rewrite app_nil_r. reflexivity.
  - cbn [map Util.distinct_loop]. rewrite distinct_inner, contains_dictionaries.
    cbn [mbind result_bind rbind].
    change (dictionaries ds0 ++ [TDict (Some d)])
      with (dictionaries ds0 ++ dictionaries [d]).
    rewrite <- map_app, IH, <- app_assoc. reflexivity.
Qed.

(** X26.  Two dictionaries are never equal for [eq], not even a dictionary
    and itself: the test returns [false] before it looks at a key.  So
    [contains] finds no dictionary in a list of dictionaries, [distinct]
    returns such a list as it is, and [except] removes nothing from it. *)
Theorem dictionaries_are_never_equal :
  (forall d d', eq (TDict (Some d)) (TDict (Some d')) = OK false)
  /\ forall ds,
       (forall d, contains (dictionaries ds) (TDict (Some d)) = OK false)
       /\ distinct (dictionaries ds) = OK (dictionaries ds)
       /\ except (dictionaries ds) (dictionaries ds) = OK (dictionaries ds).
Proof.
  split; [exact eq_dictionaries|]. intros ds.
  split; [intros d; apply contains_dictionaries|]. split.
  - destruct ds as [|d ds]; [reflexivity|].
    cbn [map Util.distinct].
    exact (distinct_loop_dictionaries ds [d]).
  - generalize ds at 2 as ex. induction ds as [|d ds IH]; intros ex;
      [reflexivity|].
    cbn [map Util.except]. rewrite except_inner, contains_dictionaries.
    cbn [mbind result_bind rbind]. rewrite IH. reflexivity.
Qed.

End Facts.

Lemma contains_finds_an_equal_entry_witness :
  (true = true <->
   exists x, x ∈ one_two_one /\ Util.eq no_other_eq (TNum (Rat 2)) x = OK true)
  /\ (true = false <->
      forall x, x ∈ one_two_one ->
                Util.eq no_other_eq (TNum (Rat 2)) x = OK false).
Proof.
  apply (contains_finds_an_equal_entry no_other_eq one_two_one (TNum (Rat 2))
           true).
  reflexivity.
Defined.

Lemma distinct_keeps_first_of_equals_witness :
  [TNum (Rat 1); TNum (Rat 2)] `sublist_of` one_two_one
  /\ head [TNum (Rat 1); TNum (Rat 2)] = head one_two_one
  /\ pairwise_different no_other_eq [TNum (Rat 1); TNum (Rat 2)]
  /\ forall x, x ∈ one_two_one ->
       x ∈ [TNum (Rat 1); TNum (Rat 2)]
       \/ exists y, y ∈ [TNum (Rat 1); TNum (Rat 2)]
                    /\ Util.eq no_other_eq x y = OK true.
Proof.
  apply (distinct_keeps_first_of_equals no_other_eq one_two_one
           [TNum (Rat 1); TNum (Rat 2)]).
  reflexivity.
Defined.

Lemma except_keeps_what_is_not_contained_witness :
  [TNum (Rat 2)] `sublist_of` one_two_one
  /\ forall x, x ∈ [TNum (Rat 2)] <->
       x ∈ one_two_one
       /\ Util.contains no_other_eq [TNum (Rat 1)] x = OK false.
Proof.
  apply (except_keeps_what_is_not_contained no_other_eq one_two_one
           [TNum (Rat 1)] [TNum (Rat 2)]).
  reflexivity.
Defined.


End UtilFacts.

(** * Evaluation and the case of the letters of a call *)

Module EvaluateMoreFacts.

Lemma substituteTreeOps_not_custom name sub args :
  name ∉ custom_substitution -> substituteTreeOps name sub args = None.
Proof.
  intros Hname. unfold substituteTreeOps.
  repeat match goal with
         | |- context [String.eqb name ?s] =>
             destruct (String.eqb_spec name s) as [->|_];
               [exfalso; apply Hname; unfold custom_substitution; set_solver|]
         end.
  reflexivity.
Qed.

Lemma not_custom_lower name :
  toLowerCase name ∉ custom_substitution -> name ∉ custom_substitution.
Proof.
  intros Hlower Hname. apply Hlower. unfold custom_substitution in *.
  repeat (apply elem_of_cons in Hname as [->|Hname]; [vm_compute; set_solver|]).
  inversion Hname.
Qed.

Lemma substituteTree_lower_call k b args scope allowUnbound name :
  call_name k = Some name -> toLowerCase name ∉ custom_substitution ->
  substituteTree (Tree (lower_call k) b args) scope allowUnbound
  = (t ← substituteTree (Tree k b args) scope allowUnbound;
     OK (Tree (lower_call (tree_tok t)) (tree_bound t) (tree_args t))).
Proof.
  intros Hk Hlower. pose proof (not_custom_lower _ Hlower) as Hname.
  destruct k; try discriminate Hk; injection Hk as ->;
    cbn [substituteTree lower_call];
    (destruct b; [reflexivity|]);
    (destruct args as [args|]; [|reflexivity]);
    cbn [tok_name is_call type String.eqb orb];
    rewrite !substituteTreeOps_not_custom by assumption;
    destruct (mapM _ args); reflexivity.
Qed.

Section Facts.
Variable scoped :
  string -> (Scope -> tree -> result token) -> list val -> Scope -> result token.
Variable contentsubvars : string -> Scope -> result string.

Lemma not_defined_lower_call {V} (scope : ScopeOf V) k op :
  not_defined scope (lower_call k) op = not_defined scope k op.
Proof. destruct k; reflexivity. Qed.

(** X27.  The evaluation of a call does not depend on the case of the
    letters of its name, provided that the name in lower case is none of
    [isset], [map], [filter], [let] and [apply]: the call and the call
    with its name in lower case have the same outcome.  (For those five
    the substitution that comes first looks the name up as it is
    written.) *)
Theorem evaluate_ignores_the_case_of_a_call fuel scope k b args name :
  call_name k = Some name -> toLowerCase name ∉ custom_substitution ->
  evaluate scoped contentsubvars fuel scope (Tree (lower_call k) b args)
  = evaluate scoped contentsubvars fuel scope (Tree k b args).
Proof.
  intros Hk Hlower. destruct fuel as [|fuel]; [reflexivity|].
  cbn [evaluate]. rewrite (substituteTree_lower_call _ _ _ _ _ _ Hk Hlower).
  assert (Hshape : forall t, substituteTree (Tree k b args) scope true = OK t ->
            tree_tok t = k).
  { intros t H. destruct k; try discriminate Hk; cbn [substituteTree] in H;
      (destruct b; [injection H as <-; reflexivity|]);
      (destruct args as [args|]; [|injection H as <-; reflexivity]);
      match type of H with
      | context [match ?c with Some _ => _ | None => _ end] => destruct c
      end;
      match type of H with
      | (?m ≫= _) = _ => destruct m; try discriminate H
      end; injection H as <-; reflexivity. }
  destruct (substituteTree (Tree k b args) scope true) as [[k' b' args']| |];
    cbn [mbind result_bind rbind]; try reflexivity.
  specialize (Hshape _ eq_refl). cbn [tree_tok] in Hshape. subst k'.
  cbn [tree_tok tree_bound tree_args].
  destruct k; try discriminate Hk; injection Hk as ->; cbn [lower_call];
    rewrite VariablesFacts.toLowerCase_idempotent;
    (destruct (bool_decide _); [reflexivity|]);
    (destruct args' as [args'|]; [|reflexivity]);
    (destruct (mapM _ args') as [vs| |]; [|reflexivity|reflexivity]);
    cbn [mbind result_bind rbind]; unfold dispatch;
    (destruct (fst (getFunction scope _)); [|reflexivity]).
  all: first [ exact (not_defined_lower_call scope (TOp _ _ _) _)
             | exact (not_defined_lower_call scope (TFunc _ _) _) ].
Qed.

End Facts.

(** [map] in capitals: the two other arguments are substituted too *)
Example substituteTree_reads_the_name_as_written :
  substituteTree (node (TFunc "map" None) [variable "x"; variable "x"; variable "x"])
                 x_is_one true
  = OK (node (TFunc "map" None) [variable "x"; variable "x"; numeral 1])
  /\ substituteTree (node (TFunc "MAP" None) [variable "x"; variable "x"; variable "x"])
                    x_is_one true
     = OK (node (TFunc "MAP" None) [numeral 1; numeral 1; numeral 1]).
Proof. split; vm_compute; reflexivity. Qed.

Lemma evaluate_ignores_the_case_of_a_call_witness :
  evaluate no_scoped no_contentsubvars 3 two_definitions
           (Tree (lower_call (TFunc "F" None)) false
                 (Some [leaf (TNum (Rat (inject_Z 1)))]))
  = evaluate no_scoped no_contentsubvars 3 two_definitions
             (Tree (TFunc "F" None) false
                   (Some [leaf (TNum (Rat (inject_Z 1)))])).
Proof.
  apply (evaluate_ignores_the_case_of_a_call no_scoped no_contentsubvars 3
           two_definitions (TFunc "F" None) false
           (Some [leaf (TNum (Rat (inject_Z 1)))]) "F").
  - reflexivity.
  - vm_compute. set_solver.
Defined.


End EvaluateMoreFacts.

(** * Facts about [getCommutingTerms] *)

Module CommutingFacts.
Import MatchMoreFacts.

Lemma getCommutingTerms_S fuel t op names :
  getCommutingTerms (S fuel) t op names
  = (t ← (if String.eqb op "+" && isOp (tree_tok t) "-" then
             match tree_args t with
             | Some (a0 :: a1 :: _) =>
                 OK (node (TOp "+" false false)
                          [a0; node (TOp "-u" false false) [a1]])
             | _ => Err TypeError
             end
           else OK t);
      match tree_args t, tok_name (tree_tok t) with
      | Some args, Some name =>
          if negb (String.eqb name op) then
            OK {| terms := [t]; termnames := map characters names |}
          else
            (fix loop (args : list tree) (ts : list tree) (tn : list (list string))
                 (rest : list tree) (restnames : list (list string))
               : result commuting_terms :=
               match args with
               | [] => OK {| terms := ts ++ rest; termnames := tn ++ restnames |}
               | arg :: args' =>
                   '(arg, argnames) ← strip_names arg names;
                   if isOp (tree_tok arg) op
                      || (String.eqb op "+" && isOp (tree_tok arg) "-")
                   then
                     sub ← getCommutingTerms fuel arg op argnames;
                     loop args' (ts ++ terms sub) (tn ++ termnames sub)
                          rest restnames
                   else
                     e ← isEndTerm arg;
                     if isName (tree_tok arg) "?" || e
                     then loop args' ts tn (rest ++ [arg]) (restnames ++ [argnames])
                     else loop args' (ts ++ [arg]) (tn ++ [argnames]) rest restnames
               end) args [] [] [] []
      | _, _ => OK {| terms := [t]; termnames := map characters names |}
      end).
Proof. reflexivity. Qed.

Lemma isOp_two_names k op op' : isOp k op = true -> op <> op' -> isOp k op' = false.
Proof.
  destruct k; try discriminate. cbn. intros H Hne.
  apply String.eqb_eq in H as ->. apply String.eqb_neq. exact Hne.
Qed.

Lemma strip_names_plain a names :
  isOp (tree_tok a) ";" = false -> strip_names a names = OK (a, names).
Proof. intros H. destruct a as [k b args]. cbn in *. rewrite H. reflexivity. Qed.

Lemma operands_not_op op a :
  isOp (tree_tok a) op = false -> operands op a = [a].
Proof.
  destruct a as [k b [args|]]; cbn; [|reflexivity]. intros ->. reflexivity.
Qed.

Section Flatten.
Variable op : string.
Hypothesis op_sets_no_name : op <> ";".

(** X29.  [getCommutingTerms] flattens a chain of applications of the
    operator: when no operand of the chain sets a name, is a subtraction
    inside a sum, or is [?] or an end term, the terms are the operands of
    the chain from left to right, however the applications are nested -
    [a*(b*c)] and [(a*b)*c] have the same terms. *)
Theorem getCommutingTerms_flattens t fuel names :
  (height t <= fuel)%nat ->
  isOp (tree_tok t) op = true ->
  Forall (plain_term op) (operands op t) ->
  exists tn,
    getCommutingTerms fuel t op names
    = OK {| terms := operands op t; termnames := tn |}.
Proof.
  revert fuel names.
  induction t as [k b|k b args IH] using tree_nested_ind;
    intros fuel names Hfuel Hop Hplain;
    (destruct fuel as [|fuel]; [cbn in Hfuel; lia|]);
    rewrite getCommutingTerms_S; cbn [tree_tok tree_args] in *.
  - assert (Hminus : String.eqb op "+" && isOp k "-" = false).
    { destruct (String.eqb_spec op "+") as [->|]; [|reflexivity].
      apply (isOp_two_names _ _ "-") in Hop; [rewrite Hop; reflexivity|].
      discriminate. }
    rewrite Hminus. cbn [mbind result_bind rbind tree_args]. eauto.
  - assert (Hminus : String.eqb op "+" && isOp k "-" = false).
    { destruct (String.eqb_spec op "+") as [->|]; [|reflexivity].
      apply (isOp_two_names _ _ "-") in Hop; [rewrite Hop; reflexivity|].
      discriminate. }
    rewrite Hminus. cbn [mbind result_bind rbind tree_tok tree_args].
    destruct k; try discriminate Hop. cbn [tok_name isOp] in *.
    apply String.eqb_eq in Hop. subst name.
    cbn [operands isOp] in Hplain |- *.
    rewrite !String.eqb_refl in Hplain |- *. cbn [negb].
    assert (Hheights : Forall (fun a => height a <= fuel)%nat args).
    { apply List.Forall_forall. intros a Ha. apply list_elem_of_In in Ha.
      pose proof (SimplifyMoreFacts.height_arg a args Ha).
      cbn [height] in Hfuel. lia. }
    clear Hfuel.
    enough (Hloop : forall ts tn, exists tn',
      (fix loop (args : list tree) (ts : list tree) (tn : list (list string))
           (rest : list tree) (restnames : list (list string))
         : result commuting_terms :=
         match args with
         | [] => OK {| terms := ts ++ rest; termnames := tn ++ restnames |}
         | arg :: args' =>
             '(arg, argnames) ← strip_names arg names;
             if isOp (tree_tok arg) op
                || (String.eqb op "+" && isOp (tree_tok arg) "-")
             then
               sub ← getCommutingTerms fuel arg op argnames;
               loop args' (ts ++ terms sub) (tn ++ termnames sub)
                    rest restnames
             else
               e ← isEndTerm arg;
               if isName (tree_tok arg) "?" || e
               then loop args' ts tn (rest ++ [arg]) (restnames ++ [argnames])
               else loop args' (ts ++ [arg]) (tn ++ [argnames]) rest restnames
         end) args ts tn [] []
      = OK {| terms := ts ++ flat_map (operands op) args; termnames := tn' |}).
    { destruct (Hloop [] []) as [tn' H]. exists tn'. exact H. }
    induction args as [|a args IHargs]; intros ts tn.
    + exists (tn ++ []). cbn [flat_map]. reflexivity.
    + inversion IH as [|? ? IHa IHrest]; subst.
      inversion Hheights as [|? ? Hha Hhrest]; subst.
      cbn [flat_map] in Hplain. apply Forall_app in Hplain as [Hpa Hprest].
      destruct (isOp (tree_tok a) op) eqn:Haop.
      * rewrite strip_names_plain
          by (apply (isOp_two_names _ op); assumption).
        cbn [mbind result_bind rbind]. rewrite Haop. cbn [orb].
        destruct (IHa fuel names Hha eq_refl Hpa) as [tna Ha]. rewrite Ha.
        cbn [mbind result_bind rbind terms termnames].
        destruct (IHargs IHrest Hprest Hhrest (ts ++ operands op a) (tn ++ tna))
          as [tn' H].
        exists tn'. rewrite H, <- app_assoc. reflexivity.
      * cbn [flat_map]. rewrite (operands_not_op _ _ Haop) in Hpa |- *.
        inversion Hpa as [|? ? (Hsemi & Hsub & Hq & Hend) _]; subst.
        rewrite strip_names_plain by exact Hsemi.
        cbn [mbind result_bind rbind]. rewrite Haop, Hsub, Hend. cbn [orb].
        cbn [mbind result_bind rbind]. rewrite Hq. cbn [orb].
        destruct (IHargs IHrest Hprest Hhrest (ts ++ [a]) (tn ++ [names]))
          as [tn' H].
        exists tn'. rewrite H, <- app_assoc. reflexivity.
Qed.

End Flatten.

Lemma getCommutingTerms_flattens_witness :
  exists tn,
    getCommutingTerms 3
      (binary "*" (variable "a") (binary "*" (variable "b") (variable "c")))
      "*" []
    = OK {| terms :=
              operands "*"
                (binary "*" (variable "a")
                        (binary "*" (variable "b") (variable "c")));
            termnames := tn |}.
Proof.
  apply (getCommutingTerms_flattens "*" ltac:(discriminate)
           (binary "*" (variable "a") (binary "*" (variable "b") (variable "c")))
           3 []).
  - simpl. lia.
  - reflexivity.
  - repeat constructor.
Defined.

(** the two ways to nest a product of three *)
Example operands_of_a_product :
  operands "*" (binary "*" (variable "a")
                       (binary "*" (variable "b") (variable "c")))
  = [variable "a"; variable "b"; variable "c"]
  /\ operands "*" (binary "*" (binary "*" (variable "a") (variable "b"))
                          (variable "c"))
     = [variable "a"; variable "b"; variable "c"].
Proof. split; reflexivity. Qed.

End CommutingFacts.
